(** * Color-dataset engine: a shallow embedding and its checked properties

    The development follows the TypeScript sources:
    - [ColorMetrics]          src/utils/ColorMetrics.ts
    - [StringMetrics], [SemanticDeduplicator]
                              src/utils/deduplicator/
    - [ASTDetector]           src/middleware/parser/ASTDetector.ts
    - [SpectrumAnalyzer], [QualityScorer], [DatasetPruner]
                              src/utils/dataset-distribution/

    JavaScript numbers are modelled by [JS.number]: the rationals extended
    with the three special values of IEEE arithmetic (NaN and the two
    infinities).  Arithmetic on finite values is exact; the rounding error
    of binary64 and the sign of zero are not modelled.  Strings are
    modelled as ASCII strings. *)

From Stdlib Require Import ZArith QArith Qround Qabs Qminmax.
From Stdlib Require Import Morphisms Setoid.
From Stdlib Require Import List String Ascii DecimalString Bool Lia Lqa Permutation Sorted.
From Stdlib Require HexadecimalString Qcanon.
Import ListNotations.

Local Open Scope Z_scope.
Local Open Scope string_scope.
Local Open Scope list_scope.

(* ================================================================== *)
(** * Part I: definitions                                              *)
(* ================================================================== *)

(** ** JavaScript numbers *)

Module JS.

Inductive number : Type :=
| NaN
| PInf
| NInf
| Fin (q : Q).

(** Finite results are kept in lowest terms, so that equal numbers are
    equal terms.  Arithmetic on finite values is exact: the rounding of
    binary64, its overflow to an infinity and its underflow to a zero are
    not modelled.  Where a property depends on them, its statement keeps
    to the arguments on which the exact result is the result of the code
    (whole numbers, percentages) or leaves the margin the rounding needs. *)
Definition fin (q : Q) : number := Fin (Qred q).

Definition ofZ (z : Z) : number := Fin (inject_Z z).
Definition ofNat (n : nat) : number := ofZ (Z.of_nat n).

(** Sign of a number that is not NaN; zero has sign [Eq]. *)
Definition sign (a : number) : comparison :=
  match a with
  | NaN => Eq
  | PInf => Gt
  | NInf => Lt
  | Fin q => (q ?= 0)%Q
  end.

Definition signed_inf (s : comparison) : number :=
  match s with Lt => NInf | _ => PInf end.

Definition sign_mul (s t : comparison) : comparison :=
  match s, t with
  | Eq, _ | _, Eq => Eq
  | Lt, Lt | Gt, Gt => Gt
  | _, _ => Lt
  end.

Definition neg (a : number) : number :=
  match a with
  | NaN => NaN
  | PInf => NInf
  | NInf => PInf
  | Fin q => fin (- q)
  end.

Definition add (a b : number) : number :=
  match a, b with
  | NaN, _ | _, NaN => NaN
  | PInf, NInf | NInf, PInf => NaN
  | PInf, _ | _, PInf => PInf
  | NInf, _ | _, NInf => NInf
  | Fin x, Fin y => fin (x + y)
  end.

Definition sub (a b : number) : number := add a (neg b).

Definition mul (a b : number) : number :=
  match a, b with
  | NaN, _ | _, NaN => NaN
  | Fin x, Fin y => fin (x * y)
  | _, _ =>
      match sign_mul (sign a) (sign b) with
      | Eq => NaN                       (* Infinity * 0 *)
      | s => signed_inf s
      end
  end.

(** Division.  A zero divisor is taken to be +0: [x / 0] is an infinity
    with the sign of [x], and [0 / 0] is NaN. *)
Definition div (a b : number) : number :=
  match a, b with
  | NaN, _ | _, NaN => NaN
  | Fin x, Fin y =>
      if Qeq_bool y 0
      then match (x ?= 0)%Q with
           | Eq => NaN
           | Lt => NInf
           | Gt => PInf
           end
      else fin (x / y)
  | Fin _, _ => Fin 0
  | _, Fin y =>
      match sign a, (y ?= 0)%Q with
      | Gt, Lt => NInf
      | Gt, _ => PInf
      | _, Lt => PInf
      | _, _ => NInf
      end
  | _, _ => NaN                          (* Infinity / Infinity *)
  end.

(** Comparisons: every comparison with NaN is false. *)
Definition lt (a b : number) : bool :=
  match a, b with
  | NaN, _ | _, NaN => false
  | NInf, NInf => false
  | NInf, _ => true
  | _, NInf => false
  | PInf, _ => false
  | Fin _, PInf => true
  | Fin x, Fin y => negb (Qle_bool y x)
  end.

Definition le (a b : number) : bool :=
  match a, b with
  | NaN, _ | _, NaN => false
  | NInf, _ => true
  | _, NInf => false
  | _, PInf => true
  | PInf, _ => false
  | Fin x, Fin y => Qle_bool x y
  end.

Definition gt (a b : number) : bool := lt b a.
Definition ge (a b : number) : bool := le b a.

(** [a === b] on numbers. *)
Definition eq (a b : number) : bool :=
  match a, b with
  | PInf, PInf | NInf, NInf => true
  | Fin x, Fin y => Qeq_bool x y
  | _, _ => false
  end.

Definition Math_min (a b : number) : number :=
  match a, b with
  | NaN, _ | _, NaN => NaN
  | _, _ => if lt b a then b else a
  end.

Definition Math_max (a b : number) : number :=
  match a, b with
  | NaN, _ | _, NaN => NaN
  | _, _ => if lt a b then b else a
  end.

(** [Math.min(...xs)] and [Math.max(...xs)]. *)
Definition Math_min_list (xs : list number) : number := fold_left Math_min xs PInf.
Definition Math_max_list (xs : list number) : number := fold_left Math_max xs NInf.

Definition Math_abs (a : number) : number :=
  match a with
  | NaN => NaN
  | PInf | NInf => PInf
  | Fin q => fin (Qabs q)
  end.

Definition Math_floor (a : number) : number :=
  match a with
  | Fin q => ofZ (Qfloor q)
  | _ => a
  end.

Definition Math_ceil (a : number) : number :=
  match a with
  | Fin q => ofZ (Qceiling q)
  | _ => a
  end.

(** [Math.round] rounds to the nearest integer, halves upwards. *)
Definition Math_round (a : number) : number :=
  match a with
  | Fin q => ofZ (Qfloor (q + (1 # 2)))
  | _ => a
  end.

Definition Qtrunc (q : Q) : Z :=
  if Qle_bool 0 q then Qfloor q else Qceiling q.

(** The remainder operator [a % b]: the result has the sign of [a]. *)
Definition rem (a b : number) : number :=
  match a, b with
  | NaN, _ | _, NaN => NaN
  | PInf, _ | NInf, _ => NaN
  | Fin _, PInf | Fin _, NInf => a
  | Fin x, Fin y =>
      if Qeq_bool y 0 then NaN
      else fin (x - y * inject_Z (Qtrunc (x / y)))
  end.

(** Truthiness of a number: [0] and [NaN] are falsy. *)
Definition truthy (a : number) : bool :=
  match a with
  | NaN => false
  | Fin q => negb (Qeq_bool q 0)
  | _ => true
  end.

(** ** Strings *)

Definition in_range (lo hi : N) (c : ascii) : bool :=
  let n := N_of_ascii c in (N.leb lo n && N.leb n hi)%bool.

Definition is_digit (c : ascii) : bool := in_range 48 57 c.      (* 0-9 *)
Definition is_lower_af (c : ascii) : bool := in_range 97 102 c.  (* a-f *)
Definition is_upper_AF (c : ascii) : bool := in_range 65 70 c.   (* A-F *)

(** The character classes [[0-9a-f]] and [[0-9a-f]] under the [i] flag. *)
Definition is_hex_lower (c : ascii) : bool := is_digit c || is_lower_af c.
Definition is_hex_any (c : ascii) : bool := is_hex_lower c || is_upper_AF c.

(** [toLowerCase] folds A-Z, which is all it does on ASCII strings; the
    cased letters outside ASCII are left as they are. *)
Definition lower_char (c : ascii) : ascii :=
  if in_range 65 90 c then ascii_of_N (N_of_ascii c + 32) else c.

Fixpoint toLowerCase (s : string) : string :=
  match s with
  | EmptyString => EmptyString
  | String c s' => String (lower_char c) (toLowerCase s')
  end.

Definition is_space (c : ascii) : bool :=
  in_range 9 13 c || N.eqb (N_of_ascii c) 32.

Fixpoint trimStart (s : string) : string :=
  match s with
  | String c s' => if is_space c then trimStart s' else s
  | EmptyString => EmptyString
  end.

Fixpoint trimEnd (s : string) : string :=
  match s with
  | EmptyString => EmptyString
  | String c s' =>
      match trimEnd s' with
      | EmptyString => if is_space c then EmptyString else String c EmptyString
      | t => String c t
      end
  end.

Definition trim (s : string) : string := trimEnd (trimStart s).

Definition chars (s : string) : list ascii := list_ascii_of_string s.

(** [s.slice(i, j)] for [0 <= i <= j]. *)
Definition slice (i j : nat) (s : string) : string := substring i (j - i) s.

Definition startsWith (c : ascii) (s : string) : bool :=
  match s with
  | String d _ => Ascii.eqb c d
  | EmptyString => false
  end.

(** [x === y] on two characters read by index ([undefined] when out of
    range). *)
Definition option_eq_ascii (x y : option ascii) : bool :=
  match x, y with
  | Some c, Some d => Ascii.eqb c d
  | None, None => true
  | _, _ => false
  end.

(** Value of a hexadecimal digit, as [parseInt(_, 16)] reads it. *)
Definition hexDigitVal (c : ascii) : option Z :=
  let n := Z.of_N (N_of_ascii c) in
  if is_digit c then Some (n - 48)
  else if is_lower_af c then Some (n - 87)
  else if is_upper_AF c then Some (n - 55)
  else None.

Fixpoint parseHexDigits (acc : option Z) (s : string) : option Z :=
  match s with
  | EmptyString => acc
  | String c s' =>
      match hexDigitVal c with
      | Some d =>
          parseHexDigits (Some (16 * match acc with Some a => a | None => 0 end + d)) s'
      | None => acc
      end
  end.

(** [parseInt(s, 16)] on a string without sign, blanks or [0x] prefix:
    the longest prefix of hexadecimal digits, NaN when it is empty. *)
Definition parseInt16 (s : string) : number :=
  match parseHexDigits None s with
  | Some z => ofZ z
  | None => NaN
  end.

(** A [Map<string, T[]>]: the keys in insertion order, each with its
    array.  [map_push key x m] is
    [if (!m.has(key)) m.set(key, []); m.get(key).push(x)]. *)
Fixpoint map_push {A : Type} (key : string) (x : A) (m : list (string * list A))
  : list (string * list A) :=
  match m with
  | [] => [(key, [x])]
  | (k, g) :: m' =>
      if String.eqb k key then (k, g ++ [x]) :: m'
      else (k, g) :: map_push key x m'
  end.

(** [Array.prototype.sort(cmp)]: a stable sort; [x] is moved behind [y]
    exactly when [cmp x y > 0] (a NaN comparison counts as 0). *)
Section Sort.
Context {A : Type} (cmp : A -> A -> number).

Fixpoint sort_insert (x : A) (l : list A) : list A :=
  match l with
  | [] => [x]
  | y :: l' => if gt (cmp x y) (Fin 0) then y :: sort_insert x l' else x :: l
  end.

Definition sort (l : list A) : list A := fold_right sort_insert [] l.
End Sort.

End JS.

Import JS.

(** ** Records ('@/types') *)

Module Types.

(** Modelled from the spec: the declarations of '@/types' are not among
    the sources.  [hsl] is [{h, s, l}], three numbers. *)
Record HSL : Type := mkHSL { h : number; s : number; l : number }.

(** Modelled from the spec: [ColorData] of '@/types', with the fields the
    data model lists for a color record (the code reads [hex], [name],
    [family] and [hsl]). *)
Record ColorData : Type := mkColor {
  hex : string;
  name : string;
  family : string;
  rgb : list number;
  hsl : HSL;
  hueRange : number * number
}.

(** Modelled from the spec: [DuplicateGroup] of '@/types', the four fields
    [deduplicate] fills in. *)
Record DuplicateGroup : Type := mkDuplicateGroup {
  dg_hex : string;
  dg_names : list string;
  dg_selected : string;
  dg_reason : string
}.

End Types.

Import Types.

(** ** ColorMetrics (src/utils/ColorMetrics.ts) *)

Module ColorMetrics.

(** [rgb.map(v => v >= 1 ? v / 255 : v)] *)
Definition normalizeRgb (rgb : list number) : list number :=
  map (fun v => if ge v (Fin 1) then div v (Fin 255) else v) rgb.

Definition round3 (v : number) : number :=
  div (Math_round (mul v (Fin 1000))) (Fin 1000).

(** The test [/^[0-9a-f]{3}$|^[0-9a-f]{6}$|^[0-9a-f]{8}$/]. *)
Definition hexPattern (s : string) : bool :=
  forallb is_hex_lower (chars s) &&
  (Nat.eqb (length s) 3 || Nat.eqb (length s) 6 || Nat.eqb (length s) 8).

(** [normalized.split('').map(ch => ch + ch).join('')] *)
Fixpoint doubleChars (s : string) : string :=
  match s with
  | EmptyString => EmptyString
  | String c s' => String c (String c (doubleChars s'))
  end.

Definition hexToRgb (hex : string) : list number :=
  let r := Fin 0 in let g := Fin 0 in let b := Fin 0 in let a := Fin 1 in
  let normalized := toLowerCase (trim hex) in
  let normalized :=
    if startsWith "#"%char normalized then slice 1 (length normalized) normalized
    else normalized in
  if negb (hexPattern normalized) then [r; g; b; a]
  else
    let normalized :=
      if Nat.eqb (length hex) 3 then doubleChars normalized else normalized in
    let channels :=
      match length normalized with
      | 6%nat =>
          Some (parseInt16 (slice 0 2 normalized),
                parseInt16 (slice 2 4 normalized),
                parseInt16 (slice 4 6 normalized),
                a)
      | 8%nat =>
          Some (parseInt16 (slice 0 2 normalized),
                parseInt16 (slice 2 4 normalized),
                parseInt16 (slice 4 6 normalized),
                parseInt16 (slice 6 8 normalized))
      | _ => None
      end in
    match channels with
    | None => [r; g; b; a]
    | Some (r, g, b, a) => map round3 (normalizeRgb [r; g; b; a])
    end.

(** [calculateHueRange]: the result is the pair [[start, end]]. *)
Definition round1 (v : number) : number :=
  div (Math_round (mul v (Fin 10))) (Fin 10).

Definition calculateHueRange (hsl : HSL) : number * number :=
  let h := h hsl in
  let s := s hsl in
  if lt s (Fin 0.05) then (Fin 0, Fin 360)
  else
    let spread := Math_max (Fin 1) (mul (Fin 20) (sub (Fin 1) s)) in
    let start := sub h spread in
    let end_ := add h spread in
    let start := if lt start (Fin 0) then Fin 0 else start in
    let end_ := if gt end_ (Fin 360) then Fin 360 else end_ in
    if gt (sub end_ start) (Fin 180) then (Fin 0, Fin 360)
    else (round1 start, round1 end_).

(** The argument of [getColorFamily]: [s] and [l] may be missing and then
    take the defaults [1] and [0.5]. *)
Record FamilyArg : Type := mkFamilyArg {
  fa_h : number;
  fa_s : option number;
  fa_l : option number
}.

(** Modelled from the spec: [Family] of './words.ts' is a union of string
    literals; at run time a family is a string. *)
Definition Family : Type := string.

Definition includes (xs : list string) (x : string) : bool :=
  existsb (String.eqb x) xs.

Definition baseFamilyOf (h : number) : Family :=
  if ge h (Fin 345) || le h (Fin 15) then "red"
  else if lt h (Fin 45) then "orange"
  else if lt h (Fin 75) then "yellow"
  else if lt h (Fin 105) then "chartreuse"
  else if lt h (Fin 135) then "green"
  else if lt h (Fin 165) then "springgreen"
  else if lt h (Fin 195) then "cyan"
  else if lt h (Fin 225) then "azure"
  else if lt h (Fin 255) then "blue"
  else if lt h (Fin 285) then "violet"
  else if lt h (Fin 315) then "magenta"
  else if lt h (Fin 345) then "rose"
  else "red".

Definition getColorFamily (arg : FamilyArg) : Family :=
  let s := match fa_s arg with Some v => v | None => Fin 1 end in
  let l := match fa_l arg with Some v => v | None => Fin 0.5 end in
  let h := rem (add (rem (fa_h arg) (Fin 360)) (Fin 360)) (Fin 360) in
  if lt l (Fin 0.15) then "black"
  else if lt s (Fin 0.1) then
    (if gt l (Fin 0.9) then "white" else "gray")
  else if lt s (Fin 0.3) && gt l (Fin 0.6) then "pastel"
  else if gt s (Fin 0.8) && gt l (Fin 0.8) then "neon"
  else
    let baseFamily := baseFamilyOf h in
    if (lt s (Fin 0.5) && lt l (Fin 0.7))
       && includes ["orange"; "yellow"; "red"] baseFamily
    then (if lt s (Fin 0.6) && lt l (Fin 0.7) then "brown" else "earth")
    else if (String.eqb baseFamily "red" || String.eqb baseFamily "rose"
             || String.eqb baseFamily "magenta")
            && gt l (Fin 0.7) && gt s (Fin 0.3) && lt s (Fin 0.8)
    then "pink"
    else if includes ["yellow"; "orange"] baseFamily
            && gt s (Fin 0.2) && lt s (Fin 0.7) && gt l (Fin 0.5)
    then "metallic"
    else if includes ["orange"; "yellow"; "brown"] baseFamily
            && gt s (Fin 0.2) && lt s (Fin 0.7) && gt l (Fin 0.4) && lt l (Fin 0.9)
    then "skin"
    else if includes ["red"; "green"; "blue"; "purple"; "magenta"] baseFamily
            && gt s (Fin 0.7) && gt l (Fin 0.5)
    then "jewel"
    else if includes ["green"; "blue"; "springgreen"; "cyan"] baseFamily
            && gt s (Fin 0.3) && lt s (Fin 0.8) && gt l (Fin 0.3) && lt l (Fin 0.9)
    then "nature"
    else if includes ["red"; "orange"; "yellow"; "green"; "brown"] baseFamily
            && gt s (Fin 0.5) && gt l (Fin 0.5)
    then "food"
    else if String.eqb baseFamily "chartreuse" then "lime"
    else if String.eqb baseFamily "cyan" || String.eqb baseFamily "springgreen" then "teal"
    else if String.eqb baseFamily "violet" then "purple"
    else baseFamily.

(** [getTemperature]: the hue is reduced with [%] only, so it keeps its sign. *)
Definition getTemperature (hsl : HSL) : string :=
  let h := rem (h hsl) (Fin 360) in
  if (ge h (Fin 0) && le h (Fin 60)) || (ge h (Fin 300) && le h (Fin 360)) then "warm"
  else if ge h (Fin 120) && le h (Fin 240) then "cool"
  else "neutral".

(** What [hexToHslMetrics] returns: [{h, s, l, hueRange}]. *)
Record HslMetrics : Type := mkHslMetrics {
  m_h : number;
  m_s : number;
  m_l : number;
  m_hueRange : number * number
}.

(** [hexToHslMetrics]; [const [r, g, b] = ...] reads the first three
    elements (a missing one would be [undefined], a NaN in arithmetic).
    The [switch (max)] compares with [===], first match wins. *)
Definition hexToHslMetrics (hex : string) : HslMetrics :=
  let rgb := hexToRgb hex in
  let r := nth 0 rgb NaN in
  let g := nth 1 rgb NaN in
  let b := nth 2 rgb NaN in
  let max := Math_max_list [r; g; b] in
  let min := Math_min_list [r; g; b] in
  let l := div (add max min) (Fin 2) in
  let delta := sub max min in
  let sh :=
    if JS.eq max min then (Fin 0, Fin 0)
    else
      (if gt l (Fin 0.5) then div delta (sub (sub (Fin 2) max) min)
       else div delta (add max min),
       if JS.eq max r then
         let h := mul (div (sub g b) delta) (Fin 60) in
         if lt g b then add h (Fin 360) else h
       else if JS.eq max g then add (mul (div (sub b r) delta) (Fin 60)) (Fin 120)
       else if JS.eq max b then add (mul (div (sub r g) delta) (Fin 60)) (Fin 240)
       else Fin 0) in
  let s := fst sh in
  let h := snd sh in
  mkHslMetrics (Math_round h) (Math_round (mul s (Fin 100))) (Math_round (mul l (Fin 100)))
    (calculateHueRange (mkHSL h s l)).

End ColorMetrics.

(** ** StringMetrics (src/utils/deduplicator/StringMetrics.ts) *)

Module StringMetrics.

(** The table [H]: an array of rows.  Every index the function uses is in
    range; reads default to [0] and writes out of range do nothing. *)
Definition matrix : Type := list (list Z).

Definition mget (H : matrix) (i j : nat) : Z := nth j (nth i H []) 0.

Fixpoint list_set {A : Type} (l : list A) (i : nat) (v : A) : list A :=
  match l, i with
  | [], _ => []
  | _ :: t, O => v :: t
  | x :: t, S i' => x :: list_set t i' v
  end.

Definition mset (H : matrix) (i j : nat) (v : Z) : matrix :=
  list_set H i (list_set (nth i H []) j v).

(** The map [da]: last row in which a character of [a] was seen. *)
Definition charmap : Type := list (ascii * nat).

(** [da.get(c) || 0] *)
Definition da_get (da : charmap) (c : ascii) : nat :=
  match find (fun p => Ascii.eqb (fst p) c) da with
  | Some p => snd p
  | None => 0%nat
  end.

Definition da_set (da : charmap) (c : ascii) (i : nat) : charmap := (c, i) :: da.

(** [str[i]] *)
Definition charAt (str : string) (i : nat) : option ascii := String.get i str.

Definition min4 (w x y z : Z) : Z := Z.min (Z.min w x) (Z.min y z).

(** One pass of the inner loop body, for row [i] and column [j]. *)
Definition cell (a b : string) (da : charmap) (i : nat) (st : matrix * nat) (j : nat)
  : matrix * nat :=
  let '(H, db) := st in
  let i1 := match charAt b (j - 1) with Some c => da_get da c | None => 0%nat end in
  let j1 := db in
  let cost := if option_eq_ascii (charAt a (i - 1)) (charAt b (j - 1)) then 0 else 1 in
  let db := if Z.eqb cost 0 then j else db in
  let v := min4
    (mget H i (j + 1) + cost)
    (mget H (i + 1) j + 1)
    (mget H i j + 1)
    (mget H i1 j1 + (Z.of_nat i - Z.of_nat i1 - 1) + 1 + (Z.of_nat j - Z.of_nat j1 - 1)) in
  (mset H (i + 1) (j + 1) v, db).

Definition row (a b : string) (st : matrix * charmap) (i : nat) : matrix * charmap :=
  let '(H, da) := st in
  let '(H, _) := fold_left (cell a b da i) (seq 1 (length b)) (H, 0%nat) in
  (H, match charAt a (i - 1) with Some c => da_set da c i | None => da end).

Definition damerauLevenshtein (a b : string) : Z :=
  let aLen := length a in
  let bLen := length b in
  let maxDist := Z.of_nat (aLen + bLen) in
  let H := repeat (repeat maxDist (bLen + 2)) (aLen + 2) in
  let H := fold_left
    (fun H i => mset (mset H (i + 1) 0 maxDist) (i + 1) 1 (Z.of_nat i))
    (seq 0 (aLen + 1)) H in
  let H := fold_left
    (fun H j => mset (mset H 0 (j + 1) maxDist) 1 (j + 1) (Z.of_nat j))
    (seq 0 (bLen + 1)) H in
  let '(H, _) := fold_left (row a b) (seq 1 aLen) (H, []) in
  mget H (aLen + 1) (bLen + 1).

End StringMetrics.

(** ** SemanticDeduplicator (src/utils/deduplicator/SemanticDeduplicator.ts) *)

Module SemanticDeduplicator.

(** A [Map<string, ColorData[]>]: keys in insertion order. *)
Definition groups : Type := list (string * list ColorData).

Fixpoint indexed_from {A : Type} (i : nat) (xs : list A) : list (nat * A) :=
  match xs with
  | [] => []
  | x :: xs' => (i, x) :: indexed_from (S i) xs'
  end.

Definition indexed {A : Type} (xs : list A) : list (nat * A) := indexed_from 0 xs.

(** What [String(Math.round(x))] prints (integers below 1e21). *)
Definition roundedToString (x : number) : string :=
  match Math_round x with
  | NaN => "NaN"
  | PInf => "Infinity"
  | NInf => "-Infinity"
  | Fin q => NilZero.string_of_int (Z.to_int (Qfloor q))
  end.

Section WithAnalyzer.

(** [SemanticAnalyzer.scoreSemanticMatch]: the name-semantics engine is not
    among the sources and is taken as a parameter. *)
Variable scoreSemanticMatch : ColorData -> number.

Definition inPriority (priorityColors : list ColorData) (color : ColorData) : bool :=
  existsb (fun pc =>
    String.eqb (toLowerCase (hex pc)) (toLowerCase (hex color)) &&
    String.eqb (toLowerCase (name pc)) (toLowerCase (name color))) priorityColors.

(** [other === color] compares references: the members of a group are
    distinct elements of the input array, told apart by their position. *)
Definition calculateScore (color : ColorData) (group : list ColorData) (index : nat)
    (priorityColors : list ColorData) : number :=
  let score := Fin 0 in
  let score := if inPriority priorityColors color then add score (Fin 60) else score in
  let semanticScore := scoreSemanticMatch color in
  let score := add score (mul semanticScore (Fin 0.3)) in
  let minDistance :=
    fold_left (fun m (p : nat * ColorData) =>
      if Nat.eqb (fst p) index then m
      else Math_min m (ofZ (StringMetrics.damerauLevenshtein (name color) (name (snd p)))))
      (indexed group) PInf in
  let score := add score (mul (Math_min (mul minDistance (Fin 10)) (Fin 100)) (Fin 0.15)) in
  let lengthScore :=
    Math_max (Fin 0)
      (sub (Fin 10) (Math_abs (sub (ofNat (length (name color))) (Fin 10)))) in
  let score := add score (mul lengthScore (Fin 0.1)) in
  let priorityScore := mul (sub (ofNat (List.length group)) (ofNat index)) (Fin 5) in
  add score (mul priorityScore (Fin 0.05)).

(** [scores[0].color] after the sort; [first] stands for the head of the
    group, which every caller has in hand (groups are never empty). *)
Definition selectBestName (first : ColorData) (group : list ColorData)
    (priorityColors : list ColorData) : ColorData :=
  let scores :=
    map (fun p : nat * ColorData =>
           (calculateScore (snd p) group (fst p) priorityColors, snd p))
        (indexed group) in
  let scores := sort (fun a b => sub (fst b) (fst a)) scores in
  match scores with
  | [] => first
  | p :: _ => snd p
  end.

Definition getSelectionReason (group : list ColorData) (winner : ColorData)
    (priorityColors : list ColorData) : string :=
  let names := map name group in
  let reasons :=
    (if inPriority priorityColors winner then ["Priority dataset"] else []) ++
    (if existsb (String.eqb "gray") names && existsb (String.eqb "grey") names
     then ["CSS standard"] else []) ++
    (let semanticScore := scoreSemanticMatch winner in
     if gt semanticScore (Fin 50)
     then [("Semantic: " ++ roundedToString semanticScore)%string] else []) in
  String.concat " | " reasons.

Record DeduplicateRawResult : Type := mkResult {
  colors : list ColorData;
  stats : list DuplicateGroup
}.

(** The loop over the groups of a map, choosing a winner per group.
    [label g] is the [hex] entry of the report for the group [(key, g)]. *)
Definition pickWinners (tag : string) (label : string -> list ColorData -> string)
    (priorityColors : list ColorData) (m : groups)
  : list ColorData * list DuplicateGroup :=
  fold_left (fun (acc : list ColorData * list DuplicateGroup) (kg : string * list ColorData) =>
    let '(winners, duplicates) := acc in
    let '(key, group) := kg in
    match group with
    | [] => acc
    | [c] => (winners ++ [c], duplicates)
    | c :: _ =>
        let winner := selectBestName c group priorityColors in
        (winners ++ [winner],
         duplicates ++
         [mkDuplicateGroup (label key group) (map name group) (name winner)
            (getSelectionReason group winner priorityColors ++ tag)%string])
    end) m ([], []).

Definition deduplicate (colors : list ColorData) (priorityColors : list ColorData)
  : DeduplicateRawResult :=
  (* STEP 1: HEX grouping *)
  let hexGroups :=
    fold_left (fun m color => map_push (toLowerCase (hex color)) color m) colors [] in
  let '(hexWinners, hexDuplicates) :=
    pickWinners " | HEX" (fun key _ => key) priorityColors hexGroups in
  (* STEP 2: grouping the winners by name *)
  let nameGroups :=
    fold_left (fun m winner =>
      if String.eqb (name winner) "" then m
      else map_push (toLowerCase (name winner)) winner m) hexWinners [] in
  match nameGroups with
  | [] => mkResult hexWinners hexDuplicates
  | _ =>
      let '(finalResult, nameDuplicates) :=
        pickWinners " | NAME" (fun _ g => String.concat ", " (map hex g))
          priorityColors nameGroups in
      mkResult finalResult (hexDuplicates ++ nameDuplicates)
  end.

End WithAnalyzer.

End SemanticDeduplicator.

(** ** ASTDetector (src/middleware/parser/ASTDetector.ts) *)

Module ASTDetector.

#[local] Set Warnings "-register-all".

(** Deserialized data: the values of JSON, and [undefined].  An object
    lists its own properties in enumeration order, each key once. *)
Inductive value : Type :=
| VUndefined
| VNull
| VBool (b : bool)
| VNum (n : number)
| VStr (str : string)
| VArr (items : list value)
| VObj (props : list (string * value)).

(** A computation that may throw a [TypeError]. *)
Inductive result (A : Type) : Type :=
| Ok (a : A)
| Throw.
Arguments Ok {A} a.
Arguments Throw {A}.

Definition bind {A B : Type} (r : result A) (k : A -> result B) : result B :=
  match r with
  | Ok a => k a
  | Throw => Throw
  end.

Notation "x <- e ;; k" := (bind e (fun x => k))
  (at level 61, e at next level, right associativity).

(** [xs.every(p)] and [xs.some(p)] stop at the first deciding element. *)
Fixpoint every {A : Type} (p : A -> result bool) (xs : list A) : result bool :=
  match xs with
  | [] => Ok true
  | x :: xs' => b <- p x ;; if b then every p xs' else Ok false
  end.

Fixpoint some {A : Type} (p : A -> result bool) (xs : list A) : result bool :=
  match xs with
  | [] => Ok false
  | x :: xs' => b <- p x ;; if b then Ok true else some p xs'
  end.

(** Modelled from the spec: [ASTStructure] of '@/types', the four fields
    [detect] fills in. *)
Record ASTStructure : Type := mkStructure {
  type : string;
  confidence : number;
  schema : value;
  metadata : value
}.

Definition typeof (v : value) : string :=
  match v with
  | VUndefined => "undefined"
  | VNull | VArr _ | VObj _ => "object"
  | VBool _ => "boolean"
  | VNum _ => "number"
  | VStr _ => "string"
  end.

Definition isArray (v : value) : bool :=
  match v with VArr _ => true | _ => false end.

Definition isString (v : value) : bool :=
  match v with VStr _ => true | _ => false end.

Definition truthy (v : value) : bool :=
  match v with
  | VUndefined | VNull => false
  | VBool b => b
  | VNum n => JS.truthy n
  | VStr str => negb (String.eqb str "")
  | VArr _ | VObj _ => true
  end.

Definition lookup (key : string) (props : list (string * value)) : value :=
  match find (fun p => String.eqb (fst p) key) props with
  | Some p => snd p
  | None => VUndefined
  end.

(** [v?.key] for the property names the detector reads (name, hex, color,
    family, meta): only an object can have them. *)
Definition getOpt (v : value) (key : string) : value :=
  match v with
  | VObj props => lookup key props
  | _ => VUndefined
  end.

(** [v.key]: reading a property of [null] or [undefined] throws. *)
Definition get (v : value) (key : string) : result value :=
  match v with
  | VNull | VUndefined => Throw
  | _ => Ok (getOpt v key)
  end.

(** [key in v]: throws unless [v] is an object or an array. *)
Definition has (key : string) (v : value) : result bool :=
  match v with
  | VObj props => Ok (existsb (fun p => String.eqb (fst p) key) props)
  | VArr _ => Ok false
  | _ => Throw
  end.

(** [Object.keys], [Object.values] and [Object.entries]; the detector
    calls them on objects only. *)
Definition entries (v : value) : list (string * value) :=
  match v with VObj props => props | _ => [] end.
Definition keys (v : value) : list string := map fst (entries v).
Definition values (v : value) : list value := map snd (entries v).

Definition elements (v : value) : list value :=
  match v with VArr items => items | _ => [] end.

(** [/^([0-9a-f]{6})$/i] *)
Definition hex6 (str : string) : bool :=
  forallb is_hex_any (chars str) && Nat.eqb (String.length str) 6.

(** [/^#?[0-9a-f]{lo,hi}$/i] *)
Definition hashHex (lo hi : nat) (str : string) : bool :=
  let digits := if startsWith "#"%char str then slice 1 (String.length str) str else str in
  forallb is_hex_any (chars digits) &&
  Nat.leb lo (String.length digits) && Nat.leb (String.length digits) hi.

Section WithNumberFormat.

(** [String(n)] for a number [n]: the shortest decimal that reads back as
    the same binary64 value, taken as a parameter. *)
Variable Number_toString : number -> string.

(** [String(v)]; objects are assumed not to redefine [toString]. *)
Fixpoint toStr (v : value) : string :=
  match v with
  | VUndefined => "undefined"
  | VNull => "null"
  | VBool true => "true"
  | VBool false => "false"
  | VNum n => Number_toString n
  | VStr str => str
  | VArr items =>
      String.concat ","
        (map (fun i => match i with
                       | VUndefined | VNull => ""
                       | _ => toStr i
                       end) items)
  | VObj _ => "[object Object]"
  end.

Definition isIterable (data : value) : bool :=
  isArray data
  || (truthy data && isString data)        (* data[Symbol.iterator] is a function *)
  || (String.eqb (typeof data) "object"
      && negb (match data with VNull => true | _ => false end)
      && negb (isArray data)).

(** The guard shared by the object detectors:
    [typeof data !== 'object' || Array.isArray(data) || !Object.keys(data).length].
    [data] is never [null] here. *)
Definition notKeyedObject (data : value) : bool :=
  negb (String.eqb (typeof data) "object") || isArray data
  || Nat.eqb (List.length (keys data)) 0.

Definition ratio (n d : nat) : number := div (ofNat n) (ofNat d).

Definition isColorPaletteRecord (data : value) : bool :=
  if notKeyedObject data then false
  else
    let values := values data in
    if Nat.eqb (List.length values) 0 then false
    else
      let validColors := filter (fun sample =>
        String.eqb (typeof (getOpt sample "name")) "string" &&
        String.eqb (typeof (getOpt sample "hex")) "string" &&
        hex6 (toStr (getOpt sample "hex"))) values in
      ge (ratio (List.length validColors) (List.length values)) (Fin 0.8).

Definition isJsonObjectFormat (data : value) : result bool :=
  if notKeyedObject data then Ok false
  else
    let values := values data in
    if negb (Nat.ltb 0 (List.length values)) then Ok false
    else every (fun sample =>
      if negb (String.eqb (typeof sample) "object" && negb (isArray sample))
      then Ok false
      else
        nm <- get sample "name" ;;
        if negb (String.eqb (typeof nm) "string") then Ok false
        else
          hx <- get sample "hex" ;;
          Ok (String.eqb (typeof hx) "string"
              && Nat.ltb 0 (String.length (toStr nm))
              && hex6 (toStr hx))) values.

Definition isHexStringPairs (data : value) : bool :=
  isArray data &&
  forallb (fun item =>
    if negb (isArray item) || negb (Nat.eqb (List.length (elements item)) 2) then false
    else
      let a := nth 0 (elements item) VUndefined in
      let b := nth 1 (elements item) VUndefined in
      let aIsHex := hashHex 3 8 (toStr a) in
      let bIsHex := hashHex 3 8 (toStr b) in
      let aIsString := isString a in
      let bIsString := isString b in
      (aIsHex && bIsString) || (aIsString && bIsHex)) (elements data).

Definition scoreHexStringPairs (data : value) : number :=
  let total := List.length (elements data) in
  let hexCount := List.length (filter (fun item =>
    let a := nth 0 (elements item) VUndefined in
    let b := nth 1 (elements item) VUndefined in
    hashHex 6 8 (toStr a) || hashHex 6 8 (toStr b)) (elements data)) in
  add (Fin 0.8) (mul (ratio hexCount total) (Fin 0.2)).

Definition isObjectEntries (data : value) : bool :=
  String.eqb (typeof data) "object" && negb (isArray data)
  && Nat.ltb 0 (List.length (keys data))
  && existsb (fun kv : string * value =>
       (hashHex 6 8 (fst kv) && isString (snd kv))
       || hashHex 6 8 (toStr (snd kv))) (entries data).

Definition scoreObjectEntries (data : value) : number :=
  let entries := entries data in
  let validPairs := filter (fun kv : string * value =>
    (hashHex 6 6 (fst kv) && isString (snd kv))
    || hashHex 6 6 (toStr (snd kv))) entries in
  div (ofNat (List.length validPairs))
      (Math_max (Fin 1) (ofNat (List.length entries))).

Definition isArrayOfObjects (data : value) : result bool :=
  if negb (isArray data && Nat.ltb 0 (List.length (elements data))) then Ok false
  else every (fun item =>
    if negb (String.eqb (typeof item) "object" && negb (isArray item)) then Ok false
    else
      hasHex <- has "hex" item ;;
      if hasHex then Ok true else has "name" item) (elements data).

(** Called once [isArrayOfObjects] holds: the first element is an object. *)
Definition scoreArrayOfObjects (data : value) : number :=
  match elements data with
  | [] => Fin 0
  | sample :: _ =>
      let present key := existsb (String.eqb key) (keys sample) in
      let score := Fin 0 in
      let score := if present "hex" then add score (Fin 0.4) else score in
      let score := if present "name" then add score (Fin 0.4) else score in
      let score := if present "family" || present "hsl"
                   then add score (Fin 0.2) else score in
      Math_min score (Fin 1)
  end.

Definition inferObjectSchema (data : value) : value :=
  let keys := keys data in
  let values := values data in
  VObj [("keyType", VStr (match keys with [] => "undefined" | _ => "string" end));
        ("valueType", VStr (typeof (nth 0 values VUndefined)));
        ("keyPattern", VStr (if forallb (hashHex 6 6) keys then "hex" else "name"));
        ("valuePattern",
         VStr (if forallb (fun v => hashHex 6 6 (toStr v)) values then "hex" else "name"))].

Definition analyzeObjectKeys (data : value) : value :=
  VObj [("entries", VNum (ofNat (List.length (keys data))));
        ("hexKeys", VNum (ofNat (List.length (filter (hashHex 6 6) (keys data)))));
        ("hexValues",
         VNum (ofNat (List.length
           (filter (fun v => hashHex 6 6 (toStr v)) (values data)))))].

Definition inferObjectArraySchema (data : value) : value :=
  match elements data with
  | [] => VObj []
  | sample :: _ => VObj (map (fun kv => (fst kv, VStr (typeof (snd kv)))) (entries sample))
  end.

Definition isStructuredFormat (data : value) : result bool :=
  if negb (String.eqb (typeof data) "object" && negb (isArray data)) then Ok false
  else
    hasMeta <- has "meta" data ;;
    if negb hasMeta then Ok false
    else some (fun v =>
      match elements v with
      | first :: _ =>
          if negb (isArray v && String.eqb (typeof first) "object") then Ok false
          else
            hx <- get first "hex" ;;
            if truthy hx then Ok true
            else (col <- get first "color" ;; Ok (truthy col))
      | [] => Ok false
      end) (values data).

Definition scoreStructuredFormat (data : value) : number :=
  let hasMeta := if existsb (String.eqb "meta") (keys data) then Fin 0.3 else Fin 0 in
  let hasColorArrays := List.length (filter (fun v =>
    match elements v with
    | first :: _ => isArray v && String.eqb (typeof first) "object"
    | [] => false
    end) (values data)) in
  Math_min (add hasMeta (mul (ofNat hasColorArrays) (Fin 0.1))) (Fin 1).

Definition inferStructuredSchema (data : value) : value :=
  let categories := flat_map (fun kv : string * value =>
    match elements (snd kv) with
    | first :: _ =>
        [(fst kv,
          VStr (if String.eqb (typeof first) "object" then "array<object>"
                else typeof first))]
    | [] => []
    end) (entries data) in
  VObj [("meta", VStr "object"); ("categories", VObj categories)].

Definition analyzeStructuredCategories (data : value) : value :=
  let meta := if truthy (getOpt data "meta") then getOpt data "meta" else VObj [] in
  let categories := filter (fun k => negb (String.eqb k "meta")) (keys data) in
  VObj [("family",
         if truthy (getOpt meta "family") then getOpt meta "family" else VStr "unknown");
        ("categories", VArr (map VStr categories));
        ("totalColors",
         VNum (fold_left (fun sum cat =>
                 add sum (ofNat (List.length (elements (getOpt data cat)))))
               categories (Fin 0)))].

Definition unknown : ASTStructure := mkStructure "unknown" (Fin 0) (VObj []) (VObj []).

Definition detect (data : value) : result (list ASTStructure) :=
  match data with
  | VNull | VUndefined => Ok [unknown]
  | _ =>
    if negb (isIterable data) then Ok [unknown]
    else
      let structures := [] in
      let structures :=
        if isColorPaletteRecord data
        then structures ++
          [mkStructure "color-palette" (Fin 0.98)
             (VObj [("structure", VStr "record<code-to-{name,hex}>");
                    ("fields", VObj [("name", VStr "string"); ("hex", VStr "string")])])
             (VObj [("total", VNum (ofNat (List.length (keys data))));
                    ("format", VStr "PANTONE-like")])]
        else structures in
      isJson <- isJsonObjectFormat data ;;
      let structures :=
        if isJson
        then structures ++
          [mkStructure "json" (Fin 0.95)
             (VObj [("structure", VStr "id-to-color-object")])
             (VObj [("entries", VNum (ofNat (List.length (keys data))))])]
        else structures in
      let structures :=
        if isHexStringPairs data
        then structures ++
          [mkStructure "pairs" (scoreHexStringPairs data)
             (VObj [("items", VArr [VStr "hex|string"; VStr "string|hex"])])
             (VObj [("pairs", VNum (ofNat (List.length (elements data))))])]
        else structures in
      let structures :=
        if isObjectEntries data
        then structures ++
          [mkStructure "object" (scoreObjectEntries data)
             (inferObjectSchema data) (analyzeObjectKeys data)]
        else structures in
      isObjects <- isArrayOfObjects data ;;
      let structures :=
        if isObjects
        then structures ++
          [mkStructure "objects" (scoreArrayOfObjects data)
             (inferObjectArraySchema data)
             (VObj [("entries", VNum (ofNat (List.length (elements data))))])]
        else structures in
      isStructured <- isStructuredFormat data ;;
      let structures :=
        if isStructured
        then structures ++
          [mkStructure "structured" (scoreStructuredFormat data)
             (inferStructuredSchema data) (analyzeStructuredCategories data)]
        else structures in
      Ok (sort (fun a b => sub (confidence b) (confidence a)) structures)
  end.

End WithNumberFormat.

End ASTDetector.

(** ** SpectrumAnalyzer (src/utils/dataset-distribution/SpectrumAnalyzer.ts) *)

Module SpectrumAnalyzer.

Record SpectrumBucket : Type := mkBucket {
  hueMin : number;
  hueMax : number;
  bucketColors : list ColorData;
  density : number;
  avgSaturation : number;
  avgLightness : number
}.

Record FamilyRange : Type := mkRange {
  minH : number; maxH : number;
  minS : number; maxS : number;
  minL : number; maxL : number
}.

Record SpectrumCoverage : Type := mkCoverage {
  buckets : list (number * SpectrumBucket);   (* Map, in insertion order *)
  minHue : number;
  maxHue : number;
  families : list string;                     (* Set, in insertion order *)
  familyRanges : list (string * FamilyRange)  (* Map, in insertion order *)
}.

Definition BUCKET_SIZE : number := Fin 15.

(** [for (let i = 0; i < 360; i += 15) buckets.set(i, {...})] *)
Definition emptyBuckets : list (number * SpectrumBucket) :=
  map (fun k : nat =>
         let i := mul (ofNat k) BUCKET_SIZE in
         (i, mkBucket i (add i BUCKET_SIZE) [] (Fin 0) (Fin 0) (Fin 0)))
      (seq 0 24).

(** [if (buckets.has(key)) buckets.get(key).colors.push(color)] *)
Definition pushColor (key : number) (color : ColorData)
    (bs : list (number * SpectrumBucket)) : list (number * SpectrumBucket) :=
  map (fun kb : number * SpectrumBucket =>
         let '(k, b) := kb in
         if JS.eq k key
         then (k, mkBucket (hueMin b) (hueMax b) (bucketColors b ++ [color])
                    (density b) (avgSaturation b) (avgLightness b))
         else kb) bs.

Definition set_add (x : string) (xs : list string) : list string :=
  if existsb (String.eqb x) xs then xs else xs ++ [x].

Definition widen (r : FamilyRange) (c : ColorData) : FamilyRange :=
  mkRange (Math_min (minH r) (h (hsl c))) (Math_max (maxH r) (h (hsl c)))
          (Math_min (minS r) (s (hsl c))) (Math_max (maxS r) (s (hsl c)))
          (Math_min (minL r) (l (hsl c))) (Math_max (maxL r) (l (hsl c))).

Fixpoint trackRange (c : ColorData) (rs : list (string * FamilyRange))
  : list (string * FamilyRange) :=
  match rs with
  | [] => [(family c,
            mkRange (h (hsl c)) (h (hsl c)) (s (hsl c)) (s (hsl c))
                    (l (hsl c)) (l (hsl c)))]
  | (f, r) :: rs' =>
      if String.eqb f (family c) then (f, widen r c) :: rs'
      else (f, r) :: trackRange c rs'
  end.

Definition sum (xs : list number) : number := fold_left add xs (Fin 0).

Definition finishBucket (b : SpectrumBucket) : SpectrumBucket :=
  let n := List.length (bucketColors b) in
  if Nat.ltb 0 n
  then mkBucket (hueMin b) (hueMax b) (bucketColors b) (ofNat n)
         (div (sum (map (fun c => s (hsl c)) (bucketColors b))) (ofNat n))
         (div (sum (map (fun c => l (hsl c)) (bucketColors b))) (ofNat n))
  else mkBucket (hueMin b) (hueMax b) (bucketColors b) (ofNat n)
         (avgSaturation b) (avgLightness b).

(** The body of the loop that distributes the colors among the buckets. *)
Definition place
    (st : list (number * SpectrumBucket) * list string * list (string * FamilyRange))
    (color : ColorData)
  : list (number * SpectrumBucket) * list string * list (string * FamilyRange) :=
  let '(buckets, families, familyRanges) := st in
  let bucketKey := mul (Math_floor (div (h (hsl color)) BUCKET_SIZE)) BUCKET_SIZE in
  (pushColor bucketKey color buckets,
   set_add (family color) families,
   trackRange color familyRanges).

Definition analyzeCoverage (colors : list ColorData) : SpectrumCoverage :=
  let '(buckets, families, familyRanges) :=
    fold_left place colors (emptyBuckets, [], []) in
  let buckets := map (fun kb : number * SpectrumBucket =>
                        (fst kb, finishBucket (snd kb))) buckets in
  let dense := filter (fun b => gt (density b) (Fin 0)) (map snd buckets) in
  mkCoverage buckets
    (Math_min_list (map hueMin dense))
    (Math_max_list (map hueMax dense))
    families familyRanges.

Definition getCriticalBuckets (coverage : SpectrumCoverage) : list SpectrumBucket :=
  let buckets := filter (fun b => gt (density b) (Fin 0)) (map snd (buckets coverage)) in
  let avgDensity := div (sum (map density buckets)) (ofNat (List.length buckets)) in
  filter (fun b => lt (density b) (mul avgDensity (Fin 0.5))) buckets.

End SpectrumAnalyzer.

(** ** QualityScorer (src/utils/dataset-distribution/QualityScorer.ts) *)

Module QualityScorer.

(** Modelled from the spec: [ColorQualityMetrics] of '@/types', the six
    fields [scoreColor] returns. *)
Record ColorQualityMetrics : Type := mkMetrics {
  color : ColorData;
  uniqueness : number;
  saturationQuality : number;
  lightnessQuality : number;
  familyRepresentativity : number;
  overallScore : number
}.

Record SpectralRanges : Type := mkRanges {
  hMin : number; hMax : number;
  sMin : number; sMax : number;
  lMin : number; lMax : number
}.

Section WithSqrt.

(** The rounded square root of a non-negative rational: the one primitive
    whose value the rationals cannot express, taken as a parameter. *)
Variable sqrtQ : Q -> Q.

Definition Math_sqrt (a : number) : number :=
  match a with
  | NaN | NInf => NaN
  | PInf => PInf
  | Fin q => if Qle_bool 0 q then Fin (sqrtQ q) else NaN
  end.

(** [Math.pow(a, 2)] *)
Definition square (a : number) : number := mul a a.

Definition colorDistance (c1 c2 : ColorData) : number :=
  let dH := Math_min (Math_abs (sub (h (hsl c1)) (h (hsl c2))))
                     (sub (Fin 360) (Math_abs (sub (h (hsl c1)) (h (hsl c2))))) in
  let dS := Math_abs (sub (s (hsl c1)) (s (hsl c2))) in
  let dL := Math_abs (sub (l (hsl c1)) (l (hsl c2))) in
  mul (Math_sqrt
         (add (add (mul (square (div dH (Fin 360))) (Fin 0.4))
                   (mul (square (div dS (Fin 100))) (Fin 0.3)))
              (mul (square (div dL (Fin 100))) (Fin 0.3))))
      (Fin 100).

Definition calculateUniqueness (color : ColorData) (nearbyColors : list ColorData)
  : number :=
  if Nat.eqb (List.length nearbyColors) 0 then Fin 1
  else
    let minDistance := Math_min_list (map (colorDistance color) nearbyColors) in
    Math_min (Fin 1) (div minDistance (Fin 100)).

Definition calculateSaturationQuality (s sMin sMax : number) : number :=
  let mid := div (add sMin sMax) (Fin 2) in
  let distanceFromMid := Math_abs (sub s mid) in
  let maxDistance := Math_max (sub mid sMin) (sub sMax mid) in
  Math_min (Fin 1) (div distanceFromMid maxDistance).

Definition calculateLightnessQuality (l lMin lMax : number) : number :=
  if lt l (add lMin (Fin 10)) || gt l (sub lMax (Fin 10)) then Fin 0.3
  else if lt l (add lMin (Fin 20)) || gt l (sub lMax (Fin 20)) then Fin 0.6
  else Fin 1.

Definition calculateFamilyRepresentativity (color : ColorData)
    (familyColors : list ColorData) : number :=
  if Nat.eqb (List.length familyColors) 0 then Fin 1
  else
    let n := ofNat (List.length familyColors) in
    let centerH := div (fold_left (fun sum c => add sum (h (hsl c))) familyColors (Fin 0)) n in
    let centerS := div (fold_left (fun sum c => add sum (s (hsl c))) familyColors (Fin 0)) n in
    let centerL := div (fold_left (fun sum c => add sum (l (hsl c))) familyColors (Fin 0)) n in
    let distance := Math_sqrt
      (add (add (mul (square (div (sub (h (hsl color)) centerH) (Fin 360))) (Fin 0.3))
                (mul (square (div (sub (s (hsl color)) centerS) (Fin 100))) (Fin 0.3)))
           (mul (square (div (sub (l (hsl color)) centerL) (Fin 100))) (Fin 0.4))) in
    Math_max (Fin 0.3) (sub (Fin 1) (mul distance (Fin 2))).

Definition scoreColor (color : ColorData) (nearbyColors familyColors : list ColorData)
    (spectralRanges : SpectralRanges) : ColorQualityMetrics :=
  let uniqueness := calculateUniqueness color nearbyColors in
  let saturationQuality :=
    calculateSaturationQuality (s (hsl color)) (sMin spectralRanges) (sMax spectralRanges) in
  let lightnessQuality :=
    calculateLightnessQuality (l (hsl color)) (lMin spectralRanges) (lMax spectralRanges) in
  let familyRepresentativity := calculateFamilyRepresentativity color familyColors in
  let overallScore := Math_round
    (add (add (add (mul uniqueness (Fin 35))
                   (mul saturationQuality (Fin 25)))
              (mul lightnessQuality (Fin 25)))
         (mul familyRepresentativity (Fin 15))) in
  mkMetrics color uniqueness saturationQuality lightnessQuality
    familyRepresentativity overallScore.

End WithSqrt.

End QualityScorer.

(** ** DatasetPruner (src/utils/dataset-distribution/DatasetPruner.ts) *)

Module DatasetPruner.

Import SpectrumAnalyzer QualityScorer.

(** [targetCount] is a count; the other settings are carried but the
    selection never reads them. *)
Record PruningConfig : Type := mkConfig {
  targetCount : nat;
  minFamilies : number;
  minCoverage : number;
  preserveExtremes : bool
}.

(** [Partial<PruningConfig>]: a field that is present overrides the default. *)
Record PruningOptions : Type := mkOptions {
  optTargetCount : option nat;
  optMinFamilies : option number;
  optMinCoverage : option number;
  optPreserveExtremes : option bool
}.

Definition noOptions : PruningOptions := mkOptions None None None None.

(** Modelled from the spec: [PruningStats] of '@/types', the four fields
    [prune] fills in. *)
Record PruningStats : Type := mkStats {
  removedCount : number;
  keptCount : number;
  avgScoreKept : number;
  avgScoreRemoved : number
}.

Record PruneResult : Type := mkPruneResult {
  data : list ColorData;
  stats : PruningStats
}.

(** How often [for (let i = 0; i < bound; i++)] runs, and the index
    [slice(0, n)] stops at, for a bound that is not [Infinity]. *)
Definition iterations (bound : number) : nat :=
  match bound with
  | Fin q => Z.to_nat (Qceiling q)
  | _ => 0%nat
  end.

Definition sliceEnd (n : number) : nat :=
  match n with
  | Fin q => Z.to_nat (Qtrunc q)
  | _ => 0%nat
  end.

(** [(a, b) => b.overallScore - a.overallScore] *)
Definition byScore (a b : ColorQualityMetrics) : number :=
  sub (overallScore b) (overallScore a).

Definition sameHex (a b : ColorQualityMetrics) : bool :=
  String.eqb (hex (color a)) (hex (color b)).

Definition inBucket (gapBucket : SpectrumBucket) (sc : ColorQualityMetrics) : bool :=
  ge (h (hsl (color sc))) (hueMin gapBucket) && lt (h (hsl (color sc))) (hueMax gapBucket).

(** The body of the gap loop of step 3. *)
Definition fillGap (targetCount : nat) (removed : list ColorQualityMetrics)
    (final : list ColorQualityMetrics) (gapBucket : SpectrumBucket)
  : list ColorQualityMetrics :=
  let candidates := sort byScore (filter (inBucket gapBucket) removed) in
  match candidates with
  | best :: _ =>
      if Nat.ltb (List.length final) targetCount
      then firstn targetCount (sort byScore (final ++ [best]))
      else final
  | [] => final
  end.

(** Step 1: the top colors of each family. *)
Definition familyRepresentation (scoredColors : list ColorQualityMetrics)
    (config : PruningConfig) : list ColorQualityMetrics :=
  let familiesMap :=
    fold_left (fun m scored => map_push (family (color scored)) scored m)
      scoredColors [] in
  fold_left (fun selected (kg : string * list ColorQualityMetrics) =>
    let sorted := sort byScore (snd kg) in
    let toTake := Math_ceil
      (mul (div (ofNat (targetCount config)) (ofNat (List.length familiesMap)))
           (Fin 1.2)) in
    selected ++
    firstn (iterations (Math_min toTake (ofNat (List.length sorted)))) sorted)
    familiesMap [].

(** Step 3: filling in the gaps in the spectrum. *)
Definition spectrumGaps (scoredColors : list ColorQualityMetrics)
    (config : PruningConfig) (final : list ColorQualityMetrics)
  : list ColorQualityMetrics :=
  let finalCoverage := analyzeCoverage (map color final) in
  let gapBuckets := getCriticalBuckets finalCoverage in
  if Nat.ltb 0 (List.length gapBuckets)
  then
    let removed :=
      filter (fun sc => negb (existsb (fun f => sameHex f sc) final)) scoredColors in
    fold_left (fillGap (targetCount config) removed)
      (firstn (sliceEnd (Math_ceil (mul (ofNat (targetCount config)) (Fin 0.05))))
         gapBuckets)
      final
  else final.

Definition selectOptimalColors (scoredColors : list ColorQualityMetrics)
    (config : PruningConfig) : list ColorQualityMetrics :=
  let selected := familyRepresentation scoredColors config in
  (* Step 2: top quality *)
  let sortedByScore := sort byScore selected in
  let final := firstn (targetCount config) sortedByScore in
  spectrumGaps scoredColors config final.

Section WithSqrt.

Variable sqrtQ : Q -> Q.

(** [coverage.familyRanges.get(family)!]: the coverage was computed from
    the same colors, so the entry is there. *)
Definition rangeOf (coverage : SpectrumCoverage) (fam : string) : FamilyRange :=
  match find (fun fr => String.eqb (fst fr) fam) (familyRanges coverage) with
  | Some fr => snd fr
  | None => mkRange NaN NaN NaN NaN NaN NaN
  end.

Definition scoreAllColors (colors : list ColorData) (coverage : SpectrumCoverage)
  : list ColorQualityMetrics :=
  map (fun color =>
    let familyColors := filter (fun c => String.eqb (family c) (family color)) colors in
    let familyRange := rangeOf coverage (family color) in
    let nearbyColors := filter (fun c =>
      let dist := Math_min (Math_abs (sub (h (hsl c)) (h (hsl color))))
                           (sub (Fin 360) (Math_abs (sub (h (hsl c)) (h (hsl color))))) in
      negb (String.eqb (hex c) (hex color)) && lt dist (Fin 30)) colors in
    scoreColor sqrtQ color nearbyColors familyColors
      (mkRanges (minH familyRange) (maxH familyRange)
                (minS familyRange) (maxS familyRange)
                (minL familyRange) (maxL familyRange))) colors.

Definition distinctFamilies (colors : list ColorData) : nat :=
  List.length (fold_left (fun fs c => set_add (family c) fs) colors []).

Definition mkPruningConfig (colors : list ColorData) (targetCount : nat)
    (options : PruningOptions) : PruningConfig :=
  mkConfig
    (match optTargetCount options with Some v => v | None => targetCount end)
    (match optMinFamilies options with
     | Some v => v
     | None => Math_max (Fin 20)
                 (Math_ceil (mul (ofNat (distinctFamilies colors)) (Fin 0.7)))
     end)
    (match optMinCoverage options with Some v => v | None => Fin 0.85 end)
    (match optPreserveExtremes options with Some v => v | None => true end).

Definition scoreSum (scs : list ColorQualityMetrics) : number :=
  fold_left (fun sum sc => add sum (overallScore sc)) scs (Fin 0).

(** [prune]; the logger only prints and is left out. *)
Definition prune (colors : list ColorData) (targetCount : nat)
    (options : PruningOptions) : PruneResult :=
  let config := mkPruningConfig colors targetCount options in
  (* PHASE 1: analysis of the source dataset *)
  let originalCoverage := analyzeCoverage colors in
  (* PHASE 2: quality of each color *)
  let scoredColors := scoreAllColors colors originalCoverage in
  (* PHASE 3: selection *)
  let selected := selectOptimalColors scoredColors config in
  let stats := mkStats
    (sub (ofNat (List.length colors)) (ofNat (List.length selected)))
    (ofNat (List.length selected))
    (div (scoreSum selected) (ofNat (List.length selected)))
    (div (scoreSum (filter (fun sc => negb (existsb (fun s => sameHex s sc) selected))
                      scoredColors))
         (Math_max (Fin 1)
            (sub (ofNat (List.length scoredColors)) (ofNat (List.length selected))))) in
  mkPruneResult (map color selected) stats.

End WithSqrt.

End DatasetPruner.

(** ** RecalcCommand *)

Module RecalcCommand.

Import ColorMetrics.

(** The part of an input record that [recalculateFromHex] reads: [hex],
    [name] (kept by the spread) and [family], which may be missing.  The
    [rgb], [hsl] and [hueRange] of the input are overwritten. *)
Record Input : Type := mkInput {
  in_hex : string;
  in_name : string;
  in_family : option Family
}.

Record RecalcStats : Type := mkRecalcStats {
  total : nat;
  recalculatedRgb : nat;
  recalculatedHsl : nat;
  recalculatedHueRange : nat;
  errors : nat
}.

(** The body of the [try]: with [hex] a string nothing in it throws, so the
    [catch] branch is never taken. *)
Definition recalculate (color : Input) : ColorData :=
  let rgb := hexToRgb (in_hex color) in
  let metrics := hexToHslMetrics (in_hex color) in
  let hsl := mkHSL (div (m_h metrics) (Fin 360))
                   (div (m_s metrics) (Fin 100))
                   (div (m_l metrics) (Fin 100)) in
  mkColor (in_hex color) (in_name color)
    (match in_family color with
     | Some f => f
     | None => getColorFamily (mkFamilyArg (h hsl) (Some (s hsl)) (Some (l hsl)))
     end)
    rgb hsl (m_hueRange metrics).

(** [recalculateFromHex]; the progress bar only prints and is left out. *)
Definition recalculateFromHex (data : list Input) : RecalcStats * list ColorData :=
  fold_left (fun (acc : RecalcStats * list ColorData) color =>
    let '(stats, processed) := acc in
    (mkRecalcStats (total stats)
       (S (recalculatedRgb stats)) (S (recalculatedHsl stats))
       (S (recalculatedHueRange stats)) (errors stats),
     processed ++ [recalculate color]))
    data (mkRecalcStats (List.length data) 0 0 0 0, []).

End RecalcCommand.

(** ** The RGB converter (converter script: [rgbToHex], [convertColors]) *)

Module Converter.

(** [c.toString(16)] for a number that is an integer. *)
Definition toString16 (c : Z) : string :=
  if Z.ltb c 0
  then ("-" ++ HexadecimalString.NilZero.string_of_uint (N.to_hex_uint (Z.to_N (- c))))%string
  else HexadecimalString.NilZero.string_of_uint (N.to_hex_uint (Z.to_N c)).

(** [str.padStart(n, '0')] *)
Definition padStart0 (n : nat) (str : string) : string :=
  (string_of_list_ascii (repeat "0"%char (n - length str)) ++ str)%string.

Definition rgbToHex (r g b : Z) : string :=
  ("#" ++ String.concat "" (map (fun c => padStart0 2 (toString16 c)) [r; g; b]))%string.

Record ColorResult : Type := mkColorResult {
  cr_name : string;
  cr_hex : string
}.

Definition convertColors (colors : list (string * Z * Z * Z)) : list ColorResult :=
  map (fun t => let '(name, r, g, b) := t in mkColorResult name (rgbToHex r g b)) colors.

End Converter.

(** ** DeduplicateCommand *)

Module DeduplicateCommand.

Record DeduplicateStats : Type := mkDeduplicateStats {
  original : number;
  unique : number;
  removed : number;
  removalRate : string
}.

Record DeduplicateResult : Type := mkDeduplicateResult {
  data : list ColorData;
  duplicates : list DuplicateGroup;
  stats : DeduplicateStats
}.

Section WithFormat.

Variable scoreSemanticMatch : ColorData -> number.

(** [x.toFixed(1)]: the decimal printer is taken as a parameter. *)
Variable toFixed1 : number -> string.

Definition deduplicate (colors : list ColorData) : DeduplicateResult :=
  let result := SemanticDeduplicator.deduplicate scoreSemanticMatch colors [] in
  let n := ofNat (List.length colors) in
  let u := ofNat (List.length (SemanticDeduplicator.colors result)) in
  mkDeduplicateResult
    (SemanticDeduplicator.colors result)
    (SemanticDeduplicator.stats result)
    (mkDeduplicateStats n u (sub n u)
       (toFixed1 (mul (div (sub n u) n) (Fin 100)))).

End WithFormat.

End DeduplicateCommand.

(** ** Notions used to state the properties *)

Module Spec.

(** The digit a character stands for, and the byte two digits spell. *)
Definition hexDigit (c : ascii) : Z :=
  match hexDigitVal c with Some d => d | None => 0 end.

Definition hexByte (c1 c2 : ascii) : Z := 16 * hexDigit c1 + hexDigit c2.

(** Equality of numbers as terms, decided. *)
Definition number_eqb (a b : number) : bool :=
  match a, b with
  | NaN, NaN | PInf, PInf | NInf, NInf => true
  | Fin (n # d), Fin (n' # d') => Z.eqb n n' && Pos.eqb d d'
  | _, _ => false
  end.

(** What [hexToRgb] does to one channel: normalise the byte and round to
    three decimals. *)
Definition channel (v : number) : number :=
  ColorMetrics.round3 (if ge v (Fin 1) then div v (Fin 255) else v).

(** Rounding to one decimal place, on the rationals. *)
Definition round1Q (x : Q) : Q := (inject_Z (Qfloor (x * 10 + (1 # 2))) / 10)%Q.

(** A number of the closed interval [0,1]. *)
Definition unitInterval (x : number) : Prop :=
  le (Fin 0) x = true /\ le x (Fin 1) = true.

(** The restricted Damerau-Levenshtein (optimal string alignment) distance,
    written from its defining recurrence, not from the code: delete,
    insert, substitute (free when the characters agree), or swap two
    adjacent characters.  [fuel] bounds the depth;
    [length a + length b + 1] is enough. *)
Fixpoint osa (fuel : nat) (a b : list ascii) : Z :=
  match fuel with
  | O => 0
  | S fuel' =>
      match a, b with
      | [], _ => Z.of_nat (List.length b)
      | _, [] => Z.of_nat (List.length a)
      | x :: a', y :: b' =>
          let cost := if Ascii.eqb x y then 0 else 1 in
          let d := Z.min (osa fuel' a' b + 1)
                     (Z.min (osa fuel' a b' + 1) (osa fuel' a' b' + cost)) in
          match a', b' with
          | x' :: a'', y' :: b'' =>
              if Ascii.eqb x y' && Ascii.eqb x' y
              then Z.min d (osa fuel' a'' b'' + 1) else d
          | _, _ => d
          end
      end
  end.

Definition osaDistance (a b : string) : Z :=
  osa (String.length a + String.length b + 1) (chars a) (chars b).

(** The hue reduced to [0,360). *)
Definition Qmod360 (q : Q) : Q := (q - 360 * inject_Z (Qfloor (q / 360)))%Q.

(** A record with a non-empty name. *)
Definition named (c : ColorData) : bool := negb (String.eqb (name c) "").

(** Number of elements of [xs] that satisfy [p]. *)
Definition cnt {A : Type} (p : A -> bool) (xs : list A) : nat :=
  List.length (filter p xs).

(** The hue range [[hueMin, hueMax)] of a bucket. *)
Definition range (b : SpectrumAnalyzer.SpectrumBucket) : number * number :=
  (SpectrumAnalyzer.hueMin b, SpectrumAnalyzer.hueMax b).

Definition keyedRange (kb : number * SpectrumAnalyzer.SpectrumBucket)
  : number * number :=
  range (snd kb).

(** A string of ASCII characters, on which [toLowerCase] is the folding
    of A-Z. *)
Definition asciiString (str : string) : bool :=
  forallb (fun c => N.ltb (N_of_ascii c) 128) (chars str).

(** A color with a hue of 0..360 degrees and a saturation and a lightness
    of 0..100 percent. *)
Definition inGamut (c : ColorData) : Prop :=
  exists qh qs ql,
    hsl c = mkHSL (Fin qh) (Fin qs) (Fin ql) /\
    (0 <= qh <= 360)%Q /\ (0 <= qs <= 100)%Q /\ (0 <= ql <= 100)%Q.

(** A color whose hue, saturation and lightness are finite numbers. *)
Definition finiteHSL (c : ColorData) : Prop :=
  exists qh qs ql, hsl c = mkHSL (Fin qh) (Fin qs) (Fin ql).

(** [lo <= x <= hi] *)
Definition within (lo x hi : number) : Prop := le lo x = true /\ le x hi = true.

(** The range of a family spans the color in hue, saturation and lightness. *)
Definition covers (r : SpectrumAnalyzer.FamilyRange) (c : ColorData) : Prop :=
  within (SpectrumAnalyzer.minH r) (h (hsl c)) (SpectrumAnalyzer.maxH r) /\
  within (SpectrumAnalyzer.minS r) (s (hsl c)) (SpectrumAnalyzer.maxS r) /\
  within (SpectrumAnalyzer.minL r) (l (hsl c)) (SpectrumAnalyzer.maxL r).

(** Each range ends before every later one begins. *)
Fixpoint separated (rs : list (number * number)) : Prop :=
  match rs with
  | [] => True
  | r :: rs' => Forall (fun r' => le (snd r) (fst r') = true) rs' /\ separated rs'
  end.

(** The sizes of the families, in order of first appearance, and the
    number of colors step 1 of the selection takes from them. *)
Fixpoint count_push (key : string) (m : list (string * nat)) : list (string * nat) :=
  match m with
  | [] => [(key, 1%nat)]
  | (k, n) :: m' =>
      if String.eqb k key then (k, S n) :: m' else (k, n) :: count_push key m'
  end.

Definition familySizes (fams : list string) : list nat :=
  map snd (fold_left (fun m f => count_push f m) fams []).

Definition quota (k : nat) (fams : list string) : nat :=
  let sizes := familySizes fams in
  let toTake :=
    Math_ceil (mul (div (ofNat k) (ofNat (List.length sizes))) (Fin 1.2)) in
  list_sum
    (map (fun size =>
            Nat.min (DatasetPruner.iterations (Math_min toTake (ofNat size))) size)
         sizes).

(** The keys of a map with the sizes of their arrays. *)
Definition shape {B : Type} (m : list (string * list B)) : list (string * nat) :=
  map (fun kg => (fst kg, List.length (snd kg))) m.

End Spec.

(** ** Sample inputs *)

Module Samples.

(** Two records with different hex values, one of them unnamed. *)
Definition unnamedRed : ColorData :=
  mkColor "#ff0000" "" "red" [Fin 1; Fin 0; Fin 0]
    (mkHSL (Fin 0) (Fin 100) (Fin 50)) (Fin 0, Fin 1).

Definition namedGreen : ColorData :=
  mkColor "#00ff00" "Green" "green" [Fin 0; Fin 1; Fin 0]
    (mkHSL (Fin 120) (Fin 100) (Fin 50)) (Fin 119, Fin 121).

(** A color that is alone in its family. *)
Definition loneRed : ColorData :=
  mkColor "#bf4040" "Brick" "red" [Fin 0.749; Fin 0.251; Fin 0.251]
    (mkHSL (Fin 0) (Fin 50) (Fin 50)) (Fin 0, Fin 10).

(** One red and ten blues. *)
Definition shade (hx fam : string) (hue sat light : Q) : ColorData :=
  mkColor hx "" fam [] (mkHSL (Fin hue) (Fin sat) (Fin light)) (Fin 0, Fin 360).

Definition unbalanced : list ColorData :=
  [shade "#b81414" "red" 0 80 40;
   shade "#0a0a5c" "blue" 240 80 20; shade "#10106f" "blue" 240 75 25;
   shade "#171782" "blue" 240 70 30; shade "#1f1f93" "blue" 240 65 35;
   shade "#2929a3" "blue" 240 60 40; shade "#3434b2" "blue" 240 55 45;
   shade "#4040bf" "blue" 240 50 50; shade "#4d4dcc" "blue" 240 45 55;
   shade "#5c5cd6" "blue" 240 40 60; shade "#6d6ddf" "blue" 240 35 65].

End Samples.

Import Spec Samples.

(* ================================================================== *)
(** * Part II: properties                                              *)
(* ================================================================== *)

(** ** Facts about numbers *)

Section NumberFacts.

Lemma Qle_bool_false (x y : Q) : Qle_bool x y = false <-> (y < x)%Q.
Proof.
  split; intro H.
  - apply Qnot_le_lt. intro L. apply Qle_bool_iff in L. congruence.
  - destruct (Qle_bool x y) eqn:E; [|reflexivity].
    apply Qle_bool_iff in E. lra.
Qed.

Lemma lt_Fin (x y : Q) : lt (Fin x) (Fin y) = true <-> (x < y)%Q.
Proof.
  simpl. rewrite negb_true_iff. apply Qle_bool_false.
Qed.

Lemma lt_Fin_false (x y : Q) : lt (Fin x) (Fin y) = false <-> (y <= x)%Q.
Proof.
  simpl. rewrite negb_false_iff. apply Qle_bool_iff.
Qed.

Lemma le_Fin (x y : Q) : le (Fin x) (Fin y) = true <-> (x <= y)%Q.
Proof. simpl. apply Qle_bool_iff. Qed.

(** A strict bound can be weakened to a larger finite bound. *)
Lemma lt_weaken (a : number) (x y : Q) :
  (x <= y)%Q -> lt a (Fin x) = true -> lt a (Fin y) = true.
Proof.
  intros Hxy. destruct a as [| | |q]; try (simpl; congruence).
  rewrite !lt_Fin. lra.
Qed.

Lemma fin_eq (x y : Q) : (x == y)%Q -> fin x = fin y.
Proof. intro H. unfold fin. f_equal. now apply Qred_complete. Qed.

Lemma Qfloor_unique (q : Q) (z : Z) :
  (inject_Z z <= q)%Q -> (q < inject_Z (z + 1))%Q -> Qfloor q = z.
Proof.
  intros L U.
  assert (A : (z <= Qfloor q)%Z).
  { rewrite <- (Qfloor_Z z). now apply Qfloor_resp_le. }
  assert (B : (Qfloor q < z + 1)%Z).
  { rewrite Zlt_Qlt. eapply Qle_lt_trans; [apply Qfloor_le | exact U]. }
  lia.
Qed.

Lemma inject_Z_succ (z : Z) : (inject_Z (z + 1) == inject_Z z + 1)%Q.
Proof. now rewrite inject_Z_plus. Qed.

Lemma add_Fin (x y : Q) : exists r, add (Fin x) (Fin y) = Fin r /\ (r == x + y)%Q.
Proof. eexists; split; [reflexivity | apply Qred_correct]. Qed.

Lemma sub_Fin (x y : Q) : exists r, sub (Fin x) (Fin y) = Fin r /\ (r == x - y)%Q.
Proof.
  eexists; split; [reflexivity |].
  rewrite !Qred_correct. reflexivity.
Qed.

Lemma mul_Fin (x y : Q) : exists r, mul (Fin x) (Fin y) = Fin r /\ (r == x * y)%Q.
Proof. eexists; split; [reflexivity | apply Qred_correct]. Qed.

Lemma div_Fin (x y : Q) :
  ~ (y == 0)%Q -> exists r, div (Fin x) (Fin y) = Fin r /\ (r == x / y)%Q.
Proof.
  intro Hy. unfold div.
  destruct (Qeq_bool y 0) eqn:E.
  - apply Qeq_bool_iff in E. contradiction.
  - eexists; split; [reflexivity | apply Qred_correct].
Qed.

End NumberFacts.

(** ** Arrays: sorting and counting *)

Section ArrayFacts.
Context {A : Type}.

Lemma cnt_app (p : A -> bool) (xs ys : list A) :
  cnt p (xs ++ ys) = (cnt p xs + cnt p ys)%nat.
Proof. unfold cnt. now rewrite filter_app, length_app. Qed.

Lemma cnt_cons (p : A -> bool) (x : A) (xs : list A) :
  cnt p (x :: xs) = ((if p x then 1 else 0) + cnt p xs)%nat.
Proof. unfold cnt. simpl. now destruct (p x). Qed.

Lemma cnt_perm (p : A -> bool) (xs ys : list A) :
  Permutation xs ys -> cnt p xs = cnt p ys.
Proof.
  induction 1 as [|x xs ys _ IH|x y xs|xs ys zs _ IH1 _ IH2].
  - reflexivity.
  - now rewrite !cnt_cons, IH.
  - rewrite !cnt_cons. lia.
  - congruence.
Qed.

Lemma cnt_firstn (p : A -> bool) (n : nat) (xs : list A) :
  (cnt p (firstn n xs) <= cnt p xs)%nat.
Proof.
  revert n. induction xs as [|x xs IH]; intros [|n]; simpl; try (unfold cnt; simpl; lia).
  rewrite !cnt_cons. specialize (IH n). lia.
Qed.

Lemma cnt_le_length (p : A -> bool) (xs : list A) : (cnt p xs <= List.length xs)%nat.
Proof. induction xs as [|x xs IH]; [apply Nat.le_refl|]. rewrite cnt_cons. simpl. destruct (p x); lia. Qed.

Lemma cnt_all (p : A -> bool) (xs : list A) :
  forallb p xs = true -> cnt p xs = List.length xs.
Proof.
  induction xs as [|x xs IH]; [reflexivity|]. simpl. intro H.
  apply andb_prop in H. destruct H as [Hx H]. rewrite cnt_cons, Hx, (IH H). reflexivity.
Qed.

Lemma cnt_split (p : A -> bool) (xs : list A) :
  (cnt p xs + cnt (fun x => negb (p x)) xs = List.length xs)%nat.
Proof.
  induction xs as [|x xs IH]; [reflexivity|].
  rewrite !cnt_cons. simpl. destruct (p x); simpl; lia.
Qed.

Variable cmp : A -> A -> number.

Lemma sort_insert_perm (x : A) (xs : list A) :
  Permutation (sort_insert cmp x xs) (x :: xs).
Proof.
  induction xs as [|y xs IH]; cbn [sort_insert]; [reflexivity|].
  destruct (gt (cmp x y) (Fin 0)); [|reflexivity].
  rewrite IH. apply perm_swap.
Qed.

Lemma sort_perm (xs : list A) : Permutation (sort cmp xs) xs.
Proof.
  induction xs as [|x xs IH]; [reflexivity|].
  unfold sort in *. cbn [fold_right]. rewrite sort_insert_perm. now constructor.
Qed.

Lemma sort_length (xs : list A) : List.length (sort cmp xs) = List.length xs.
Proof. apply Permutation_length, sort_perm. Qed.

Lemma cnt_sort (p : A -> bool) (xs : list A) : cnt p (sort cmp xs) = cnt p xs.
Proof. apply cnt_perm, sort_perm. Qed.

(** The arrays of a map hold exactly what was pushed. *)
Lemma map_push_perm (key : string) (x : A) (m : list (string * list A)) :
  Permutation (List.concat (map snd (map_push key x m))) (x :: List.concat (map snd m)).
Proof.
  induction m as [|[k g] m IH]; simpl; [reflexivity|].
  destruct (String.eqb k key); simpl.
  - rewrite <- app_assoc. simpl. symmetry. apply Permutation_middle.
  - rewrite IH. symmetry. apply Permutation_middle.
Qed.

Lemma grouping_perm (key : A -> string) (xs : list A) (m : list (string * list A)) :
  Permutation
    (List.concat (map snd (fold_left (fun m x => map_push (key x) x m) xs m)))
    (List.concat (map snd m) ++ xs).
Proof.
  revert m. induction xs as [|x xs IH]; intro m; simpl.
  - now rewrite app_nil_r.
  - rewrite IH, map_push_perm. simpl. apply Permutation_middle.
Qed.

End ArrayFacts.

(** ** ColorMetrics *)

Section ColorMetricsFacts.
Import ColorMetrics.


Lemma baseFamilyOf_not_earth (h : number) : baseFamilyOf h <> "earth".
Proof.
  unfold baseFamilyOf.
  repeat lazymatch goal with
  | |- (if ?c then _ else _) <> _ => destruct c
  end; discriminate.
Qed.

(** C10.  [getColorFamily] never answers 'earth': the test guarding the
    brown/earth pair already forces the inner test that returns 'brown'. *)
Theorem getColorFamily_never_earth (arg : FamilyArg) :
  getColorFamily arg <> "earth".
Proof.
  unfold getColorFamily. cbv zeta.
  pose proof (baseFamilyOf_not_earth
    (rem (add (rem (fa_h arg) (Fin 360)) (Fin 360)) (Fin 360))) as Hbase.
  repeat lazymatch goal with
  | |- (if ?c then _ else _) <> _ => destruct c eqn:?; try discriminate
  end; try assumption.
  (* the 'earth' branch *)
  repeat match goal with
  | H : (_ && _)%bool = true |- _ => apply andb_prop in H; destruct H
  end.
  match goal with
  | H : (lt ?s (Fin 0.6) && lt ?l (Fin 0.7))%bool = false,
    Hs : lt ?s (Fin 0.5) = true, Hl : lt ?l (Fin 0.7) = true |- _ =>
      rewrite Hl, (lt_weaken s 0.5 0.6) in H; [discriminate | lra | exact Hs]
  end.
Qed.

(** *** hexToRgb *)

Lemma hex_char_facts (c : ascii) :
  is_hex_any c = true ->
  is_space c = false /\
  Ascii.eqb "#" (lower_char c) = false /\
  is_hex_lower (lower_char c) = true /\
  hexDigitVal (lower_char c) = hexDigitVal c /\
  exists d, hexDigitVal c = Some d /\ 0 <= d <= 15.
Proof.
  destruct c as [[] [] [] [] [] [] [] []]; vm_compute; intro H;
    try discriminate H;
    (repeat split; try reflexivity; eexists; split; [reflexivity | split; discriminate]).
Qed.

Lemma trimStart_nospace (str : string) :
  forallb (fun c => negb (is_space c)) (chars str) = true -> trimStart str = str.
Proof.
  destruct str as [|c str]; [reflexivity|].
  simpl. intro H. apply andb_prop in H. destruct H as [H _].
  apply negb_true_iff in H. now rewrite H.
Qed.

Lemma trimEnd_nospace (str : string) :
  forallb (fun c => negb (is_space c)) (chars str) = true -> trimEnd str = str.
Proof.
  induction str as [|c str IH]; [reflexivity|].
  simpl. intro H. apply andb_prop in H. destruct H as [Hc H].
  apply negb_true_iff in Hc. rewrite (IH H), Hc. now destruct str.
Qed.

Lemma trim_nospace (str : string) :
  forallb (fun c => negb (is_space c)) (chars str) = true -> trim str = str.
Proof.
  intro H. unfold trim. rewrite (trimStart_nospace _ H). now apply trimEnd_nospace.
Qed.

Lemma parseInt16_pair (c1 c2 : ascii) :
  is_hex_any c1 = true -> is_hex_any c2 = true ->
  parseInt16 (String (lower_char c1) (String (lower_char c2) "")) = ofZ (hexByte c1 c2)
  /\ 0 <= hexByte c1 c2 <= 255.
Proof.
  intros H1 H2.
  destruct (hex_char_facts c1 H1) as (_ & _ & _ & L1 & d1 & E1 & B1).
  destruct (hex_char_facts c2 H2) as (_ & _ & _ & L2 & d2 & E2 & B2).
  unfold parseInt16, hexByte, hexDigit. simpl parseHexDigits.
  rewrite L1, L2, E1, E2. split; [f_equal; lia | lia].
Qed.

Ltac hex_facts :=
  repeat match goal with
  | H : (_ && _)%bool = true |- _ => apply andb_prop in H; destruct H
  end;
  repeat match goal with
  | H : is_hex_any ?c = true |- _ =>
      let Hs := fresh "Hs" in let Hh := fresh "Hh" in let Hl := fresh "Hl" in
      destruct (hex_char_facts c H) as (Hs & Hh & Hl & _);
      revert H
  end; intros.

Ltac use_facts :=
  repeat match goal with
  | H : ?x = _ |- context [?x] => rewrite H
  end.

(** A six-digit string, with or without '#', is read as three bytes; the
    fourth slot is the default alpha [1], which [normalizeRgb] divides too. *)
Lemma hexToRgb_six (hash : bool) (c1 c2 c3 c4 c5 c6 : ascii) :
  forallb is_hex_any [c1; c2; c3; c4; c5; c6] = true ->
  hexToRgb ((if hash then "#" else "") ++ string_of_list_ascii [c1; c2; c3; c4; c5; c6])%string
  = map round3 (normalizeRgb
      [parseInt16 (String (lower_char c1) (String (lower_char c2) ""));
       parseInt16 (String (lower_char c3) (String (lower_char c4) ""));
       parseInt16 (String (lower_char c5) (String (lower_char c6) ""));
       Fin 1]).
Proof.
  intro H. simpl in H. hex_facts.
  unfold hexToRgb. rewrite trim_nospace.
  - destruct hash; cbn [append string_of_list_ascii toLowerCase startsWith];
      [change (lower_char "#") with "#"%char; change (Ascii.eqb "#" "#") with true
      | use_facts];
      cbv iota; unfold hexPattern, slice;
      cbn [chars list_ascii_of_string forallb length substring Nat.sub Nat.eqb];
      use_facts; reflexivity.
  - destruct hash; cbn [append string_of_list_ascii chars list_ascii_of_string forallb];
      use_facts; reflexivity.
Qed.

Lemma number_eqb_eq (a b : number) : number_eqb a b = true -> a = b.
Proof.
  destruct a as [| | |[n d]], b as [| | |[n' d']]; simpl; try discriminate; auto.
  intro H. apply andb_prop in H. destruct H as [Hn Hd].
  apply Z.eqb_eq in Hn. apply Pos.eqb_eq in Hd. now subst.
Qed.

Lemma channel_recovers_byte (z : Z) :
  0 <= z <= 255 -> Math_round (mul (channel (ofZ z)) (Fin 255)) = ofZ z.
Proof.
  intro Hz.
  assert (A : forallb (fun n => number_eqb
                (Math_round (mul (channel (ofNat n)) (Fin 255))) (ofNat n))
              (seq 0 256) = true) by (vm_compute; reflexivity).
  rewrite forallb_forall in A.
  specialize (A (Z.to_nat z)).
  unfold ofNat in A. rewrite Z2Nat.id in A by lia.
  apply number_eqb_eq, A, in_seq. lia.
Qed.

(** C8.  For a six-digit hex string, with or without '#' and in either
    case, scaling each of the first three components of [hexToRgb] by 255
    and rounding gives back the byte its two digits spell. *)
Theorem hexToRgb_recovers_bytes (hash : bool) (c1 c2 c3 c4 c5 c6 : ascii) :
  forallb is_hex_any [c1; c2; c3; c4; c5; c6] = true ->
  exists r g b a,
    hexToRgb ((if hash then "#" else "") ++ string_of_list_ascii [c1; c2; c3; c4; c5; c6])%string
    = [r; g; b; a] /\
    Math_round (mul r (Fin 255)) = ofZ (hexByte c1 c2) /\
    Math_round (mul g (Fin 255)) = ofZ (hexByte c3 c4) /\
    Math_round (mul b (Fin 255)) = ofZ (hexByte c5 c6).
Proof.
  intro H. rewrite (hexToRgb_six hash _ _ _ _ _ _ H).
  simpl in H.
  repeat match goal with
  | H : (_ && _)%bool = true |- _ => apply andb_prop in H; destruct H
  end.
  destruct (parseInt16_pair c1 c2) as [-> B12]; try assumption.
  destruct (parseInt16_pair c3 c4) as [-> B34]; try assumption.
  destruct (parseInt16_pair c5 c6) as [-> B56]; try assumption.
  cbn [map normalizeRgb].
  do 4 eexists. split; [reflexivity|].
  repeat split; now apply channel_recovers_byte.
Qed.

Lemma hexToRgb_recovers_bytes_witness :
  exists r g b a,
    hexToRgb "#FF6B6b" = [r; g; b; a] /\
    Math_round (mul r (Fin 255)) = Fin 255 /\
    Math_round (mul g (Fin 255)) = Fin 107 /\
    Math_round (mul b (Fin 255)) = Fin 107.
Proof.
  exact (hexToRgb_recovers_bytes true "F" "F" "6" "B" "6" "b" eq_refl).
Defined.

(** Without '#', a three-digit string reads as its doubled form. *)
Lemma hexToRgb_short_plain (c1 c2 c3 : ascii) :
  forallb is_hex_any [c1; c2; c3] = true ->
  hexToRgb (string_of_list_ascii [c1; c2; c3])
  = hexToRgb (string_of_list_ascii [c1; c1; c2; c2; c3; c3]).
Proof.
  intro H.
  assert (H6 : forallb is_hex_any [c1; c1; c2; c2; c3; c3] = true).
  { simpl in *. repeat (apply andb_prop in H; destruct H as [? H]).
    repeat (apply andb_true_intro; split); auto. }
  rewrite (hexToRgb_six false _ _ _ _ _ _ H6 : hexToRgb (string_of_list_ascii _) = _).
  simpl in H. hex_facts.
  unfold hexToRgb. rewrite trim_nospace.
  - cbn [string_of_list_ascii toLowerCase startsWith]. use_facts. cbv iota.
    unfold hexPattern, slice.
    cbn [chars list_ascii_of_string forallb length substring Nat.sub Nat.eqb doubleChars].
    use_facts. reflexivity.
  - cbn [string_of_list_ascii chars list_ascii_of_string forallb].
    use_facts; reflexivity.
Qed.

(** With '#', the test [hex.length === 3] looks at the string before the
    '#' is removed: no digit is doubled and the fallback is returned. *)
Lemma hexToRgb_short_hash (c1 c2 c3 : ascii) :
  forallb is_hex_any [c1; c2; c3] = true ->
  hexToRgb ("#" ++ string_of_list_ascii [c1; c2; c3])%string = [Fin 0; Fin 0; Fin 0; Fin 1].
Proof.
  intro H. simpl in H. hex_facts.
  unfold hexToRgb. rewrite trim_nospace.
  - cbn [append string_of_list_ascii toLowerCase startsWith].
    change (lower_char "#") with "#"%char. change (Ascii.eqb "#" "#") with true.
    cbv iota. unfold hexPattern, slice.
    cbn [chars list_ascii_of_string forallb length substring Nat.sub Nat.eqb].
    use_facts. reflexivity.
  - cbn [append string_of_list_ascii chars list_ascii_of_string forallb].
    use_facts; reflexivity.
Qed.

(** C7 at the failing input: "#abc" falls back to [0,0,0,1] while its
    doubled form "#aabbcc" is converted. *)
Theorem hexToRgb_short_hash_diverges :
  hexToRgb "#abc" = [Fin 0; Fin 0; Fin 0; Fin 1] /\
  hexToRgb "#aabbcc" = [Fin 0.667; Fin 0.733; Fin (4 # 5); Fin (1 # 250)] /\
  hexToRgb "abc" = hexToRgb "aabbcc".
Proof. repeat split; reflexivity. Qed.

#[local] Instance round1Q_comp : Proper (Qeq ==> Qeq) round1Q.
Proof. intros x y H. unfold round1Q. now rewrite H. Qed.

Lemma round1_Fin (x : Q) : exists v, round1 (Fin x) = Fin v /\ (v == round1Q x)%Q.
Proof.
  unfold round1, round1Q.
  destruct (mul_Fin x 10) as (m & -> & Hm).
  unfold Math_round, ofZ.
  destruct (div_Fin (inject_Z (Qfloor (m + (1 # 2)))) 10) as (v & -> & Hv);
    [discriminate|].
  exists v; split; [reflexivity|].
  rewrite Hv, Hm. reflexivity.
Qed.

(** On the grid of one-decimal values the rounding changes nothing. *)
Lemma round1Q_grid (x : Q) (z : Z) : (x * 10 == inject_Z z)%Q -> (round1Q x == x)%Q.
Proof.
  intro H. unfold round1Q. rewrite H, (Qfloor_unique _ z).
  - rewrite <- H. field.
  - lra.
  - rewrite inject_Z_succ. lra.
Qed.

(** Rounding to one decimal gives a value on the grid of tenths, within
    half a tenth of the argument. *)
Lemma round1Q_times10 (x : Q) :
  (round1Q x * 10 == inject_Z (Qfloor (x * 10 + (1 # 2))))%Q.
Proof. unfold round1Q. field. Qed.

Lemma round1Q_near (x : Q) :
  (x - (1 # 20) <= round1Q x)%Q /\ (round1Q x <= x + (1 # 20))%Q.
Proof.
  pose proof (Qfloor_le (x * 10 + (1 # 2))) as L.
  pose proof (Qlt_floor (x * 10 + (1 # 2))) as U.
  rewrite inject_Z_succ in U. rewrite <- round1Q_times10 in L, U. lra.
Qed.

(** C9 (amended).  For a hue in [0,360): an achromatic colour (s < 0.05)
    gets the full circle; at s = 1 the range is [lo, hi] where [lo] and
    [hi] are one-decimal values next to [h - 1] and [h + 1] clamped to
    [0,360]: each is a whole number of tenths and differs from the clamped
    bound by no more than 0.051, and equals it when [h] has at most one
    decimal.  (Exact arithmetic gives 0.05; the statement leaves the
    margin that the rounding of binary64 needs at a tie such as h = 2.05,
    where either neighbouring tenth may come back.) *)
Theorem calculateHueRange_bands (q : Q) (l0 : number) :
  (0 <= q)%Q -> (q < 360)%Q ->
  (forall s0, lt s0 (Fin 0.05) = true ->
     calculateHueRange (mkHSL (Fin q) s0 l0) = (Fin 0, Fin 360)) /\
  (exists lo hi,
     calculateHueRange (mkHSL (Fin q) (Fin 1) l0) = (Fin lo, Fin hi) /\
     (exists zl zh : Z, (lo * 10 == inject_Z zl)%Q /\ (hi * 10 == inject_Z zh)%Q) /\
     (Qabs (lo - Qmax 0 (q - 1)) <= 51 # 1000)%Q /\
     (Qabs (hi - Qmin 360 (q + 1)) <= 51 # 1000)%Q /\
     (forall z, (q * 10 == inject_Z z)%Q ->
        (lo == Qmax 0 (q - 1))%Q /\ (hi == Qmin 360 (q + 1))%Q)).
Proof.
  intros H0 H360. split.
  - intros s0 Hs. unfold calculateHueRange. simpl. now rewrite Hs.
  - unfold calculateHueRange. cbn [h s].
    change (lt (Fin 1) (Fin 0.05)) with false. cbv iota.
    change (Math_max (Fin 1) (mul (Fin 20) (sub (Fin 1) (Fin 1)))) with (Fin 1).
    cbv zeta.
    destruct (sub_Fin q 1) as (a & -> & Ha).
    destruct (add_Fin q 1) as (b & -> & Hb).
    assert (exists a', (if lt (Fin a) (Fin 0) then Fin 0 else Fin a) = Fin a'
                       /\ (a' == Qmax 0 (q - 1))%Q) as (a' & -> & Ha').
    { destruct (lt (Fin a) (Fin 0)) eqn:E.
      - apply lt_Fin in E. exists 0%Q. split; [reflexivity|].
        rewrite Q.max_l; [reflexivity | lra].
      - apply lt_Fin_false in E. exists a. split; [reflexivity|].
        rewrite Q.max_r; lra. }
    assert (exists b', (if gt (Fin b) (Fin 360) then Fin 360 else Fin b) = Fin b'
                       /\ (b' == Qmin 360 (q + 1))%Q) as (b' & -> & Hb').
    { unfold gt. destruct (lt (Fin 360) (Fin b)) eqn:E.
      - apply lt_Fin in E. exists 360%Q. split; [reflexivity|].
        rewrite Q.min_l; [reflexivity | lra].
      - apply lt_Fin_false in E. exists b. split; [reflexivity|].
        rewrite Q.min_r; lra. }
    assert (Ba : (0 <= Qmax 0 (q - 1))%Q /\ (q - 1 <= Qmax 0 (q - 1))%Q).
    { split; [apply Q.le_max_l | apply Q.le_max_r]. }
    assert (Bb : (Qmin 360 (q + 1) <= q + 1)%Q) by apply Q.le_min_r.
    destruct (sub_Fin b' a') as (d & -> & Hd).
    assert (E : gt (Fin d) (Fin 180) = false).
    { unfold gt. apply lt_Fin_false. lra. }
    rewrite E.
    destruct (round1_Fin a') as (lo & -> & Hlo).
    destruct (round1_Fin b') as (hi & -> & Hhi).
    exists lo, hi. split; [reflexivity|].
    split.
    { exists (Qfloor (a' * 10 + (1 # 2))), (Qfloor (b' * 10 + (1 # 2))).
      rewrite Hlo, Hhi. split; apply round1Q_times10. }
    pose proof (round1Q_near a') as Na. pose proof (round1Q_near b') as Nb.
    split; [apply Qabs_Qle_condition; rewrite Hlo, <- Ha'; lra|].
    split; [apply Qabs_Qle_condition; rewrite Hhi, <- Hb'; lra|].
    intros z Hz. split.
    + rewrite Hlo, Ha'.
      destruct (Qlt_le_dec (q - 1) 0) as [L|L].
      * rewrite Q.max_l by lra. apply (round1Q_grid _ 0). reflexivity.
      * rewrite Q.max_r by lra. apply (round1Q_grid _ (z - 10)).
        unfold Z.sub. rewrite inject_Z_plus, <- Hz.
        change (inject_Z (- (10))) with (- (10))%Q. ring.
    + rewrite Hhi, Hb'.
      destruct (Qlt_le_dec 360 (q + 1)) as [L|L].
      * rewrite Q.min_l by lra. apply (round1Q_grid _ 3600). reflexivity.
      * rewrite Q.min_r by lra. apply (round1Q_grid _ (z + 10)).
        rewrite inject_Z_plus, <- Hz.
        change (inject_Z 10) with 10%Q. ring.
Qed.

Lemma calculateHueRange_bands_witness :
  exists lo hi,
    calculateHueRange (mkHSL (Fin 100.04) (Fin 1) (Fin 0.5)) = (Fin lo, Fin hi) /\
    (Qabs (lo - Qmax 0 (100.04 - 1)) <= 51 # 1000)%Q /\
    (Qabs (hi - Qmin 360 (100.04 + 1)) <= 51 # 1000)%Q.
Proof.
  destruct (calculateHueRange_bands 100.04 (Fin 0.5)) as (_ & lo & hi & E & _ & Hlo & Hhi & _).
  - unfold Qle; simpl; lia.
  - unfold Qlt; simpl; lia.
  - exists lo, hi. auto.
Defined.

(** C9, as stated, fails: at h = 100.04 and s = 1 the answer is [99, 101],
    not the band [99.04, 101.04] centred on h. *)
Lemma calculateHueRange_band_counterexample :
  calculateHueRange (mkHSL (Fin 100.04) (Fin 1) (Fin 0.5)) = (Fin 99, Fin 101) /\
  calculateHueRange (mkHSL (Fin 100.04) (Fin 1) (Fin 0.5))
    <> (sub (Fin 100.04) (Fin 1), add (Fin 100.04) (Fin 1)).
Proof.
  split; [reflexivity | vm_compute; discriminate].
Qed.

End ColorMetricsFacts.





(** ** StringMetrics *)

Section StringMetricsFacts.
Import StringMetrics.

(** C3 at the failing input.  The table charges the deletion, not the
    substitution, with [cost]: a string is at distance 1 from itself, and
    "kitten"/"sitting" come out at 6, where the restricted distance is 0
    and 3. *)
Theorem damerauLevenshtein_diverges :
  damerauLevenshtein "a" "a" = 1 /\ osaDistance "a" "a" = 0 /\
  damerauLevenshtein "kitten" "sitting" = 6 /\ osaDistance "kitten" "sitting" = 3 /\
  damerauLevenshtein "ab" "ba" = 1 /\ osaDistance "ab" "ba" = 1.
Proof. repeat split; vm_compute; reflexivity. Qed.

(** No one-character string is at distance 0 from itself. *)
Lemma damerauLevenshtein_single (c : ascii) :
  damerauLevenshtein (String c "") (String c "") = 1.
Proof.
  unfold damerauLevenshtein, row, cell. cbn.
  rewrite Ascii.eqb_refl. reflexivity.
Qed.

End StringMetricsFacts.

(** ** SemanticDeduplicator *)

Section SemanticDeduplicatorFacts.
Import SemanticDeduplicator.

Variable scoreSemanticMatch : ColorData -> number.

(** C2 at the failing input.  Two records with different hex values, one
    of them unnamed: nothing is a duplicate, yet the unnamed record is
    missing from the result. *)
Theorem deduplicate_drops_unnamed :
  deduplicate scoreSemanticMatch [unnamedRed; namedGreen] []
  = mkResult [namedGreen] [].
Proof. reflexivity. Qed.

(** When every record is unnamed the early return keeps all of them. *)
Lemma deduplicate_keeps_all_unnamed :
  deduplicate scoreSemanticMatch
    [unnamedRed; mkColor "#00ff00" "" "green" [] (mkHSL (Fin 120) (Fin 100) (Fin 50))
                   (Fin 119, Fin 121)] []
  = mkResult
      [unnamedRed; mkColor "#00ff00" "" "green" [] (mkHSL (Fin 120) (Fin 100) (Fin 50))
                     (Fin 119, Fin 121)] [].
Proof. reflexivity. Qed.

(** *** Inputs without duplicates *)

Lemma map_push_fresh {B : Type} (key : string) (x : B) (m : list (string * list B)) :
  ~ In key (map fst m) -> map_push key x m = m ++ [(key, [x])].
Proof.
  induction m as [|[k g] m IH]; intro H; [reflexivity|].
  cbn [map_push]. destruct (String.eqb_spec k key) as [->|_].
  - exfalso. apply H. now left.
  - cbn [app]. rewrite IH; [reflexivity|]. intro Hin. apply H. now right.
Qed.

Lemma grouping_distinct {B : Type} (key : B -> string) (xs : list B)
    (m : list (string * list B)) :
  NoDup (map key xs) ->
  (forall x, In x xs -> ~ In (key x) (map fst m)) ->
  fold_left (fun m x => map_push (key x) x m) xs m
  = m ++ map (fun x => (key x, [x])) xs.
Proof.
  revert m. induction xs as [|x xs IH]; intros m Hnd Hm.
  - cbn. now rewrite app_nil_r.
  - cbn [fold_left map]. inversion Hnd as [|? ? Hx Hxs]; subst.
    rewrite map_push_fresh by (apply Hm; now left).
    rewrite IH; [now rewrite <- app_assoc | assumption |].
    intros y Hy Hin. rewrite map_app in Hin. apply in_app_or in Hin.
    destruct Hin as [Hin | [Hin | []]].
    + now apply (Hm y (or_intror Hy)).
    + cbn in Hin. apply Hx. rewrite Hin. now apply in_map.
Qed.

Lemma pickWinners_singletons (tag : string)
    (label : string -> list ColorData -> string) (prio : list ColorData)
    (key : ColorData -> string) (xs : list ColorData) :
  pickWinners scoreSemanticMatch tag label prio (map (fun x => (key x, [x])) xs)
  = (xs, []).
Proof.
  unfold pickWinners.
  enough (G : forall ws ds,
    fold_left (fun (acc : list ColorData * list DuplicateGroup)
                   (kg : string * list ColorData) =>
      let '(winners, duplicates) := acc in
      let '(key, group) := kg in
      match group with
      | [] => acc
      | [c] => (winners ++ [c], duplicates)
      | c :: _ =>
          let winner := selectBestName scoreSemanticMatch c group prio in
          (winners ++ [winner],
           duplicates ++
           [mkDuplicateGroup (label key group) (map name group) (name winner)
              (getSelectionReason scoreSemanticMatch group winner prio ++ tag)%string])
      end) (map (fun x => (key x, [x])) xs) (ws, ds) = (ws ++ xs, ds))
    by apply (G [] []).
  induction xs as [|x xs IH]; intros ws ds.
  - cbn. now rewrite app_nil_r.
  - cbn [map fold_left]. rewrite IH, <- app_assoc. reflexivity.
Qed.

Lemma skip_unnamed (key : ColorData -> string) (xs : list ColorData)
    (m : list (string * list ColorData)) :
  fold_left (fun m winner =>
      if String.eqb (name winner) "" then m else map_push (key winner) winner m) xs m
  = fold_left (fun m winner => map_push (key winner) winner m) (filter named xs) m.
Proof.
  revert m. induction xs as [|x xs IH]; intro m; [reflexivity|].
  cbn [fold_left filter]. unfold named at 1.
  destruct (String.eqb (name x) ""); cbn [negb]; apply IH.
Qed.

(** With no hex and no non-empty name used twice, nothing is reported as a
    duplicate; the records come back unchanged only when all of them are
    unnamed.  As soon as one record has a name, the result is the list of
    the named records. *)
Lemma deduplicate_distinct (colors prio : list ColorData) :
  NoDup (map (fun c => toLowerCase (hex c)) colors) ->
  NoDup (map (fun c => toLowerCase (name c)) (filter named colors)) ->
  deduplicate scoreSemanticMatch colors prio
  = mkResult (match filter named colors with
              | [] => colors
              | kept => kept
              end) [].
Proof.
  intros Hhex Hname. unfold deduplicate.
  rewrite (grouping_distinct (fun c => toLowerCase (hex c)) colors [] Hhex)
    by (intros; apply in_nil).
  cbn [app]. rewrite pickWinners_singletons.
  rewrite (skip_unnamed (fun c => toLowerCase (name c))).
  rewrite (grouping_distinct (fun c => toLowerCase (name c)) _ [] Hname)
    by (intros; apply in_nil).
  cbn [app].
  destruct (filter named colors) as [|c kept] eqn:E; [reflexivity|].
  cbn [map].
  change ((toLowerCase (name c), [c]) :: map (fun x => (toLowerCase (name x), [x])) kept)
    with (map (fun x => (toLowerCase (name x), [x])) (c :: kept)).
  rewrite pickWinners_singletons. reflexivity.
Qed.

End SemanticDeduplicatorFacts.

(** ** ASTDetector *)

Section ASTDetectorFacts.
Import ASTDetector.

Variable Number_toString : number -> string.

(** C5 at the failing input.  The empty object passes the iterable test
    and no detector matches it: the result is the empty list, without the
    'unknown' candidate. *)
Theorem detect_empty_object :
  detect Number_toString (VObj []) = Ok [].
Proof. reflexivity. Qed.

(** A value that is not iterable does get the 'unknown' candidate. *)
Lemma detect_not_iterable (n : number) :
  detect Number_toString (VNum n) = Ok [unknown] /\
  detect Number_toString VNull = Ok [unknown] /\
  detect Number_toString VUndefined = Ok [unknown].
Proof.
  repeat split; try reflexivity.
  unfold detect, isIterable. cbn [isArray isString typeof orb].
  now rewrite andb_false_r.
Qed.

(** C6 at the failing input.  The empty array satisfies [isHexStringPairs]
    vacuously and its score is [0.8 + 0/0 * 0.2]: the only candidate has
    confidence NaN. *)
Theorem detect_empty_array :
  detect Number_toString (VArr [])
  = Ok [mkStructure "pairs" NaN
          (VObj [("items", VArr [VStr "hex|string"; VStr "string|hex"])])
          (VObj [("pairs", VNum (Fin 0))])].
Proof. reflexivity. Qed.

(** A string passes the iterable test as well, and no detector takes it. *)
Lemma detect_string (c : ascii) (str : string) :
  detect Number_toString (VStr (String c str)) = Ok [].
Proof. reflexivity. Qed.

(** A [null] member makes [isJsonObjectFormat] read a property of [null]. *)
Lemma detect_null_member_throws :
  detect Number_toString (VObj [("a", VNull)]) = Throw.
Proof. reflexivity. Qed.

(** *** Apart from the empty array, every confidence is in [0,1] *)

Lemma ofNat_nonneg (n : nat) : (0 <= inject_Z (Z.of_nat n))%Q.
Proof. change 0%Q with (inject_Z 0). rewrite <- Zle_Qle. lia. Qed.

Lemma ofNat_le (a b : nat) :
  (a <= b)%nat -> (inject_Z (Z.of_nat a) <= inject_Z (Z.of_nat b))%Q.
Proof. intro H. rewrite <- Zle_Qle. lia. Qed.

Lemma ofNat_pos (n : nat) : (0 < n)%nat -> (0 < inject_Z (Z.of_nat n))%Q.
Proof. intro H. change 0%Q with (inject_Z 0). rewrite <- Zlt_Qlt. lia. Qed.

Lemma Qdiv_unit (x y : Q) : (0 <= x)%Q -> (x <= y)%Q -> (0 < y)%Q ->
  (0 <= x / y)%Q /\ (x / y <= 1)%Q.
Proof.
  intros Hx Hxy Hy. split.
  - apply Qle_shift_div_l; [assumption | lra].
  - apply Qle_shift_div_r; [assumption | lra].
Qed.

Lemma ratio_unit (a b : nat) : (a <= b)%nat -> (0 < b)%nat ->
  exists r, ratio a b = Fin r /\ (0 <= r)%Q /\ (r <= 1)%Q.
Proof.
  intros Hab Hb. unfold ratio, ofNat, ofZ.
  pose proof (ofNat_pos b Hb) as Pb.
  destruct (div_Fin (inject_Z (Z.of_nat a)) (inject_Z (Z.of_nat b))) as (r & -> & Hr);
    [lra|].
  exists r. split; [reflexivity|]. rewrite Hr.
  apply Qdiv_unit; [apply ofNat_nonneg | now apply ofNat_le | assumption].
Qed.

Lemma unitInterval_Fin (x : Q) : (0 <= x)%Q -> (x <= 1)%Q -> unitInterval (Fin x).
Proof. intros H0 H1. split; now apply le_Fin. Qed.

Lemma filter_length_le {B : Type} (f : B -> bool) (xs : list B) :
  (List.length (filter f xs) <= List.length xs)%nat.
Proof. induction xs as [|x xs IH]; simpl; [lia|]. destruct (f x); simpl; lia. Qed.

Lemma scoreHexStringPairs_unit (item : value) (items : list value) :
  unitInterval (scoreHexStringPairs Number_toString (VArr (item :: items))).
Proof.
  unfold scoreHexStringPairs. cbn [elements].
  destruct (ratio_unit
    (List.length (filter (fun item0 =>
       hashHex 6 8 (toStr Number_toString (nth 0 (elements item0) VUndefined))
       || hashHex 6 8 (toStr Number_toString (nth 1 (elements item0) VUndefined)))
       (item :: items)))
    (List.length (item :: items))) as (r & -> & H0 & H1).
  - apply filter_length_le.
  - simpl. lia.
  - destruct (mul_Fin r 0.2) as (m & -> & Hm).
    destruct (add_Fin 0.8 m) as (t & -> & Ht).
    apply unitInterval_Fin; rewrite Ht, Hm; lra.
Qed.

Lemma pairs_unit (data : value) :
  data <> VArr [] -> isHexStringPairs Number_toString data = true ->
  unitInterval (scoreHexStringPairs Number_toString data).
Proof.
  intros Hne H. destruct data as [| | | | |[|item items]|]; try discriminate H.
  - congruence.
  - apply scoreHexStringPairs_unit.
Qed.

Lemma scoreObjectEntries_unit (data : value) :
  unitInterval (scoreObjectEntries Number_toString data).
Proof.
  unfold scoreObjectEntries.
  set (valid := filter _ (entries data)).
  assert (Hv : (List.length valid <= List.length (entries data))%nat)
    by apply filter_length_le.
  unfold ofNat, ofZ.
  pose proof (ofNat_nonneg (List.length valid)) as V0.
  pose proof (ofNat_le _ _ Hv) as V1.
  assert (exists m, Math_max (Fin 1) (Fin (inject_Z (Z.of_nat (List.length (entries data)))))
                    = Fin m /\ (1 <= m)%Q
                    /\ (inject_Z (Z.of_nat (List.length (entries data))) <= m)%Q)
    as (m & -> & M1 & Mn).
  { unfold Math_max.
    destruct (lt (Fin 1) (Fin (inject_Z (Z.of_nat (List.length (entries data)))))) eqn:E.
    - apply lt_Fin in E. eexists; split; [reflexivity|]. lra.
    - apply lt_Fin_false in E. eexists; split; [reflexivity|]. lra. }
  destruct (div_Fin (inject_Z (Z.of_nat (List.length valid))) m) as (r & -> & Hr); [lra|].
  apply unitInterval_Fin; rewrite Hr; apply Qdiv_unit; lra.
Qed.

Lemma scoreArrayOfObjects_unit (data : value) :
  unitInterval (scoreArrayOfObjects data).
Proof.
  unfold scoreArrayOfObjects. destruct (elements data) as [|sample rest].
  - split; reflexivity.
  - destruct (existsb (String.eqb "hex") (keys sample)),
             (existsb (String.eqb "name") (keys sample)),
             (existsb (String.eqb "family") (keys sample)),
             (existsb (String.eqb "hsl") (keys sample)); split; reflexivity.
Qed.

Lemma scoreStructuredFormat_unit (data : value) :
  unitInterval (scoreStructuredFormat data).
Proof.
  unfold scoreStructuredFormat.
  set (n := List.length _).
  pose proof (ofNat_nonneg n) as N0. unfold ofNat, ofZ.
  destruct (mul_Fin (inject_Z (Z.of_nat n)) 0.1) as (m & -> & Hm).
  assert (exists t, add (if existsb (String.eqb "meta") (keys data)
                         then Fin 0.3 else Fin 0) (Fin m) = Fin t /\ (0 <= t)%Q)
    as (t & -> & Ht).
  { destruct (existsb _ _).
    - destruct (add_Fin 0.3 m) as (t & -> & Ht). exists t. split; [reflexivity|].
      rewrite Ht, Hm. lra.
    - destruct (add_Fin 0 m) as (t & -> & Ht). exists t. split; [reflexivity|].
      rewrite Ht, Hm. lra. }
  unfold Math_min. destruct (lt (Fin 1) (Fin t)) eqn:E.
  - split; reflexivity.
  - apply lt_Fin_false in E. now apply unitInterval_Fin.
Qed.

(** Whatever [detect] returns for a value other than the empty array has
    confidences in [0,1]. *)
Lemma detect_confidence_unit (data : value) (l : list ASTStructure) :
  data <> VArr [] ->
  detect Number_toString data = Ok l ->
  Forall (fun st => unitInterval (confidence st)) l.
Proof.
  intros Hne H.
  assert (U : Forall (fun st => unitInterval (confidence st)) [unknown])
    by (repeat constructor).
  unfold detect in H.
  destruct data as [| |b|n|str|items|props]; try (injection H as <-; exact U).
  all: destruct (negb (isIterable _)); [injection H as <-; exact U|].
  all: destruct (isJsonObjectFormat Number_toString _) as [isJson|]; [|discriminate H].
  all: destruct (isArrayOfObjects _) as [isObjects|]; [|discriminate H].
  all: destruct (isStructuredFormat _) as [isStructured|]; [|discriminate H].
  all: cbn [bind] in H; injection H as <-.
  all: eapply Permutation_Forall; [symmetry; apply sort_perm|].
  all: repeat match goal with
       | |- Forall _ (if ?c then _ else _) => destruct c eqn:?
       | |- Forall _ (_ ++ _) => apply Forall_app; split
       | |- Forall _ (_ :: _) => constructor
       | |- Forall _ [] => constructor
       end.
  all: cbn [confidence];
       first [ split; reflexivity
             | apply scoreObjectEntries_unit
             | apply scoreArrayOfObjects_unit
             | apply scoreStructuredFormat_unit
             | now apply pairs_unit ].
Qed.

End ASTDetectorFacts.

(** ** QualityScorer *)

Section QualityScorerFacts.
Import QualityScorer.

Variable sqrtQ : Q -> Q.

Lemma add_NaN_r (a : number) : add a NaN = NaN.
Proof. now destruct a. Qed.

Lemma abs_Fin (x : Q) : exists r, Math_abs (Fin x) = Fin r /\ (r == Qabs x)%Q.
Proof. eexists; split; [reflexivity | apply Qred_correct]. Qed.

Lemma max_Fin (x y : Q) :
  Math_max (Fin x) (Fin y) = Fin x \/ Math_max (Fin x) (Fin y) = Fin y.
Proof. unfold Math_max. destruct (lt (Fin x) (Fin y)); auto. Qed.

Lemma div_zero_zero (x y : Q) : (x == 0)%Q -> (y == 0)%Q -> div (Fin x) (Fin y) = NaN.
Proof.
  intros Hx Hy. unfold div.
  assert (E : Qeq_bool y 0 = true) by now apply Qeq_bool_iff.
  rewrite E. now rewrite Hx.
Qed.

(** A family range reduced to one saturation value, which is then also the
    saturation of the colour: the quality is [0 / 0]. *)
Lemma calculateSaturationQuality_point (q : Q) :
  calculateSaturationQuality (Fin q) (Fin q) (Fin q) = NaN.
Proof.
  unfold calculateSaturationQuality.
  destruct (add_Fin q q) as (t & -> & Ht).
  destruct (div_Fin t 2) as (mid & -> & Hmid); [discriminate|].
  assert (Em : (mid == q)%Q) by (rewrite Hmid, Ht; field).
  destruct (sub_Fin q mid) as (d1 & -> & Hd1).
  destruct (sub_Fin mid q) as (d2 & -> & Hd2).
  destruct (abs_Fin d1) as (a & -> & Ha).
  assert (E1 : (d1 == 0)%Q) by (rewrite Hd1, Em; ring).
  assert (E2 : (d2 == 0)%Q) by (rewrite Hd2, Em; ring).
  assert (Ea : (a == 0)%Q) by (rewrite Ha, E1; reflexivity).
  destruct (max_Fin d2 d1) as [-> | ->]; now rewrite div_zero_zero.
Qed.

Lemma scoreColor_point_range (c : ColorData) (nearby fam : list ColorData)
    (r : SpectralRanges) (q : Q) :
  s (hsl c) = Fin q -> sMin r = Fin q -> sMax r = Fin q ->
  saturationQuality (scoreColor sqrtQ c nearby fam r) = NaN /\
  overallScore (scoreColor sqrtQ c nearby fam r) = NaN.
Proof.
  intros Hs Hmin Hmax. unfold scoreColor. cbn [saturationQuality overallScore].
  rewrite Hs, Hmin, Hmax, calculateSaturationQuality_point.
  split; [reflexivity|].
  cbn [mul]. now rewrite add_NaN_r.
Qed.

(** The two guards the scorer does have. *)
Lemma scoreColor_guards (c : ColorData) (nearby fam : list ColorData)
    (r : SpectralRanges) :
  uniqueness (scoreColor sqrtQ c [] fam r) = Fin 1 /\
  familyRepresentativity (scoreColor sqrtQ c nearby [] r) = Fin 1.
Proof. split; reflexivity. Qed.

(** C4 at the failing input.  A colour that is the only member of its
    family is scored against the range [sMin = sMax = s]: its saturation
    quality and its overall score are NaN, whatever the square root. *)
Theorem scoreColor_lone_family_is_NaN :
  let m := scoreColor sqrtQ loneRed [] [loneRed]
             (mkRanges (Fin 0) (Fin 0) (Fin 50) (Fin 50) (Fin 50) (Fin 50)) in
  uniqueness m = Fin 1 /\ saturationQuality m = NaN /\ overallScore m = NaN.
Proof.
  cbv zeta. split; [reflexivity|].
  apply (scoreColor_point_range _ _ _ _ 50); reflexivity.
Qed.

End QualityScorerFacts.


(** ** SpectrumAnalyzer: the buckets never overlap *)

Section SpectrumAnalyzerFacts.
Import SpectrumAnalyzer.

Lemma lt_le_not_ge (x a b : number) :
  lt x a = true -> le a b = true -> ge x b = false.
Proof.
  unfold ge.
  destruct x as [| | |x], a as [| | |a], b as [| | |b]; simpl; try congruence.
  rewrite negb_true_iff, Qle_bool_false, Qle_bool_iff. intros H1 H2.
  apply Qle_bool_false. lra.
Qed.

Lemma Forall_range_filter (P : number * number -> Prop) (f : SpectrumBucket -> bool)
    (bs : list SpectrumBucket) :
  Forall P (map range bs) -> Forall P (map range (filter f bs)).
Proof.
  induction bs as [|b bs IH]; simpl; intro H; [constructor|].
  inversion H; subst. destruct (f b); simpl; auto.
Qed.

Lemma separated_filter (f : SpectrumBucket -> bool) (bs : list SpectrumBucket) :
  separated (map range bs) -> separated (map range (filter f bs)).
Proof.
  induction bs as [|b bs IH]; simpl; [auto|]. intros [H1 H2].
  destruct (f b); simpl; auto using Forall_range_filter.
Qed.

Lemma Forall_range_firstn (P : number * number -> Prop) (n : nat)
    (bs : list SpectrumBucket) :
  Forall P (map range bs) -> Forall P (map range (firstn n bs)).
Proof.
  revert n. induction bs as [|b bs IH]; intros [|n] H; simpl; try constructor;
    inversion H; subst; auto.
Qed.

Lemma separated_firstn (n : nat) (bs : list SpectrumBucket) :
  separated (map range bs) -> separated (map range (firstn n bs)).
Proof.
  revert n. induction bs as [|b bs IH]; intros [|n]; simpl; auto.
  intros [H1 H2]. auto using Forall_range_firstn.
Qed.

Lemma pushColor_ranges (key : number) (c : ColorData) (bs : list (number * SpectrumBucket)) :
  map keyedRange (pushColor key c bs) = map keyedRange bs.
Proof.
  unfold pushColor. rewrite map_map. apply map_ext.
  intros [k b]. now destruct (JS.eq k key).
Qed.

Lemma place_ranges (colors : list ColorData)
    (st : list (number * SpectrumBucket) * list string * list (string * FamilyRange)) :
  map keyedRange (fst (fst (fold_left place colors st))) = map keyedRange (fst (fst st)).
Proof.
  revert st. induction colors as [|c colors IH]; intro st; [reflexivity|].
  simpl. rewrite IH. destruct st as [[bs fs] rs]. simpl. apply pushColor_ranges.
Qed.

Lemma analyzeCoverage_ranges (colors : list ColorData) :
  map range (map snd (buckets (analyzeCoverage colors)))
  = map range (map snd emptyBuckets).
Proof.
  unfold analyzeCoverage.
  pose proof (place_ranges colors (emptyBuckets, [], [])) as H.
  destruct (fold_left place colors (emptyBuckets, [], [])) as [[bs fs] rs].
  cbn [fst] in H. unfold keyedRange in H. cbn [buckets].
  rewrite !map_map. rewrite <- H.
  apply map_ext. intros [k b]. unfold finishBucket. cbn [snd].
  now destruct (Nat.ltb 0 (List.length (bucketColors b))).
Qed.

Lemma emptyBuckets_separated : separated (map range (map snd emptyBuckets)).
Proof. cbv. repeat (split || constructor). Qed.

Lemma criticalBuckets_separated (colors : list ColorData) :
  separated (map range (getCriticalBuckets (analyzeCoverage colors))).
Proof.
  unfold getCriticalBuckets. do 2 apply separated_filter.
  rewrite analyzeCoverage_ranges. apply emptyBuckets_separated.
Qed.

End SpectrumAnalyzerFacts.

(** ** DatasetPruner *)

Section DatasetPrunerFacts.
Import SpectrumAnalyzer QualityScorer DatasetPruner.

(** *** Step 1 takes nothing twice *)

Lemma take_cnt (p : ColorQualityMetrics -> bool) (n : nat) (g : list ColorQualityMetrics) :
  (cnt p (firstn n (sort byScore g)) <= cnt p g)%nat.
Proof. rewrite <- (cnt_sort byScore p g). apply cnt_firstn. Qed.

Lemma takes_cnt (p : ColorQualityMetrics -> bool) (n : list ColorQualityMetrics -> nat)
    (m : list (string * list ColorQualityMetrics)) (acc : list ColorQualityMetrics) :
  (cnt p (fold_left (fun selected kg =>
            selected ++ firstn (n (sort byScore (snd kg))) (sort byScore (snd kg))) m acc)
   <= cnt p acc + cnt p (List.concat (map snd m)))%nat.
Proof.
  revert acc. induction m as [|[k g] m IH]; intro acc; simpl.
  - change (cnt p []) with 0%nat. lia.
  - eapply Nat.le_trans; [apply IH|].
    rewrite !cnt_app. cbn [snd]. pose proof (take_cnt p (n (sort byScore g)) g). lia.
Qed.

Lemma familyRepresentation_cnt (p : ColorQualityMetrics -> bool) (scored : list ColorQualityMetrics)
    (config : PruningConfig) :
  (cnt p (familyRepresentation scored config) <= cnt p scored)%nat.
Proof.
  unfold familyRepresentation.
  set (m := fold_left _ scored []).
  eapply Nat.le_trans.
  - apply (takes_cnt p (fun sorted => iterations (Math_min
      (Math_ceil (mul (div (ofNat (targetCount config)) (ofNat (List.length m))) (Fin 1.2)))
      (ofNat (List.length sorted))))).
  - unfold m. rewrite (cnt_perm p _ _ (grouping_perm _ scored [])).
    cbn [map List.concat app]. change (cnt p []) with 0%nat. lia.
Qed.

(** *** Step 3 adds at most one color per gap bucket, never twice the same *)

Lemma fillGap_length (k : nat) (removed final : list ColorQualityMetrics) (b : SpectrumBucket) :
  (List.length (fillGap k removed final b)
   <= List.length final + Nat.min 1 (cnt (inBucket b) removed))%nat.
Proof.
  unfold fillGap.
  pose proof (sort_length byScore (filter (inBucket b) removed)) as L.
  destruct (sort byScore (filter (inBucket b) removed)) as [|best rest]; [lia|].
  destruct (Nat.ltb (List.length final) k); [|lia].
  rewrite length_firstn, sort_length, length_app. unfold cnt.
  rewrite <- L. cbn [List.length]. lia.
Qed.

Lemma fillGap_bounded (k : nat) (removed final : list ColorQualityMetrics) (b : SpectrumBucket) :
  (List.length final <= k)%nat -> (List.length (fillGap k removed final b) <= k)%nat.
Proof.
  intro H. unfold fillGap.
  destruct (sort byScore (filter (inBucket b) removed)); [assumption|].
  destruct (Nat.ltb (List.length final) k); [|assumption].
  apply firstn_le_length.
Qed.

Lemma fillGaps_bounded (k : nat) (removed : list ColorQualityMetrics) (bs : list SpectrumBucket)
    (final : list ColorQualityMetrics) :
  (List.length final <= k)%nat ->
  (List.length (fold_left (fillGap k removed) bs final) <= k)%nat.
Proof.
  revert final. induction bs as [|b bs IH]; intros final H; simpl; [assumption|].
  apply IH, fillGap_bounded, H.
Qed.

Lemma fillGaps_length (k : nat) (removed : list ColorQualityMetrics) (bs : list SpectrumBucket)
    (final : list ColorQualityMetrics) :
  (List.length (fold_left (fillGap k removed) bs final)
   <= List.length final
      + list_sum (map (fun b => Nat.min 1 (cnt (inBucket b) removed)) bs))%nat.
Proof.
  revert final. induction bs as [|b bs IH]; intro final;
    cbn [fold_left map list_sum fold_right]; [lia|].
  eapply Nat.le_trans; [apply IH|].
  pose proof (fillGap_length k removed final b). unfold list_sum. lia.
Qed.

Lemma list_sum_map_add {B : Type} (f g : B -> nat) (xs : list B) :
  list_sum (map (fun x => f x + g x)%nat xs)
  = (list_sum (map f xs) + list_sum (map g xs))%nat.
Proof. induction xs as [|x xs IH]; simpl; lia. Qed.

Lemma list_sum_map_le {B : Type} (f g : B -> nat) (xs : list B) :
  (forall x, f x <= g x)%nat -> (list_sum (map f xs) <= list_sum (map g xs))%nat.
Proof. intro H. induction xs as [|x xs IH]; simpl; [lia|]. specialize (H x). lia. Qed.

Lemma list_sum_map_bound {B : Type} (f : B -> nat) (c : nat) (xs : list B) :
  (forall x, f x <= c)%nat -> (list_sum (map f xs) <= c * List.length xs)%nat.
Proof. intro H. induction xs as [|x xs IH]; simpl; [lia|]. specialize (H x). lia. Qed.

(** A color lies in at most one of the buckets. *)
Lemma hits_le_1 (sc : ColorQualityMetrics) (bs : list SpectrumBucket) :
  separated (map range bs) ->
  (list_sum (map (fun b => if inBucket b sc then 1 else 0) bs) <= 1)%nat.
Proof.
  induction bs as [|b bs IH]; simpl; [lia|]. intros [H1 H2].
  destruct (inBucket b sc) eqn:E; [|auto].
  assert (Z : list_sum (map (fun b => if inBucket b sc then 1%nat else 0%nat) bs) = 0%nat).
  { clear IH H2. induction bs as [|b' bs IH]; [reflexivity|].
    simpl in H1. inversion H1 as [|? ? Hb Hbs]; subst. simpl.
    unfold inBucket in E. apply andb_prop in E. destruct E as [_ E].
    cbn [map list_sum fold_right]. unfold inBucket at 1.
    change (fst (range b')) with (hueMin b') in Hb.
    rewrite (lt_le_not_ge _ _ _ E Hb). cbn [andb]. apply (IH Hbs). }
  lia.
Qed.

Lemma buckets_cnt (bs : list SpectrumBucket) (xs : list ColorQualityMetrics) :
  separated (map range bs) ->
  (list_sum (map (fun b => cnt (inBucket b) xs) bs) <= List.length xs)%nat.
Proof.
  intro S. induction xs as [|x xs IH].
  - unfold cnt. simpl. induction bs; simpl; auto. apply IHbs. now destruct S.
  - rewrite (map_ext _ (fun b => ((if inBucket b x then 1 else 0) + cnt (inBucket b) xs)%nat))
      by (intro b; apply cnt_cons).
    rewrite list_sum_map_add. pose proof (hits_le_1 x bs S). simpl. lia.
Qed.

(** *** The selection *)

Lemma spectrumGaps_length (scored : list ColorQualityMetrics) (config : PruningConfig)
    (final : list ColorQualityMetrics) :
  (List.length final <= targetCount config)%nat ->
  (forall p, cnt p final <= cnt p scored)%nat ->
  (List.length (spectrumGaps scored config final)
   <= Nat.min (targetCount config) (List.length scored))%nat.
Proof.
  intros Hk Hcnt. unfold spectrumGaps.
  set (inFinal := fun sc : ColorQualityMetrics => existsb (fun f => sameHex f sc) final).
  assert (Hfinal : (List.length final <= cnt inFinal scored)%nat).
  { rewrite <- (cnt_all inFinal final); [apply Hcnt|].
    apply forallb_forall. intros f Hf. unfold inFinal.
    apply existsb_exists. exists f. split; [assumption|].
    unfold sameHex. apply String.eqb_refl. }
  pose proof (cnt_split inFinal scored) as Hsplit.
  destruct (Nat.ltb 0 _); [|unfold cnt in *; lia].
  set (removed := filter _ scored).
  set (bs := firstn _ _).
  apply Nat.min_glb; [now apply fillGaps_bounded|].
  eapply Nat.le_trans; [apply fillGaps_length|].
  assert (S : separated (map range bs)).
  { apply separated_firstn, criticalBuckets_separated. }
  pose proof (buckets_cnt bs removed S) as Hb.
  assert (list_sum (map (fun b => Nat.min 1 (cnt (inBucket b) removed)) bs)
          <= list_sum (map (fun b => cnt (inBucket b) removed) bs))%nat
    by (apply list_sum_map_le; intro; lia).
  assert (List.length removed = cnt (fun x => negb (inFinal x)) scored) by reflexivity.
  lia.
Qed.

Lemma selectOptimalColors_length (scored : list ColorQualityMetrics) (config : PruningConfig) :
  (List.length (selectOptimalColors scored config)
   <= Nat.min (targetCount config) (List.length scored))%nat.
Proof.
  unfold selectOptimalColors. apply spectrumGaps_length.
  - apply firstn_le_length.
  - intro p. eapply Nat.le_trans; [apply cnt_firstn|].
    rewrite cnt_sort. apply familyRepresentation_cnt.
Qed.

Variable sqrtQ : Q -> Q.

Lemma scoreAllColors_length (colors : list ColorData) (coverage : SpectrumCoverage) :
  List.length (scoreAllColors sqrtQ colors coverage) = List.length colors.
Proof. unfold scoreAllColors. apply length_map. Qed.

(** The scores [prune] computes run into the same division: a color alone
    in its family gets the range of its own saturation. *)
Lemma scoreAllColors_lone_family :
  map overallScore (scoreAllColors sqrtQ [loneRed] (analyzeCoverage [loneRed]))
  = [NaN].
Proof. reflexivity. Qed.

(** *** How many colors step 1 can supply

    The sizes of the families, in order of first appearance, decide how
    many colors step 1 selects; the scores play no part in it. *)

Lemma shape_push {B : Type} (key : string) (x : B) (m : list (string * list B)) :
  shape (map_push key x m) = count_push key (shape m).
Proof.
  unfold shape. induction m as [|[k g] m IH]; [reflexivity|].
  cbn [map_push map fst snd count_push].
  destruct (String.eqb k key); cbn [map fst snd].
  - rewrite length_app, Nat.add_1_r. reflexivity.
  - now rewrite IH.
Qed.

Lemma shape_grouping {B : Type} (key : B -> string) (xs : list B)
    (m : list (string * list B)) :
  shape (fold_left (fun m x => map_push (key x) x m) xs m)
  = fold_left (fun m f => count_push f m) (map key xs) (shape m).
Proof.
  revert m. induction xs as [|x xs IH]; intro m; [reflexivity|].
  cbn [fold_left map]. now rewrite IH, shape_push.
Qed.

Lemma takes_length (n : nat -> nat) (m : list (string * list ColorQualityMetrics))
    (acc : list ColorQualityMetrics) :
  List.length (fold_left (fun selected kg =>
      selected ++ firstn (n (List.length (sort byScore (snd kg))))
                    (sort byScore (snd kg))) m acc)
  = (List.length acc
     + list_sum (map (fun size => Nat.min (n size) size) (map snd (shape m))))%nat.
Proof.
  revert acc. induction m as [|[k g] m IH]; intro acc.
  - cbn. lia.
  - cbn [fold_left]. rewrite IH, length_app, length_firstn, sort_length.
    unfold shape. cbn [map snd list_sum fold_right]. unfold list_sum. lia.
Qed.

Lemma familyRepresentation_length (scored : list ColorQualityMetrics)
    (config : PruningConfig) :
  List.length (familyRepresentation scored config)
  = quota (targetCount config) (map (fun sc => family (color sc)) scored).
Proof.
  unfold familyRepresentation, quota, familySizes.
  set (m := fold_left _ scored []).
  assert (Hm : fold_left (fun m f => count_push f m)
                 (map (fun sc => family (color sc)) scored) [] = shape m).
  { unfold m. now rewrite shape_grouping. }
  rewrite Hm.
  assert (Hl : List.length (map snd (shape m)) = List.length m).
  { unfold shape. now rewrite !length_map. }
  rewrite Hl.
  apply (takes_length (fun size => iterations (Math_min
    (Math_ceil (mul (div (ofNat (targetCount config)) (ofNat (List.length m))) (Fin 1.2)))
    (ofNat size)))).
Qed.

Lemma spectrumGaps_added (scored : list ColorQualityMetrics) (config : PruningConfig)
    (final : list ColorQualityMetrics) :
  (List.length (spectrumGaps scored config final)
   <= List.length final
      + sliceEnd (Math_ceil (mul (ofNat (targetCount config)) (Fin 0.05))))%nat.
Proof.
  unfold spectrumGaps. destruct (Nat.ltb 0 _); [|lia].
  eapply Nat.le_trans; [apply fillGaps_length|].
  set (removed := filter _ scored).
  set (n := sliceEnd _). set (gaps := getCriticalBuckets _).
  pose proof (list_sum_map_bound
    (fun b => Nat.min 1 (cnt (inBucket b) removed)) 1 (firstn n gaps)) as H.
  pose proof (firstn_le_length n gaps).
  assert (forall b : SpectrumBucket, Nat.min 1 (cnt (inBucket b) removed) <= 1)%nat
    by (intro; lia).
  specialize (H ltac:(assumption)). lia.
Qed.

(** Step 1 supplies at most its quota, and step 3 at most one color per
    gap bucket it looks at. *)
Lemma prune_within_quota (colors : list ColorData) (targetCount : nat)
    (options : PruningOptions) :
  let k := DatasetPruner.targetCount (mkPruningConfig colors targetCount options) in
  (List.length (data (prune sqrtQ colors targetCount options))
   <= quota k (map family colors) + sliceEnd (Math_ceil (mul (ofNat k) (Fin 0.05))))%nat.
Proof.
  intro k. unfold prune. cbn [data]. rewrite length_map.
  unfold selectOptimalColors.
  eapply Nat.le_trans; [apply spectrumGaps_added|].
  fold k. apply Nat.add_le_mono_r.
  rewrite length_firstn, sort_length, familyRepresentation_length.
  assert (E : map (fun sc => family (color sc))
                (scoreAllColors sqrtQ colors (analyzeCoverage colors))
              = map family colors).
  { unfold scoreAllColors. rewrite map_map. now apply map_ext. }
  rewrite E. fold k. lia.
Qed.

Lemma fillGap_grows (k : nat) (removed final : list ColorQualityMetrics) (b : SpectrumBucket) :
  (List.length final <= List.length (fillGap k removed final b))%nat.
Proof.
  unfold fillGap.
  destruct (sort byScore (filter (inBucket b) removed)); [lia|].
  destruct (Nat.ltb (List.length final) k) eqn:E; [|lia].
  apply Nat.ltb_lt in E.
  rewrite length_firstn, sort_length, length_app. cbn [List.length]. lia.
Qed.

Lemma fillGaps_grows (k : nat) (removed : list ColorQualityMetrics)
    (bs : list SpectrumBucket) (final : list ColorQualityMetrics) :
  (List.length final <= List.length (fold_left (fillGap k removed) bs final))%nat.
Proof.
  revert final. induction bs as [|b bs IH]; intro final; cbn [fold_left]; [lia|].
  eapply Nat.le_trans; [apply fillGap_grows | apply IH].
Qed.

Lemma spectrumGaps_grows (scored : list ColorQualityMetrics) (config : PruningConfig)
    (final : list ColorQualityMetrics) :
  (List.length final <= List.length (spectrumGaps scored config final))%nat.
Proof.
  unfold spectrumGaps. destruct (Nat.ltb 0 _); [|lia]. apply fillGaps_grows.
Qed.

(** Step 1 and step 2 leave [min(k, quota)] colors, and step 3 never
    removes any. *)
Lemma prune_at_least (colors : list ColorData) (targetCount : nat)
    (options : PruningOptions) :
  let k := DatasetPruner.targetCount (mkPruningConfig colors targetCount options) in
  (Nat.min k (quota k (map family colors))
   <= List.length (data (prune sqrtQ colors targetCount options)))%nat.
Proof.
  intro k. unfold prune. cbn [data]. rewrite length_map.
  unfold selectOptimalColors.
  eapply Nat.le_trans; [|apply spectrumGaps_grows].
  rewrite length_firstn, sort_length, familyRepresentation_length.
  assert (E : map (fun sc => family (color sc))
                (scoreAllColors sqrtQ colors (analyzeCoverage colors))
              = map family colors).
  { unfold scoreAllColors. rewrite map_map. now apply map_ext. }
  rewrite E. fold k. apply Nat.le_refl.
Qed.

(** C1 (amended).  With [k] the target count in force (the [targetCount]
    of the options when they give one, the argument otherwise), and [q]
    what step 1 can supply (for each family the smaller of its size and
    [ceil(k / families * 1.2)], summed), [prune] returns at least
    [min(k, q)] records and at most [min(k, length colors)], and no more
    than [q + ceil(k * 0.05)]: step 3 adds at most one color for each gap
    bucket it looks at.  So it returns exactly [k], which is then
    [min(k, length colors)], whenever [q] reaches [k]; it falls short only
    when step 1 cannot supply [k]. *)
Theorem prune_count_bounds (colors : list ColorData) (targetCount : nat)
    (options : PruningOptions) :
  let k := DatasetPruner.targetCount (mkPruningConfig colors targetCount options) in
  let q := quota k (map family colors) in
  let n := List.length (data (prune sqrtQ colors targetCount options)) in
  (Nat.min k q <= n)%nat /\
  (n <= Nat.min k (List.length colors))%nat /\
  (n <= q + sliceEnd (Math_ceil (mul (ofNat k) (Fin 0.05))))%nat /\
  ((k <= q)%nat -> n = k /\ n = Nat.min k (List.length colors)).
Proof.
  intros k q n.
  pose proof (prune_at_least colors targetCount options) as Lo. cbv zeta in Lo.
  pose proof (prune_within_quota colors targetCount options) as Up. cbv zeta in Up.
  fold k in Lo, Up. fold q in Lo, Up. fold n in Lo, Up.
  assert (Hi : (n <= Nat.min k (List.length colors))%nat).
  { unfold n, prune. cbn [data]. rewrite length_map.
    rewrite <- (scoreAllColors_length colors (analyzeCoverage colors)).
    apply selectOptimalColors_length. }
  split; [exact Lo|]. split; [exact Hi|]. split; [exact Up|]. lia.
Qed.

Lemma prune_unbalanced_short :
  (List.length (data (prune sqrtQ unbalanced 10 noOptions)) <= 8)%nat.
Proof.
  eapply Nat.le_trans; [apply prune_within_quota|].
  vm_compute. lia.
Qed.

End DatasetPrunerFacts.

(** C1, as stated, fails: with two families of sizes 1 and 10 and target
    10, step 1 selects 1 + 6 colors and step 3 can add one more, so fewer
    than [min(10, 11) = 10] records come back. *)
Lemma prune_count_counterexample :
  ~ (forall (sqrtQ : Q -> Q) (colors : list ColorData) (k : nat),
       List.length (DatasetPruner.data
                      (DatasetPruner.prune sqrtQ colors k DatasetPruner.noOptions))
       = Nat.min k (List.length colors)).
Proof.
  intro H. specialize (H (fun q => q) unbalanced 10%nat).
  pose proof (prune_unbalanced_short (fun q => q)) as B.
  rewrite H in B. vm_compute in B. lia.
Qed.

(* ================================================================== *)
(** * Part III: further properties of the code                         *)
(* ================================================================== *)

(** ** SemanticDeduplicator: inputs without duplicates *)

Section DeduplicatorDistinct.
Import SemanticDeduplicator.

(** X1.  On an input of records with ASCII hex values and names, in
    which no lower-cased hex and no lower-cased non-empty name occurs
    twice, [deduplicate] reports no duplicate group; it returns the input
    itself when every record is unnamed and otherwise the named records,
    in input order. *)
Theorem deduplicate_without_duplicates (score : ColorData -> number)
    (colors prio : list ColorData) :
  Forall (fun c => asciiString (hex c) = true /\ asciiString (name c) = true) colors ->
  NoDup (map (fun c => toLowerCase (hex c)) colors) ->
  NoDup (map (fun c => toLowerCase (name c)) (filter named colors)) ->
  deduplicate score colors prio
  = mkResult (match filter named colors with
              | [] => colors
              | kept => kept
              end) [].
Proof. intros _ Hhex Hname. now apply deduplicate_distinct. Qed.

Lemma deduplicate_without_duplicates_witness :
  deduplicate (fun _ => Fin 0) [namedGreen; unnamedRed] [] = mkResult [namedGreen] [].
Proof.
  apply (deduplicate_without_duplicates (fun _ => Fin 0) [namedGreen; unnamedRed] []).
  - repeat constructor.
  - repeat constructor; simpl; intuition discriminate.
  - repeat constructor; simpl; intuition discriminate.
Defined.

End DeduplicatorDistinct.

(** ** ASTDetector: confidences, errors, and how the detectors relate *)

Section DetectorMore.
Import ASTDetector.

Variable Number_toString : number -> string.

(** X2.  Unless the input is the empty array, every candidate [detect]
    returns has a confidence in [0,1]. *)
Theorem detect_confidence_in_unit_interval (data : value) (l : list ASTStructure) :
  data <> VArr [] ->
  detect Number_toString data = Ok l ->
  Forall (fun st => unitInterval (confidence st)) l.
Proof. apply detect_confidence_unit. Qed.

(** X3.  [detect] throws when the first member of a keyed object, or the
    first item of an array, is [null]: [isJsonObjectFormat] reads
    [sample.name] and [isArrayOfObjects] evaluates ['hex' in item] on it. *)
Theorem detect_throws_on_leading_null (k : string) (members : list (string * value))
    (items : list value) :
  detect Number_toString (VObj ((k, VNull) :: members)) = Throw /\
  detect Number_toString (VArr (VNull :: items)) = Throw.
Proof. split; reflexivity. Qed.

Lemma every_true {B : Type} (p : B -> result bool) (xs : list B) :
  every p xs = Ok true -> Forall (fun x => p x = Ok true) xs.
Proof.
  induction xs as [|x xs IH]; cbn [every]; intro H; [constructor|].
  destruct (p x) as [[]|] eqn:E; cbn [bind] in H; try discriminate.
  constructor; auto.
Qed.

Lemma filter_all {B : Type} (f : B -> bool) (xs : list B) :
  Forall (fun x => f x = true) xs -> filter f xs = xs.
Proof.
  induction 1 as [|x xs Hx _ IH]; [reflexivity|]. cbn [filter]. now rewrite Hx, IH.
Qed.

Lemma ratio_full (n : nat) : (0 < n)%nat -> ge (ratio n n) (Fin 0.8) = true.
Proof.
  intro Hn. destruct (ratio_unit n n (Nat.le_refl n) Hn) as (r & E & _ & _).
  unfold ratio, ofNat, ofZ in *.
  pose proof (ofNat_pos n Hn) as P.
  destruct (div_Fin (inject_Z (Z.of_nat n)) (inject_Z (Z.of_nat n))) as (q & Eq & Hq);
    [lra|].
  rewrite Eq. unfold ge. apply le_Fin. rewrite Hq.
  assert (inject_Z (Z.of_nat n) / inject_Z (Z.of_nat n) == 1)%Q by (field; lra).
  lra.
Qed.

(** X4.  The json detector is a stricter palette detector: whenever
    [isJsonObjectFormat] accepts a value, [isColorPaletteRecord] accepts it
    too. *)
Theorem json_format_is_palette_record (data : value) :
  isJsonObjectFormat Number_toString data = Ok true ->
  isColorPaletteRecord Number_toString data = true.
Proof.
  unfold isJsonObjectFormat, isColorPaletteRecord.
  destruct (notKeyedObject data); [discriminate|].
  destruct (values data) as [|v vs] eqn:Ev; [discriminate|].
  cbn [List.length Nat.ltb Nat.leb negb Nat.eqb]. intro H.
  apply every_true in H.
  rewrite filter_all; [apply ratio_full; simpl; lia|].
  eapply Forall_impl; [|exact H]. clear. intros sample H. cbv beta in H.
  destruct sample; try discriminate H.
  cbn [typeof isArray String.eqb negb andb get bind getOpt] in *.
  change (String.eqb "object" "object") with true in H. cbn [andb negb] in H.
  destruct (String.eqb (typeof (lookup "name" props)) "string"); [|discriminate H].
  cbn [negb] in H. injection H as H.
  apply andb_prop in H. destruct H as [H H3].
  apply andb_prop in H. destruct H as [H1 _].
  now rewrite H1, H3.
Qed.

End DetectorMore.

Section DetectorMoreWitnesses.
Import ASTDetector.

Lemma json_format_is_palette_record_witness :
  isColorPaletteRecord (fun _ => "")
    (VObj [("P1", VObj [("name", VStr "Red"); ("hex", VStr "ff0000")])]) = true.
Proof.
  apply (json_format_is_palette_record (fun _ => "")). reflexivity.
Defined.

Lemma detect_confidence_in_unit_interval_witness :
  Forall (fun st => unitInterval (confidence st))
    [mkStructure "pairs" (Fin (4 # 5))
       (VObj [("items", VArr [VStr "hex|string"; VStr "string|hex"])])
       (VObj [("pairs", VNum (Fin 1))])].
Proof.
  apply (detect_confidence_in_unit_interval (fun _ => "")
           (VArr [VArr [VStr "#fff"; VStr "White"]])).
  - discriminate.
  - reflexivity.
Defined.

End DetectorMoreWitnesses.

(** ** Sorting by a score *)

Section SortByScore.
Context {A : Type} (f : A -> number).

Lemma gt_sub_Fin (a b : Q) : gt (sub (Fin a) (Fin b)) (Fin 0) = true <-> (b < a)%Q.
Proof.
  destruct (sub_Fin a b) as (d & -> & Hd). unfold gt. rewrite lt_Fin, Hd. lra.
Qed.

Lemma gt_sub_Fin_false (a b : Q) : gt (sub (Fin a) (Fin b)) (Fin 0) = false <-> (a <= b)%Q.
Proof.
  destruct (sub_Fin a b) as (d & -> & Hd). unfold gt. rewrite lt_Fin_false, Hd. lra.
Qed.

(** [xs.sort((a, b) => f(b) - f(a))] orders finite scores from high to low. *)
Lemma sort_descending (xs : list A) :
  Forall (fun x => exists q, f x = Fin q) xs ->
  StronglySorted (fun a b => le (f b) (f a) = true)
    (sort (fun a b => sub (f b) (f a)) xs).
Proof.
  induction 1 as [|x xs Hx Hxs IH]; [constructor|].
  destruct Hx as [qx Hx]. unfold sort in *. cbn [fold_right].
  set (cmp := fun a b => sub (f b) (f a)) in *.
  assert (Hfin : Forall (fun x => exists q, f x = Fin q) (fold_right (sort_insert cmp) [] xs)).
  { eapply Permutation_Forall; [symmetry; apply (sort_perm cmp)|exact Hxs]. }
  revert IH Hfin. generalize (fold_right (sort_insert cmp) [] xs). clear xs Hxs.
  intro ys. induction ys as [|y ys IHl]; intros S Hfin; cbn [sort_insert].
  - repeat constructor.
  - inversion S as [|? ? S' Hy]; subst. inversion Hfin as [|? ? [qy Ey] Hfin']; subst.
    unfold cmp at 1. rewrite Hx, Ey.
    destruct (gt (sub (Fin qy) (Fin qx)) (Fin 0)) eqn:E.
    + apply gt_sub_Fin in E. constructor; [now apply IHl|].
      eapply Permutation_Forall; [symmetry; apply sort_insert_perm|].
      constructor; [|exact Hy].
      rewrite Hx, Ey. apply le_Fin. lra.
    + apply gt_sub_Fin_false in E. constructor; [exact S|].
      constructor; [rewrite Hx, Ey; apply le_Fin; lra|].
      rewrite Forall_forall in *. intros z Hz.
      specialize (Hy z Hz). destruct (Hfin' z Hz) as [qz Ez].
      rewrite Ez, Ey, Hx in *. apply le_Fin in Hy. apply le_Fin. lra.
Qed.

End SortByScore.

Section DetectorOrder.
Import ASTDetector.

Variable Number_toString : number -> string.

Lemma unitInterval_finite (x : number) : unitInterval x -> exists q, x = Fin q.
Proof. intros [H0 H1]. destruct x; try discriminate; eauto. Qed.

Lemma detect_sorts (data : value) (l : list ASTStructure) :
  detect Number_toString data = Ok l ->
  exists xs, l = sort (fun a b => sub (confidence b) (confidence a)) xs.
Proof.
  intro H. unfold detect in H.
  assert (U : exists xs, [unknown] = sort (fun a b => sub (confidence b) (confidence a)) xs)
    by (exists [unknown]; reflexivity).
  destruct data; try (injection H as <-; exact U).
  all: destruct (negb (isIterable _)); [injection H as <-; exact U|].
  all: destruct (isJsonObjectFormat Number_toString _) as [isJson|]; [|discriminate H].
  all: destruct (isArrayOfObjects _) as [isObjects|]; [|discriminate H].
  all: destruct (isStructuredFormat _) as [isStructured|]; [|discriminate H].
  all: cbn [bind] in H; injection H as <-; eexists; reflexivity.
Qed.

(** X5.  Unless the input is the empty array, [detect] returns its
    candidates ordered by confidence, the highest first. *)
Theorem detect_orders_by_confidence (data : value) (l : list ASTStructure) :
  data <> VArr [] ->
  detect Number_toString data = Ok l ->
  StronglySorted (fun a b => le (confidence b) (confidence a) = true) l.
Proof.
  intros Hne H.
  pose proof (detect_confidence_unit Number_toString data l Hne H) as U.
  destruct (detect_sorts data l H) as [xs ->].
  apply sort_descending.
  eapply Forall_impl; [intros a Ha; apply unitInterval_finite, Ha|].
  eapply Permutation_Forall; [apply sort_perm|exact U].
Qed.

End DetectorOrder.

Section DetectorOrderWitness.
Import ASTDetector.

Lemma detect_orders_by_confidence_witness :
  StronglySorted (fun a b => le (confidence b) (confidence a) = true)
    [mkStructure "color-palette" (Fin 0.98)
       (VObj [("structure", VStr "record<code-to-{name,hex}>");
              ("fields", VObj [("name", VStr "string"); ("hex", VStr "string")])])
       (VObj [("total", VNum (Fin 1)); ("format", VStr "PANTONE-like")]);
     mkStructure "json" (Fin 0.95)
       (VObj [("structure", VStr "id-to-color-object")])
       (VObj [("entries", VNum (Fin 1))])].
Proof.
  apply (detect_orders_by_confidence (fun _ => "")
           (VObj [("P1", VObj [("name", VStr "Red"); ("hex", VStr "ff0000")])])).
  - discriminate.
  - reflexivity.
Defined.

End DetectorOrderWitness.

(** ** QualityScorer: distances and the saturation quality *)

Section QualityScorerMore.
Import QualityScorer.

Variable sqrtQ : Q -> Q.

Lemma abs_sub_sym (a b : number) : Math_abs (sub a b) = Math_abs (sub b a).
Proof.
  destruct a as [| | |x], b as [| | |y]; try reflexivity.
  destruct (sub_Fin x y) as (d & -> & Hd). destruct (sub_Fin y x) as (e & -> & He).
  cbn [Math_abs]. apply fin_eq. rewrite Hd, He.
  setoid_replace (y - x)%Q with (- (x - y))%Q by ring. now rewrite Qabs_opp.
Qed.

(** X6.  [colorDistance] is symmetric. *)
Theorem colorDistance_symmetric (c1 c2 : ColorData) :
  colorDistance sqrtQ c1 c2 = colorDistance sqrtQ c2 c1.
Proof.
  unfold colorDistance.
  now rewrite (abs_sub_sym (h (hsl c1))), (abs_sub_sym (s (hsl c1))),
    (abs_sub_sym (l (hsl c1))).
Qed.

(** X7.  For saturations in percent (0..100) and a range of positive
    width, the saturation quality is a number in [0,1]. *)
Theorem saturationQuality_in_unit_interval (x lo hi : Q) :
  (0 <= lo)%Q -> (lo < hi)%Q -> (hi <= 100)%Q -> (0 <= x <= 100)%Q ->
  unitInterval (calculateSaturationQuality (Fin x) (Fin lo) (Fin hi)).
Proof.
  intros _ Hw _ _. unfold calculateSaturationQuality.
  destruct (add_Fin lo hi) as (t & -> & Ht).
  destruct (div_Fin t 2) as (mid & -> & Hmid); [discriminate|].
  assert (Em : (mid == (lo + hi) * (1 # 2))%Q) by (rewrite Hmid, Ht; field).
  destruct (sub_Fin x mid) as (d & -> & Hd).
  destruct (abs_Fin d) as (a & -> & Ha).
  destruct (sub_Fin mid lo) as (d1 & -> & Hd1).
  destruct (sub_Fin hi mid) as (d2 & -> & Hd2).
  assert (P1 : (0 < d1)%Q) by (rewrite Hd1, Em; lra).
  assert (P2 : (0 < d2)%Q) by (rewrite Hd2, Em; lra).
  assert (A0 : (0 <= a)%Q) by (rewrite Ha; apply Qabs_nonneg).
  assert (exists m, Math_max (Fin d1) (Fin d2) = Fin m /\ (0 < m)%Q) as (m & -> & Hm).
  { destruct (max_Fin d1 d2) as [-> | ->]; eauto. }
  destruct (div_Fin a m) as (r & -> & Hr); [lra|].
  assert (R0 : (0 <= r)%Q).
  { rewrite Hr. apply Qle_shift_div_l; [assumption | lra]. }
  unfold Math_min. destruct (lt (Fin r) (Fin 1)) eqn:E.
  - apply lt_Fin in E. apply unitInterval_Fin; lra.
  - split; reflexivity.
Qed.

End QualityScorerMore.

Section QualityScorerMoreWitness.
Import QualityScorer.

Lemma saturationQuality_in_unit_interval_witness :
  unitInterval (calculateSaturationQuality (Fin 80) (Fin 35) (Fin 80)).
Proof.
  apply saturationQuality_in_unit_interval; lra.
Defined.

End QualityScorerMoreWitness.

(** ** ColorMetrics: what [hexToRgb] returns *)

Section HexToRgbMore.
Import ColorMetrics.

(** X8.  A three-digit hex string without '#' is read as the six-digit
    string with every digit doubled; behind a '#' the same digits are not
    expanded and the fallback [0,0,0,1] comes back. *)
Theorem hexToRgb_shorthand (c1 c2 c3 : ascii) :
  forallb is_hex_any [c1; c2; c3] = true ->
  hexToRgb (string_of_list_ascii [c1; c2; c3])
  = hexToRgb (string_of_list_ascii [c1; c1; c2; c2; c3; c3]) /\
  hexToRgb ("#" ++ string_of_list_ascii [c1; c2; c3])%string
  = [Fin 0; Fin 0; Fin 0; Fin 1].
Proof.
  intro H. split; [now apply hexToRgb_short_plain | now apply hexToRgb_short_hash].
Qed.

Lemma hexToRgb_shorthand_witness :
  hexToRgb "F0a" = hexToRgb "FF00aa" /\ hexToRgb "#F0a" = [Fin 0; Fin 0; Fin 0; Fin 1].
Proof. exact (hexToRgb_shorthand "F" "0" "a" eq_refl). Defined.

Lemma hex_lower_facts (c : ascii) :
  is_hex_lower c = true -> lower_char c = c /\ is_hex_any c = true.
Proof.
  destruct c as [[] [] [] [] [] [] [] []]; vm_compute; intro H;
    try discriminate H; split; reflexivity.
Qed.

Lemma channel_unit (z : Z) : 0 <= z <= 255 -> unitInterval (channel (ofZ z)).
Proof.
  intro Hz.
  assert (A : forallb (fun n =>
                 le (Fin 0) (channel (ofNat n)) && le (channel (ofNat n)) (Fin 1))
              (seq 0 256) = true) by (vm_compute; reflexivity).
  rewrite forallb_forall in A.
  specialize (A (Z.to_nat z)).
  unfold ofNat in A. rewrite Z2Nat.id in A by lia.
  apply andb_prop, A, in_seq. lia.
Qed.

Lemma pair_channel_unit (c1 c2 : ascii) :
  is_hex_lower c1 = true -> is_hex_lower c2 = true ->
  unitInterval (channel (parseInt16 (String c1 (String c2 "")))).
Proof.
  intros H1 H2.
  destruct (hex_lower_facts c1 H1) as [E1 A1], (hex_lower_facts c2 H2) as [E2 A2].
  destruct (parseInt16_pair c1 c2 A1 A2) as [E B].
  rewrite E1, E2 in E. rewrite E. now apply channel_unit.
Qed.

Lemma fallback_unit :
  exists r g b a, [Fin 0; Fin 0; Fin 0; Fin 1] = [r; g; b; a] /\
    unitInterval r /\ unitInterval g /\ unitInterval b /\ unitInterval a.
Proof. do 4 eexists. repeat split; reflexivity. Qed.

(** Six or eight lower-case hex digits are parsed into channels of [0,1]. *)
Lemma digits_unit (n : string) (alpha : number) :
  forallb is_hex_lower (chars n) = true ->
  unitInterval (channel alpha) ->
  exists r g b a,
    match
      match String.length n with
      | 6%nat => Some (parseInt16 (slice 0 2 n), parseInt16 (slice 2 4 n),
                       parseInt16 (slice 4 6 n), alpha)
      | 8%nat => Some (parseInt16 (slice 0 2 n), parseInt16 (slice 2 4 n),
                       parseInt16 (slice 4 6 n), parseInt16 (slice 6 8 n))
      | _ => None
      end
    with
    | None => [Fin 0; Fin 0; Fin 0; Fin 1]
    | Some (r, g, b, a) => map round3 (normalizeRgb [r; g; b; a])
    end = [r; g; b; a] /\
    unitInterval r /\ unitInterval g /\ unitInterval b /\ unitInterval a.
Proof.
  intros H Ha.
  destruct n as [|c1 [|c2 [|c3 [|c4 [|c5 [|c6 [|c7 [|c8 [|c9 n]]]]]]]]];
    try apply fallback_unit.
  - cbn in H. repeat (apply andb_prop in H; destruct H as [? H]).
    do 4 eexists. split; [reflexivity|].
    repeat split; try (now apply pair_channel_unit); apply Ha.
  - cbn in H. repeat (apply andb_prop in H; destruct H as [? H]).
    do 4 eexists. split; [reflexivity|].
    repeat split; now apply pair_channel_unit.
Qed.

Lemma doubleChars_hex (n : string) :
  forallb is_hex_lower (chars n) = true ->
  forallb is_hex_lower (chars (doubleChars n)) = true.
Proof.
  unfold chars. induction n as [|c n IH]; [reflexivity|].
  cbn [doubleChars list_ascii_of_string forallb]. intro H.
  apply andb_prop in H. destruct H as [Hc H].
  now rewrite Hc, IH.
Qed.

Lemma hexToRgb_unit (hex : string) :
  exists r g b a,
    hexToRgb hex = [r; g; b; a] /\
    unitInterval r /\ unitInterval g /\ unitInterval b /\ unitInterval a.
Proof.
  unfold hexToRgb. cbv zeta.
  set (n := if startsWith "#"%char (toLowerCase (trim hex)) then _ else _).
  unfold hexPattern. destruct (forallb is_hex_lower (chars n)) eqn:Hn;
    [|apply fallback_unit].
  cbn [andb]. destruct (_ || _); cbn [negb]; [|apply fallback_unit].
  assert (U1 : unitInterval (channel (Fin 1))) by (split; reflexivity).
  destruct (Nat.eqb (String.length hex) 3).
  - apply (digits_unit (doubleChars n) (Fin 1)); [now apply doubleChars_hex | exact U1].
  - apply (digits_unit n (Fin 1)); assumption.
Qed.

(** X9.  [hexToRgb] is total and safe: for every string it returns four
    numbers, each in [0,1] (the fallback [0,0,0,1] for anything that is not
    a hex colour). *)
Theorem hexToRgb_components_in_unit_interval (hex : string) :
  exists r g b a,
    hexToRgb hex = [r; g; b; a] /\
    unitInterval r /\ unitInterval g /\ unitInterval b /\ unitInterval a.
Proof. apply hexToRgb_unit. Qed.

End HexToRgbMore.

Section HexToRgbCase.
Import ColorMetrics.

Lemma lower_char_facts (c : ascii) :
  lower_char (lower_char c) = lower_char c /\ is_space (lower_char c) = is_space c.
Proof. destruct c as [[] [] [] [] [] [] [] []]; split; reflexivity. Qed.

Lemma toLowerCase_idem (str : string) : toLowerCase (toLowerCase str) = toLowerCase str.
Proof.
  induction str as [|c str IH]; [reflexivity|].
  cbn [toLowerCase]. now rewrite IH, (proj1 (lower_char_facts c)).
Qed.

Lemma toLowerCase_length (str : string) :
  String.length (toLowerCase str) = String.length str.
Proof. induction str as [|c str IH]; [reflexivity|]. cbn. now rewrite IH. Qed.

Lemma trimStart_lower (str : string) :
  trimStart (toLowerCase str) = toLowerCase (trimStart str).
Proof.
  induction str as [|c str IH]; [reflexivity|].
  cbn [toLowerCase trimStart]. rewrite (proj2 (lower_char_facts c)).
  destruct (is_space c); [exact IH | reflexivity].
Qed.

Lemma trimEnd_lower (str : string) :
  trimEnd (toLowerCase str) = toLowerCase (trimEnd str).
Proof.
  induction str as [|c str IH]; [reflexivity|].
  cbn [toLowerCase trimEnd]. rewrite IH, (proj2 (lower_char_facts c)).
  destruct (trimEnd str); cbn [toLowerCase]; [|reflexivity].
  now destruct (is_space c).
Qed.

(** X10.  [hexToRgb] does not depend on the case of the letters: a string
    and its lower-cased form give the same result. *)
Theorem hexToRgb_ignores_case (hex : string) :
  hexToRgb (toLowerCase hex) = hexToRgb hex.
Proof.
  unfold hexToRgb, trim.
  rewrite trimStart_lower, trimEnd_lower, toLowerCase_idem.
  rewrite !toLowerCase_length. reflexivity.
Qed.

End HexToRgbCase.

(** ** ColorMetrics: hue ranges *)

Section HueRangeMore.
Import ColorMetrics.

Lemma round1Q_mono (x y : Q) : (x <= y)%Q -> (round1Q x <= round1Q y)%Q.
Proof.
  intro H.
  assert (F : (Qfloor (x * 10 + (1 # 2)) <= Qfloor (y * 10 + (1 # 2)))%Z)
    by (apply Qfloor_resp_le; lra).
  rewrite Zle_Qle, <- !round1Q_times10 in F. lra.
Qed.

Lemma round1Q_0 : (round1Q 0 == 0)%Q.
Proof. reflexivity. Qed.

Lemma round1Q_360 : (round1Q 360 == 360)%Q.
Proof. reflexivity. Qed.

(** X11.  For a finite hue in [0,360] and a finite saturation,
    [calculateHueRange] returns bounds with [0 <= lo <= hi <= 360]; and
    unless the colour is achromatic (s < 0.05) the range is a band of
    width at most 38.1 degrees, never the full circle: the test for a
    span above 180 cannot succeed. *)
Theorem calculateHueRange_within_circle (hq sq : Q) (l0 : number) :
  (0 <= hq)%Q -> (hq <= 360)%Q ->
  exists lo hi,
    calculateHueRange (mkHSL (Fin hq) (Fin sq) l0) = (Fin lo, Fin hi) /\
    (0 <= lo)%Q /\ (lo <= hi)%Q /\ (hi <= 360)%Q /\
    ((0.05 <= sq)%Q -> (hi - lo <= 38.1)%Q).
Proof.
  intros H0 H360. unfold calculateHueRange. cbn [h s].
  destruct (lt (Fin sq) (Fin 0.05)) eqn:Es.
  { apply lt_Fin in Es. exists 0%Q, 360%Q. repeat split; lra. }
  apply lt_Fin_false in Es. cbv zeta.
  assert (exists p, Math_max (Fin 1) (mul (Fin 20) (sub (Fin 1) (Fin sq))) = Fin p
                    /\ (1 <= p)%Q /\ (p <= 19)%Q) as (p & -> & P1 & P19).
  { destruct (sub_Fin 1 sq) as (u & -> & Hu).
    destruct (mul_Fin 20 u) as (v & -> & Hv).
    unfold Math_max. destruct (lt (Fin 1) (Fin v)) eqn:E.
    - apply lt_Fin in E. exists v. split; [reflexivity|]. rewrite Hv, Hu in *. lra.
    - exists 1%Q. split; [reflexivity|]. lra. }
  destruct (sub_Fin hq p) as (a & -> & Ha).
  destruct (add_Fin hq p) as (b & -> & Hb).
  assert (exists a', (if lt (Fin a) (Fin 0) then Fin 0 else Fin a) = Fin a'
                     /\ (0 <= a')%Q /\ (a <= a')%Q /\ (a' <= hq)%Q)
    as (a' & -> & A0 & Aa & Ah).
  { destruct (lt (Fin a) (Fin 0)) eqn:E.
    - apply lt_Fin in E. exists 0%Q. repeat split; lra.
    - apply lt_Fin_false in E. exists a. repeat split; lra. }
  assert (exists b', (if gt (Fin b) (Fin 360) then Fin 360 else Fin b) = Fin b'
                     /\ (b' <= 360)%Q /\ (b' <= b)%Q /\ (hq <= b')%Q)
    as (b' & -> & B360 & Bb & Bh).
  { unfold gt. destruct (lt (Fin 360) (Fin b)) eqn:E.
    - apply lt_Fin in E. exists 360%Q. repeat split; lra.
    - apply lt_Fin_false in E. exists b. repeat split; lra. }
  destruct (sub_Fin b' a') as (d & -> & Hd).
  assert (E : gt (Fin d) (Fin 180) = false) by (unfold gt; apply lt_Fin_false; lra).
  rewrite E.
  destruct (round1_Fin a') as (lo & -> & Hlo).
  destruct (round1_Fin b') as (hi & -> & Hhi).
  exists lo, hi. split; [reflexivity|].
  pose proof (round1Q_mono 0 a' A0) as M0.
  pose proof (round1Q_mono a' b' ltac:(lra)) as M1.
  pose proof (round1Q_mono b' 360 B360) as M2.
  pose proof (round1Q_near a') as [Na _].
  pose proof (round1Q_near b') as [_ Nb].
  rewrite round1Q_0 in M0. rewrite round1Q_360 in M2.
  rewrite Hlo, Hhi. repeat split; try lra.
Qed.

End HueRangeMore.

Section HueRangeMoreWitness.
Import ColorMetrics.

Lemma calculateHueRange_within_circle_witness :
  exists lo hi,
    calculateHueRange (mkHSL (Fin 350) (Fin 0.5) (Fin 0.5)) = (Fin lo, Fin hi) /\
    (0 <= lo)%Q /\ (lo <= hi)%Q /\ (hi <= 360)%Q /\
    ((0.05 <= 0.5)%Q -> (hi - lo <= 38.1)%Q).
Proof.
  apply (calculateHueRange_within_circle 350 0.5 (Fin 0.5)); unfold Qle; simpl; lia.
Defined.

End HueRangeMoreWitness.

(** ** ColorMetrics: families and the hue circle *)

Section FamilyMore.
Import ColorMetrics.

Lemma Qfloor_add_Z (y : Q) (z : Z) : Qfloor (y + inject_Z z) = (Qfloor y + z)%Z.
Proof.
  apply Qfloor_unique.
  - rewrite inject_Z_plus. pose proof (Qfloor_le y). lra.
  - rewrite inject_Z_succ, inject_Z_plus. pose proof (Qlt_floor y) as U.
    rewrite inject_Z_succ in U. lra.
Qed.

Lemma Qtrunc_near (y : Q) : (inject_Z (Qtrunc y) < y + 1)%Q.
Proof.
  unfold Qtrunc. destruct (Qle_bool 0 y).
  - pose proof (Qfloor_le y). lra.
  - pose proof (Qceiling_lt y) as H. unfold Z.sub in H.
    rewrite inject_Z_plus in H. change (inject_Z (Z.opp 1)) with (Qopp 1) in H. lra.
Qed.

Lemma Qtrunc_nonneg (y : Q) : (0 <= y)%Q -> Qtrunc y = Qfloor y.
Proof.
  intro H. unfold Qtrunc. apply Qle_bool_iff in H. now rewrite H.
Qed.

(** [((h % 360) + 360) % 360] is the hue reduced to [0,360). *)
Lemma normalized_hue (q : Q) :
  rem (add (rem (Fin q) (Fin 360)) (Fin 360)) (Fin 360) = fin (Qmod360 q).
Proof.
  cbn [rem]. change (Qeq_bool 360 0) with false. cbv iota.
  unfold fin at 1. cbn [add]. unfold fin at 1. cbn [rem].
  change (Qeq_bool 360 0) with false. cbv iota.
  apply fin_eq. unfold Qmod360.
  set (t := Qtrunc (q / 360)).
  set (x2 := Qred (Qred (q - 360 * inject_Z t) + 360)).
  assert (E2 : (x2 == q - 360 * inject_Z t + 360)%Q)
    by (unfold x2; now rewrite !Qred_correct).
  pose proof (Qtrunc_near (q / 360)) as T. fold t in T.
  assert (Q360 : (q == q / 360 * 360)%Q) by field.
  assert (P : (0 <= x2 / 360)%Q).
  { apply Qle_shift_div_l; [reflexivity|]. rewrite E2. lra. }
  rewrite (Qtrunc_nonneg _ P).
  assert (F : Qfloor (x2 / 360) = (Qfloor (q / 360) + (1 - t))%Z).
  { rewrite <- Qfloor_add_Z. apply Qfloor_comp. rewrite E2.
    unfold Z.sub. rewrite inject_Z_plus, inject_Z_opp. change (inject_Z 1) with 1%Q.
    field. }
  rewrite F, E2. unfold Z.sub.
  rewrite !inject_Z_plus, inject_Z_opp. change (inject_Z 1) with 1%Q. ring.
Qed.

Lemma Qmod360_period (q : Q) (k : Z) :
  (Qmod360 (q + 360 * inject_Z k) == Qmod360 q)%Q.
Proof.
  unfold Qmod360.
  assert (F : Qfloor ((q + 360 * inject_Z k) / 360) = (Qfloor (q / 360) + k)%Z).
  { rewrite <- Qfloor_add_Z. apply Qfloor_comp. field. }
  rewrite F, inject_Z_plus. ring.
Qed.

(** X12.  For a hue that is a whole number of degrees, [getColorFamily]
    depends on it only through its position on the circle: adding any whole
    number of turns leaves the family unchanged (negative hues included). *)
Theorem getColorFamily_periodic (z k : Z) (sat light : option number) :
  getColorFamily (mkFamilyArg (ofZ (z + 360 * k)) sat light)
  = getColorFamily (mkFamilyArg (ofZ z) sat light).
Proof.
  unfold getColorFamily, ofZ. cbn [fa_h fa_s fa_l].
  rewrite !normalized_hue.
  assert (E : (Qmod360 (inject_Z (z + 360 * k)) == Qmod360 (inject_Z z))%Q).
  { rewrite <- (Qmod360_period (inject_Z z) k). unfold Qmod360.
    assert (I : (inject_Z (z + 360 * k) == inject_Z z + 360 * inject_Z k)%Q)
      by (rewrite inject_Z_plus, inject_Z_mult; reflexivity).
    rewrite (Qfloor_comp _ _ (Qdiv_comp _ _ I _ _ (Qeq_refl 360))), I. reflexivity. }
  rewrite (fin_eq _ _ E). reflexivity.
Qed.

End FamilyMore.

(** ** DatasetPruner: what the selection is made of *)

Section CountingMore.
Context {A : Type}.

Lemma cnt_filter (p q : A -> bool) (xs : list A) :
  cnt p (filter q xs) = cnt (fun x => p x && q x) xs.
Proof.
  induction xs as [|x xs IH]; [reflexivity|].
  cbn [filter]. rewrite (cnt_cons (fun x => p x && q x)).
  destruct (q x).
  - rewrite cnt_cons, IH, andb_true_r. reflexivity.
  - rewrite IH, andb_false_r. reflexivity.
Qed.

Lemma cnt_ext_in (p q : A -> bool) (xs : list A) :
  (forall x, In x xs -> p x = q x) -> cnt p xs = cnt q xs.
Proof.
  induction xs as [|x xs IH]; intro H; [reflexivity|].
  rewrite !cnt_cons, (H x (or_introl eq_refl)), IH; [reflexivity|].
  intros y Hy. apply H. now right.
Qed.

Lemma cnt_filter_comm (p q : A -> bool) (xs : list A) :
  cnt p (filter q xs) = cnt q (filter p xs).
Proof.
  rewrite !cnt_filter. apply cnt_ext_in. intros x _. apply andb_comm.
Qed.

Lemma cnt_split_by (p q : A -> bool) (xs : list A) :
  (cnt (fun x => p x && q x) xs + cnt (fun x => p x && negb (q x)) xs = cnt p xs)%nat.
Proof.
  induction xs as [|x xs IH]; [reflexivity|].
  rewrite !cnt_cons. destruct (p x), (q x); simpl; lia.
Qed.

Lemma cnt_map {B : Type} (f : B -> A) (p : A -> bool) (ys : list B) :
  cnt p (map f ys) = cnt (fun y => p (f y)) ys.
Proof.
  induction ys as [|y ys IH]; [reflexivity|].
  cbn [map]. now rewrite !cnt_cons, IH.
Qed.

Lemma cnt_pos_In (p : A -> bool) (xs : list A) :
  (0 < cnt p xs)%nat -> exists x, In x xs /\ p x = true.
Proof.
  induction xs as [|x xs IH]; [unfold cnt; simpl; lia|].
  rewrite cnt_cons. destruct (p x) eqn:E.
  - intros _. exists x. split; [now left | assumption].
  - intro H. destruct (IH H) as [y [Hy Py]]. exists y. split; [now right | assumption].
Qed.

Lemma In_cnt_pos (p : A -> bool) (x : A) (xs : list A) :
  In x xs -> p x = true -> (0 < cnt p xs)%nat.
Proof.
  induction xs as [|y xs IH]; [contradiction|].
  intros [->|H] Px; rewrite cnt_cons.
  - rewrite Px. lia.
  - specialize (IH H Px). lia.
Qed.

End CountingMore.

Section DataEquality.

Lemma number_eq_dec (a b : number) : {a = b} + {a <> b}.
Proof. repeat decide equality. Qed.

Lemma ColorData_eq_dec (a b : ColorData) : {a = b} + {a <> b}.
Proof.
  decide equality;
    try apply string_dec;
    try (apply list_eq_dec; apply number_eq_dec);
    repeat decide equality.
Qed.

(** Having no more copies of anything than [ys] has, [xs] holds only
    members of [ys]. *)
Lemma cnt_le_incl (xs ys : list ColorData) :
  (forall p, cnt p xs <= cnt p ys)%nat -> forall c, In c xs -> In c ys.
Proof.
  intros H c Hc.
  set (p := fun y : ColorData => if ColorData_eq_dec c y then true else false).
  assert (Pc : p c = true) by (unfold p; destruct (ColorData_eq_dec c c); congruence).
  pose proof (In_cnt_pos p c xs Hc Pc) as Hpos.
  specialize (H p).
  destruct (cnt_pos_In p ys ltac:(lia)) as [y [Hy Py]].
  unfold p in Py. destruct (ColorData_eq_dec c y); [now subst | discriminate].
Qed.

End DataEquality.

Section PrunerMore.
Import SpectrumAnalyzer QualityScorer DatasetPruner.

Lemma fillGap_cnt (p : ColorQualityMetrics -> bool) (k : nat)
    (removed final : list ColorQualityMetrics) (b : SpectrumBucket) :
  (cnt p (fillGap k removed final b)
   <= cnt p final + cnt p (filter (inBucket b) removed))%nat.
Proof.
  unfold fillGap.
  pose proof (cnt_sort byScore p (filter (inBucket b) removed)) as L.
  destruct (sort byScore (filter (inBucket b) removed)) as [|best rest]; [lia|].
  destruct (Nat.ltb (List.length final) k); [|lia].
  eapply Nat.le_trans; [apply cnt_firstn|].
  rewrite cnt_sort, cnt_app, <- L, !cnt_cons. change (cnt p []) with 0%nat. lia.
Qed.

Lemma fillGaps_cnt (p : ColorQualityMetrics -> bool) (k : nat)
    (removed : list ColorQualityMetrics) (bs : list SpectrumBucket)
    (final : list ColorQualityMetrics) :
  (cnt p (fold_left (fillGap k removed) bs final)
   <= cnt p final
      + list_sum (map (fun b => cnt p (filter (inBucket b) removed)) bs))%nat.
Proof.
  revert final. induction bs as [|b bs IH]; intro final;
    cbn [fold_left map list_sum fold_right]; [lia|].
  eapply Nat.le_trans; [apply IH|].
  pose proof (fillGap_cnt p k removed final b). unfold list_sum. lia.
Qed.

Lemma spectrumGaps_cnt (scored : list ColorQualityMetrics) (config : PruningConfig)
    (final : list ColorQualityMetrics) :
  (forall p, cnt p final <= cnt p scored)%nat ->
  forall p, (cnt p (spectrumGaps scored config final) <= cnt p scored)%nat.
Proof.
  intros Hcnt p. unfold spectrumGaps.
  destruct (Nat.ltb 0 _); [|apply Hcnt].
  set (inFinal := fun sc : ColorQualityMetrics => existsb (fun f => sameHex f sc) final).
  set (removed := filter _ scored).
  set (bs := firstn _ _).
  eapply Nat.le_trans; [apply fillGaps_cnt|].
  assert (S : separated (map range bs)).
  { apply separated_firstn, criticalBuckets_separated. }
  assert (Hb : (list_sum (map (fun b => cnt p (filter (inBucket b) removed)) bs)
                <= cnt p removed)%nat).
  { rewrite (map_ext _ (fun b => cnt (inBucket b) (filter p removed)))
      by (intro b; apply cnt_filter_comm).
    apply (buckets_cnt bs (filter p removed) S). }
  assert (Hf : cnt p final = cnt (fun x => p x && inFinal x) final).
  { apply cnt_ext_in. intros f Hf.
    assert (E : inFinal f = true).
    { unfold inFinal. apply existsb_exists. exists f. split; [assumption|].
      unfold sameHex. apply String.eqb_refl. }
    now rewrite E, andb_true_r. }
  assert (Hr : cnt p removed = cnt (fun x => p x && negb (inFinal x)) scored)
    by apply cnt_filter.
  pose proof (Hcnt (fun x => p x && inFinal x)).
  pose proof (cnt_split_by p inFinal scored). lia.
Qed.

Lemma selectOptimalColors_cnt (scored : list ColorQualityMetrics) (config : PruningConfig)
    (p : ColorQualityMetrics -> bool) :
  (cnt p (selectOptimalColors scored config) <= cnt p scored)%nat.
Proof.
  unfold selectOptimalColors. apply spectrumGaps_cnt.
  intro p'. eapply Nat.le_trans; [apply cnt_firstn|].
  rewrite cnt_sort. apply familyRepresentation_cnt.
Qed.

Variable sqrtQ : Q -> Q.

Lemma scoreAllColors_colors (colors : list ColorData) (coverage : SpectrumCoverage) :
  map color (scoreAllColors sqrtQ colors coverage) = colors.
Proof.
  unfold scoreAllColors. rewrite map_map. cbn [color scoreColor]. apply map_id.
Qed.

Lemma prune_cnt (colors : list ColorData) (targetCount : nat) (options : PruningOptions)
    (p : ColorData -> bool) :
  (cnt p (data (prune sqrtQ colors targetCount options)) <= cnt p colors)%nat.
Proof.
  unfold prune. cbn [data]. rewrite cnt_map.
  eapply Nat.le_trans; [apply selectOptimalColors_cnt|].
  rewrite <- (cnt_map color p), scoreAllColors_colors. apply Nat.le_refl.
Qed.

(** X13.  [prune] only selects: every record it returns is a record of the
    input, and none is returned more often than the input holds it (for
    every test [p], no more of the returned records pass it than of the
    input records). *)
Theorem prune_returns_input_records (colors : list ColorData) (targetCount : nat)
    (options : PruningOptions) :
  (forall p : ColorData -> bool,
     (cnt p (data (prune sqrtQ colors targetCount options)) <= cnt p colors)%nat) /\
  (forall c, In c (data (prune sqrtQ colors targetCount options)) -> In c colors).
Proof.
  split.
  - intro p. apply prune_cnt.
  - apply cnt_le_incl. intro p. apply prune_cnt.
Qed.

(** X14.  [prune] returns exactly [k] records whenever step 1 can supply
    that many, that is, when the quota of the families (for each family the
    smaller of its size and [ceil(k / families * 1.2)], summed) reaches the
    target count [k] in force. *)
Theorem prune_exact_when_quota_suffices (colors : list ColorData) (targetCount : nat)
    (options : PruningOptions) :
  let k := DatasetPruner.targetCount (mkPruningConfig colors targetCount options) in
  (k <= quota k (map family colors))%nat ->
  List.length (data (prune sqrtQ colors targetCount options)) = k.
Proof.
  intros k Hq.
  pose proof (prune_at_least sqrtQ colors targetCount options) as Lo. cbv zeta in Lo. fold k in Lo.
  assert (Hi : (List.length (data (prune sqrtQ colors targetCount options)) <= k)%nat).
  { unfold prune. cbn [data]. rewrite length_map.
    eapply Nat.le_trans; [apply selectOptimalColors_length|]. fold k. apply Nat.le_min_l. }
  lia.
Qed.

End PrunerMore.

Section PrunerMoreWitness.
Import DatasetPruner.

Lemma prune_exact_when_quota_suffices_witness :
  List.length (data (prune (fun q => q) [unnamedRed; namedGreen] 2 noOptions)) = 2%nat.
Proof.
  apply (prune_exact_when_quota_suffices (fun q => q) [unnamedRed; namedGreen] 2 noOptions).
  vm_compute. lia.
Defined.

End PrunerMoreWitness.

(** ** SemanticDeduplicator: what every result satisfies *)

Section GroupingFacts.
Context {B : Type}.

Lemma NoDup_app_disjoint {K : Type} (l1 l2 : list K) (a : K) :
  NoDup (l1 ++ l2) -> In a l1 -> ~ In a l2.
Proof.
  induction l1 as [|x l1 IH]; intros H H1 H2; [contradiction|].
  cbn in H. inversion H as [|? ? Hx Hrest]; subst.
  destruct H1 as [->|H1].
  - apply Hx, in_or_app. now right.
  - now apply (IH Hrest H1).
Qed.

Lemma map_push_keys (key : string) (x : B) (m : list (string * list B)) (k : string) :
  In k (map fst (map_push key x m)) -> k = key \/ In k (map fst m).
Proof.
  induction m as [|[k' g] m IH]; cbn [map_push map fst].
  - intros [<-|[]]. now left.
  - destruct (String.eqb k' key); cbn [map fst].
    + intro H. now right.
    + intros [<-|H]; [right; now left|].
      destruct (IH H) as [->|H']; [now left | right; now right].
Qed.

(** Pushing [x] under its own key keeps the keys distinct, the arrays
    non-empty, and every member under its key. *)
Lemma map_push_keeps (key : B -> string) (x : B) (m : list (string * list B)) :
  NoDup (map fst m) ->
  Forall (fun kg => snd kg <> [] /\ Forall (fun y => key y = fst kg) (snd kg)) m ->
  NoDup (map fst (map_push (key x) x m)) /\
  Forall (fun kg => snd kg <> [] /\ Forall (fun y => key y = fst kg) (snd kg))
         (map_push (key x) x m).
Proof.
  induction m as [|[k g] m IH]; intros Hnd Hall; cbn [map_push].
  - split.
    + cbn. constructor; [apply in_nil | constructor].
    + constructor; [|constructor]. cbn [fst snd]. split; [discriminate|].
      constructor; [reflexivity | constructor].
  - inversion Hall as [|? ? [Hne Hg] Hm]; subst. cbn [fst snd] in Hne, Hg.
    cbn [map fst] in Hnd. inversion Hnd as [|? ? Hk Hnd']; subst.
    destruct (String.eqb_spec k (key x)) as [E|E].
    + split; [exact Hnd|]. constructor; [|assumption]. cbn [fst snd]. split.
      * destruct g; discriminate.
      * apply Forall_app. split; [assumption|]. constructor; [now symmetry | constructor].
    + destruct (IH Hnd' Hm) as [IH1 IH2]. split.
      * cbn [map fst]. constructor; [|assumption].
        intro Hin. apply map_push_keys in Hin. destruct Hin as [->|Hin]; [now apply E | now apply Hk].
      * constructor; [|assumption]. cbn [fst snd]. now split.
Qed.

Lemma grouping_keeps (key : B -> string) (xs : list B) (m : list (string * list B)) :
  NoDup (map fst m) ->
  Forall (fun kg => snd kg <> [] /\ Forall (fun y => key y = fst kg) (snd kg)) m ->
  NoDup (map fst (fold_left (fun m x => map_push (key x) x m) xs m)) /\
  Forall (fun kg => snd kg <> [] /\ Forall (fun y => key y = fst kg) (snd kg))
         (fold_left (fun m x => map_push (key x) x m) xs m).
Proof.
  revert m. induction xs as [|x xs IH]; intros m Hnd Hall; cbn [fold_left].
  - now split.
  - destruct (map_push_keeps key x m Hnd Hall) as [H1 H2]. now apply IH.
Qed.

(** One member chosen from each array. *)
Lemma chosen_keys (key : B -> string) (ws : list B) (m : list (string * list B)) :
  Forall2 (fun w kg => In w (snd kg)) ws m ->
  Forall (fun kg => snd kg <> [] /\ Forall (fun y => key y = fst kg) (snd kg)) m ->
  map key ws = map fst m.
Proof.
  induction 1 as [|w kg ws m Hw _ IH]; intro Hall; [reflexivity|].
  inversion Hall as [|? ? [_ Hg] Hm]; subst. cbn [map]. f_equal; [|now apply IH].
  rewrite Forall_forall in Hg. now apply Hg.
Qed.

Lemma chosen_cnt (p : B -> bool) (ws : list B) (m : list (string * list B)) :
  Forall2 (fun w kg => In w (snd kg)) ws m ->
  (cnt p ws <= cnt p (List.concat (map snd m)))%nat.
Proof.
  induction 1 as [|w kg ws m Hw _ IH]; [apply Nat.le_refl|].
  cbn [map List.concat]. rewrite cnt_cons, cnt_app.
  destruct (p w) eqn:E; [|lia].
  pose proof (In_cnt_pos p w (snd kg) Hw E). lia.
Qed.

Lemma chosen_In (ws : list B) (m : list (string * list B)) (w : B) :
  Forall2 (fun w kg => In w (snd kg)) ws m ->
  In w ws -> In w (List.concat (map snd m)).
Proof.
  induction 1 as [|w' kg ws m Hw _ IH]; [contradiction|].
  cbn [map List.concat]. intros [<-|H]; apply in_or_app; [now left | right; now apply IH].
Qed.

Lemma chosen_NoDup {K : Type} (f : B -> K) (ws : list B) (m : list (string * list B)) :
  Forall2 (fun w kg => In w (snd kg)) ws m ->
  NoDup (map f (List.concat (map snd m))) -> NoDup (map f ws).
Proof.
  induction 1 as [|w kg ws m Hw Hws IH]; intro Hnd; [constructor|].
  cbn [map List.concat] in Hnd. rewrite map_app in Hnd.
  cbn [map]. constructor.
  - intro Hin. apply in_map_iff in Hin. destruct Hin as [w' [E Hw']].
    apply (NoDup_app_disjoint _ _ (f w) Hnd).
    + now apply in_map.
    + rewrite <- E. apply in_map. now apply (chosen_In ws m).
  - apply IH. now apply NoDup_app_remove_l in Hnd.
Qed.

Lemma NoDup_map_filter {K : Type} (f : B -> K) (p : B -> bool) (xs : list B) :
  NoDup (map f xs) -> NoDup (map f (filter p xs)).
Proof.
  induction xs as [|x xs IH]; intro H; [constructor|].
  cbn [map] in H. inversion H as [|? ? Hx Hxs]; subst.
  cbn [filter]. destruct (p x); [|now apply IH].
  cbn [map]. constructor; [|now apply IH].
  intro Hin. apply Hx. apply in_map_iff in Hin. destruct Hin as [y [E Hy]].
  rewrite <- E. apply in_map. apply filter_In in Hy. tauto.
Qed.

End GroupingFacts.

Section DeduplicatorInvariants.
Import SemanticDeduplicator.

Variable scoreSemanticMatch : ColorData -> number.

Lemma indexed_from_In {B : Type} (i : nat) (xs : list B) (p : nat * B) :
  In p (indexed_from i xs) -> In (snd p) xs.
Proof.
  revert i. induction xs as [|x xs IH]; intros i H; [contradiction|].
  cbn [indexed_from] in H. destruct H as [<-|H]; [now left | right; now apply (IH (S i))].
Qed.

(** The winner of a group is one of its members. *)
Lemma selectBestName_member (first : ColorData) (group prio : list ColorData) :
  In first group -> In (selectBestName scoreSemanticMatch first group prio) group.
Proof.
  intro Hf. unfold selectBestName.
  set (scores := map _ (indexed group)).
  pose proof (sort_perm (fun a b : number * ColorData => sub (fst b) (fst a)) scores) as P.
  destruct (sort _ scores) as [|p rest]; [assumption|].
  assert (H : In p scores) by (eapply Permutation_in; [exact P | now left]).
  unfold scores in H. apply in_map_iff in H. destruct H as [[i x] [<- Hx]]. cbn [snd].
  apply (indexed_from_In 0 group (i, x)) in Hx. exact Hx.
Qed.

(** [pickWinners] takes one member from each group, and reports the groups
    of two or more with the name of the member it took. *)
Lemma pickWinners_chosen (tag : string) (label : string -> list ColorData -> string)
    (prio : list ColorData) (m : groups) :
  Forall (fun kg => snd kg <> []) m ->
  Forall2 (fun w kg => In w (snd kg))
          (fst (pickWinners scoreSemanticMatch tag label prio m)) m /\
  Forall (fun d => (2 <= List.length (dg_names d))%nat /\ In (dg_selected d) (dg_names d))
         (snd (pickWinners scoreSemanticMatch tag label prio m)).
Proof.
  unfold pickWinners.
  set (step := fun (acc : list ColorData * list DuplicateGroup)
                   (kg : string * list ColorData) => _).
  enough (G : forall ws ds, Forall (fun kg => snd kg <> []) m ->
    exists ws' ds', fold_left step m (ws, ds) = (ws ++ ws', ds ++ ds') /\
      Forall2 (fun w kg => In w (snd kg)) ws' m /\
      Forall (fun d => (2 <= List.length (dg_names d))%nat /\
                       In (dg_selected d) (dg_names d)) ds').
  { intro H. destruct (G [] [] H) as [ws' [ds' [E [H1 H2]]]]. rewrite E. now split. }
  induction m as [|[key group] m IH]; intros ws ds H.
  - exists [], []. cbn. rewrite !app_nil_r. repeat split; constructor.
  - inversion H as [|? ? Hne Hm]; subst. cbn [snd] in Hne.
    cbn [fold_left]. unfold step at 2.
    destruct group as [|c [|c2 rest]]; [congruence| |].
    + destruct (IH (ws ++ [c]) ds Hm) as [ws' [ds' [E [H1 H2]]]].
      exists (c :: ws'), ds'. rewrite E, <- app_assoc. repeat split; [|assumption].
      constructor; [now left | assumption].
    + set (group := c :: c2 :: rest).
      set (winner := selectBestName scoreSemanticMatch c group prio).
      assert (Hw : In winner group) by (apply selectBestName_member; now left).
      destruct (IH (ws ++ [winner])
                  (ds ++ [mkDuplicateGroup (label key group) (map name group) (name winner)
                            (getSelectionReason scoreSemanticMatch group winner prio ++ tag)%string])
                  Hm) as [ws' [ds' [E [H1 H2]]]].
      eexists (winner :: ws'), (_ :: ds'). rewrite E, <- !app_assoc.
      repeat split.
      * constructor; [exact Hw | assumption].
      * constructor; [|assumption]. cbn [dg_names dg_selected]. split.
        -- rewrite length_map. cbn. lia.
        -- apply in_map. exact Hw.
Qed.

Lemma grouping_nonempty (key : ColorData -> string) (xs : list ColorData) :
  fold_left (fun m x => map_push (key x) x m) xs [] = [] -> xs = [].
Proof.
  intro E. pose proof (grouping_perm key xs []) as P. rewrite E in P.
  cbn in P. now apply Permutation_nil in P.
Qed.

Lemma grouped_nonempty (key : ColorData -> string)
    (m : list (string * list ColorData)) :
  Forall (fun kg => snd kg <> [] /\ Forall (fun y => key y = fst kg) (snd kg)) m ->
  Forall (fun kg => snd kg <> []) m.
Proof. apply Forall_impl. now intros kg [H _]. Qed.

(** The two passes of [deduplicate]: the winners by hex, and, unless none
    of them has a name, the winners by name among the named ones. *)
Lemma deduplicate_passes (colors prio : list ColorData) :
  let hexGroups :=
    fold_left (fun m c => map_push (toLowerCase (hex c)) c m) colors [] in
  exists hexWinners,
    Forall2 (fun w kg => In w (snd kg)) hexWinners hexGroups /\
    ((filter named hexWinners = [] /\
      SemanticDeduplicator.colors (deduplicate scoreSemanticMatch colors prio) = hexWinners) \/
     (Forall2 (fun w kg => In w (snd kg))
        (SemanticDeduplicator.colors (deduplicate scoreSemanticMatch colors prio))
        (fold_left (fun m c => map_push (toLowerCase (name c)) c m)
           (filter named hexWinners) []))) /\
    Forall (fun d => (2 <= List.length (dg_names d))%nat /\ In (dg_selected d) (dg_names d))
           (stats (deduplicate scoreSemanticMatch colors prio)).
Proof.
  intro hexGroups.
  destruct (grouping_keeps (fun c => toLowerCase (hex c)) colors [])
    as [_ Hg1]; [constructor | constructor |]. fold hexGroups in Hg1.
  pose proof (pickWinners_chosen " | HEX" (fun key _ => key) prio hexGroups
                (grouped_nonempty _ _ Hg1)) as [W1 D1].
  unfold deduplicate. fold hexGroups.
  destruct (pickWinners scoreSemanticMatch " | HEX" (fun key _ => key) prio hexGroups)
    as [hexWinners hexDuplicates].
  cbn [fst snd] in W1, D1.
  exists hexWinners. split; [exact W1|].
  rewrite (skip_unnamed (fun c => toLowerCase (name c))).
  destruct (grouping_keeps (fun c => toLowerCase (name c)) (filter named hexWinners) [])
    as [_ Hg2]; [constructor | constructor |].
  pose proof (grouping_nonempty (fun c => toLowerCase (name c)) (filter named hexWinners)) as Hn.
  set (nameGroups := fold_left _ (filter named hexWinners) []) in *.
  pose proof (pickWinners_chosen " | NAME" (fun _ g => String.concat ", " (map hex g))
                prio nameGroups (grouped_nonempty _ _ Hg2)) as [W2 D2].
  destruct nameGroups as [|kg nameGroups'] eqn:E.
  - cbn [SemanticDeduplicator.colors stats]. split; [left; split; [now apply Hn | reflexivity] | exact D1].
  - destruct (pickWinners scoreSemanticMatch " | NAME" _ prio (kg :: nameGroups'))
      as [finalResult nameDuplicates].
    cbn [fst snd] in W2, D2. cbn [SemanticDeduplicator.colors stats].
    split; [right; exact W2 | apply Forall_app; now split].
Qed.

Lemma deduplicate_cnt (colors prio : list ColorData) (p : ColorData -> bool) :
  (cnt p (SemanticDeduplicator.colors (deduplicate scoreSemanticMatch colors prio))
   <= cnt p colors)%nat.
Proof.
  destruct (deduplicate_passes colors prio) as [ws1 [W1 [[[_ ->]|W2] _]]].
  - eapply Nat.le_trans; [apply (chosen_cnt p _ _ W1)|].
    rewrite (cnt_perm p _ _ (grouping_perm _ colors [])). apply Nat.le_refl.
  - eapply Nat.le_trans; [apply (chosen_cnt p _ _ W2)|].
    rewrite (cnt_perm p _ _ (grouping_perm _ (filter named ws1) [])). cbn [map List.concat app].
    rewrite cnt_filter.
    eapply Nat.le_trans; [|eapply Nat.le_trans; [apply (chosen_cnt p _ _ W1)|]].
    + pose proof (cnt_split_by p named ws1). lia.
    + rewrite (cnt_perm p _ _ (grouping_perm _ colors [])). apply Nat.le_refl.
Qed.

(** X15.  [deduplicate] only removes: every record of the result is a
    record of the input and is returned no more often than the input holds
    it; so the result is never longer than the input. *)
Theorem deduplicate_returns_input_records (colors prio : list ColorData) :
  let result := SemanticDeduplicator.colors (deduplicate scoreSemanticMatch colors prio) in
  (forall p : ColorData -> bool, (cnt p result <= cnt p colors)%nat) /\
  (forall c, In c result -> In c colors) /\
  (List.length result <= List.length colors)%nat.
Proof.
  intro result. split; [|split].
  - intro p. apply deduplicate_cnt.
  - apply cnt_le_incl. intro p. apply deduplicate_cnt.
  - pose proof (deduplicate_cnt colors prio (fun _ => true)) as H.
    unfold cnt in H. rewrite !forallb_filter_id in H by (apply forallb_forall; reflexivity).
    exact H.
Qed.

(** X16.  What deduplication is for: in the result no two records have the
    same hex value, compared without regard to case, and no two named
    records have the same name, compared without regard to case. *)
Theorem deduplicate_result_distinct (colors prio : list ColorData) :
  let result := SemanticDeduplicator.colors (deduplicate scoreSemanticMatch colors prio) in
  NoDup (map (fun c => toLowerCase (hex c)) result) /\
  NoDup (map (fun c => toLowerCase (name c)) (filter named result)).
Proof.
  intro result.
  destruct (grouping_keeps (fun c => toLowerCase (hex c)) colors [])
    as [K1 G1]; [constructor | constructor |].
  destruct (deduplicate_passes colors prio) as [ws1 [W1 [Hcase _]]].
  assert (H1 : NoDup (map (fun c => toLowerCase (hex c)) ws1)).
  { rewrite (chosen_keys (fun c => toLowerCase (hex c)) ws1 _ W1 G1). exact K1. }
  destruct Hcase as [[Hnone E]|W2]; unfold result.
  - rewrite E, Hnone. split; [exact H1 | constructor].
  - destruct (grouping_keeps (fun c => toLowerCase (name c)) (filter named ws1) [])
      as [K2 G2]; [constructor | constructor |].
    split.
    + apply (chosen_NoDup _ _ _ W2).
      eapply Permutation_NoDup.
      * apply Permutation_map. symmetry. apply (grouping_perm _ (filter named ws1) []).
      * cbn [map List.concat app]. now apply NoDup_map_filter.
    + apply NoDup_map_filter.
      rewrite (chosen_keys (fun c => toLowerCase (name c)) _ _ W2 G2). exact K2.
Qed.

(** X17.  [deduplicate] never returns named and unnamed records together:
    either no record of the result has a name, or all of them have one.
    As soon as one winner of the hex pass is named, every unnamed record
    is left out. *)
Theorem deduplicate_never_mixes (colors prio : list ColorData) :
  let result := SemanticDeduplicator.colors (deduplicate scoreSemanticMatch colors prio) in
  filter named result = [] \/ forallb named result = true.
Proof.
  intro result.
  destruct (deduplicate_passes colors prio) as [ws1 [W1 [[[Hnone E]|W2] _]]]; unfold result.
  - left. now rewrite E.
  - right. apply forallb_forall. intros c Hc.
    apply (chosen_In _ _ c W2) in Hc.
    eapply Permutation_in in Hc; [|apply (grouping_perm _ (filter named ws1) [])].
    cbn [map List.concat app] in Hc. apply filter_In in Hc. tauto.
Qed.

(** X18.  Every duplicate group of the report has at least two names, and
    the name reported as selected is one of them. *)
Theorem deduplicate_report_groups (colors prio : list ColorData) :
  Forall (fun d => (2 <= List.length (dg_names d))%nat /\ In (dg_selected d) (dg_names d))
         (stats (deduplicate scoreSemanticMatch colors prio)).
Proof.
  destruct (deduplicate_passes colors prio) as [ws1 [_ [_ D]]]. exact D.
Qed.

End DeduplicatorInvariants.

(** ** SpectrumAnalyzer: what the buckets hold *)

Section SpectrumMore.
Import SpectrumAnalyzer.

(** The key [floor(h / 15) * 15] is the lower end of the one range
    [[lo, lo + 15)] that holds [h]; a hue that is not finite has none. *)
Lemma bucketKey_in_range (z : Z) (x : number) :
  JS.eq (fin (inject_Z z * 15)) (mul (Math_floor (div x BUCKET_SIZE)) BUCKET_SIZE)
  = ge x (fin (inject_Z z * 15)) && lt x (add (fin (inject_Z z * 15)) BUCKET_SIZE).
Proof.
  unfold BUCKET_SIZE. destruct x as [| | |q]; try reflexivity.
  unfold ge. cbn [div]. change (Qeq_bool 15 0) with false. cbv iota.
  unfold fin. cbn [Math_floor ofZ mul add JS.eq le lt]. unfold fin.
  apply Bool.eq_iff_eq_true.
  rewrite Qeq_bool_iff, andb_true_iff, Qle_bool_iff, negb_true_iff, Qle_bool_false.
  rewrite !Qred_correct.
  assert (Q15 : (q == q / 15 * 15)%Q) by field.
  pose proof (Qfloor_le (q / 15)) as Lo. pose proof (Qlt_floor (q / 15)) as Hi.
  rewrite inject_Z_succ in Hi.
  split.
  - intro E. assert (Ez : (inject_Z z == inject_Z (Qfloor (q / 15)))%Q) by lra.
    split; lra.
  - intros [H1 H2].
    assert (Ez : Qfloor (q / 15) = z).
    { apply Qfloor_unique; [|rewrite inject_Z_succ]; lra. }
    rewrite Ez. reflexivity.
Qed.

Lemma pushColor_as_map (key : number) (c : ColorData) (bs : list (number * SpectrumBucket)) :
  pushColor key c bs
  = map (fun kb : number * SpectrumBucket =>
           (fst kb,
            mkBucket (hueMin (snd kb)) (hueMax (snd kb))
              (bucketColors (snd kb) ++ (if JS.eq (fst kb) key then [c] else []))
              (density (snd kb)) (avgSaturation (snd kb)) (avgLightness (snd kb)))) bs.
Proof.
  unfold pushColor. apply map_ext. intros [k [lo hi cs d sa la]]. cbn [fst snd
    hueMin hueMax bucketColors density avgSaturation avgLightness].
  destruct (JS.eq k key); [reflexivity | now rewrite app_nil_r].
Qed.

(** After the distribution loop, a bucket holds what it held before and,
    behind that, the colors whose key is the bucket's, in their order. *)
Lemma place_contents (colors : list ColorData)
    (st : list (number * SpectrumBucket) * list string * list (string * FamilyRange)) :
  fst (fst (fold_left place colors st))
  = map (fun kb : number * SpectrumBucket =>
           (fst kb,
            mkBucket (hueMin (snd kb)) (hueMax (snd kb))
              (bucketColors (snd kb) ++
               filter (fun c => JS.eq (fst kb)
                  (mul (Math_floor (div (h (hsl c)) BUCKET_SIZE)) BUCKET_SIZE)) colors)
              (density (snd kb)) (avgSaturation (snd kb)) (avgLightness (snd kb))))
        (fst (fst st)).
Proof.
  revert st. induction colors as [|c colors IH]; intros [[bs fs] rs].
  - cbn [fold_left fst filter]. rewrite <- (map_id bs) at 1. apply map_ext.
    intros [k [lo hi cs d sa la]]. cbn. now rewrite app_nil_r.
  - cbn [fold_left]. rewrite IH. unfold place. cbn [fst].
    rewrite pushColor_as_map, map_map. apply map_ext.
    intros [k [lo hi cs d sa la]]. cbn [fst snd hueMin hueMax bucketColors density
      avgSaturation avgLightness filter].
    destruct (JS.eq k _); [now rewrite <- app_assoc | now rewrite app_nil_r].
Qed.

(** X19.  [analyzeCoverage] returns the 24 buckets [[15k, 15k + 15)],
    [k = 0..23]; when no hue lies strictly between -1 and 0, each bucket
    holds exactly the input colors whose hue lies in its range, in input
    order, and its density is their number: a color whose hue is 360 or
    more, -1 or less, or not a number is in no bucket.  (A negative hue
    next to zero is left out of the statement: there the quotient [h / 15]
    of binary64 can underflow to a zero, the key of the first bucket.) *)
Theorem analyzeCoverage_bucket_contents (colors : list ColorData) :
  Forall (fun c => lt (Fin (-1)) (h (hsl c)) && lt (h (hsl c)) (Fin 0) = false) colors ->
  map (fun b => (hueMin b, hueMax b, bucketColors b, density b))
      (map snd (buckets (analyzeCoverage colors)))
  = map (fun k : nat =>
           let lo := mul (ofNat k) BUCKET_SIZE in
           let hi := add lo BUCKET_SIZE in
           let members :=
             filter (fun c => ge (h (hsl c)) lo && lt (h (hsl c)) hi) colors in
           (lo, hi, members, ofNat (List.length members)))
        (seq 0 24).
Proof.
  intros _. unfold analyzeCoverage.
  pose proof (place_contents colors (emptyBuckets, [], [])) as H.
  destruct (fold_left place colors (emptyBuckets, [], [])) as [[bs fs] rs].
  cbn [fst] in H. cbn [buckets]. rewrite H. unfold emptyBuckets.
  rewrite !map_map. apply map_ext_in. intros k _. cbv zeta.
  cbn [fst snd hueMin hueMax bucketColors density avgSaturation avgLightness app].
  assert (E : filter (fun c => JS.eq (mul (ofNat k) BUCKET_SIZE)
                (mul (Math_floor (div (h (hsl c)) BUCKET_SIZE)) BUCKET_SIZE)) colors
              = filter (fun c => ge (h (hsl c)) (mul (ofNat k) BUCKET_SIZE) &&
                                 lt (h (hsl c)) (add (mul (ofNat k) BUCKET_SIZE) BUCKET_SIZE))
                       colors).
  { apply filter_ext. intro c. apply (bucketKey_in_range (Z.of_nat k)). }
  rewrite E. unfold finishBucket.
  cbn [hueMin hueMax bucketColors density avgSaturation avgLightness].
  now destruct (Nat.ltb 0 _).
Qed.

End SpectrumMore.

Section SpectrumMoreWitness.
Import SpectrumAnalyzer.

Lemma analyzeCoverage_bucket_contents_witness :
  map (fun b => (hueMin b, hueMax b, bucketColors b, density b))
      (map snd (buckets (analyzeCoverage [unnamedRed; namedGreen])))
  = map (fun k : nat =>
           let lo := mul (ofNat k) BUCKET_SIZE in
           let hi := add lo BUCKET_SIZE in
           let members :=
             filter (fun c => ge (h (hsl c)) lo && lt (h (hsl c)) hi)
                    [unnamedRed; namedGreen] in
           (lo, hi, members, ofNat (List.length members)))
        (seq 0 24).
Proof.
  apply (analyzeCoverage_bucket_contents [unnamedRed; namedGreen]).
  repeat constructor.
Defined.

End SpectrumMoreWitness.

(** ** SpectrumAnalyzer: the ranges of the families *)

Section FamilyRangeMore.
Import SpectrumAnalyzer DatasetPruner.

Lemma within_widen (lo hi : number) (x y : Q) :
  within lo (Fin x) hi ->
  within (Math_min lo (Fin y)) (Fin x) (Math_max hi (Fin y)) /\
  within (Math_min lo (Fin y)) (Fin y) (Math_max hi (Fin y)).
Proof.
  intros [H1 H2].
  destruct lo as [| | |a]; try discriminate; destruct hi as [| | |b]; try discriminate;
    cbn [Math_min Math_max lt]; cbn [le] in H1, H2;
    repeat match goal with
           | |- context [Qle_bool ?u ?v] => destruct (Qle_bool u v) eqn:?
           end;
    repeat match goal with
           | H : Qle_bool _ _ = true |- _ => apply Qle_bool_iff in H
           | H : Qle_bool _ _ = false |- _ => apply Qle_bool_false in H
           end;
    unfold within; cbn [negb le];
    repeat split; try reflexivity; apply Qle_bool_iff; lra.
Qed.

Lemma widen_covers (r : FamilyRange) (c c' : ColorData) :
  finiteHSL c -> finiteHSL c' -> covers r c ->
  covers (widen r c') c /\ covers (widen r c') c'.
Proof.
  intros [qh [qs [ql E]]] [qh' [qs' [ql' E']]] [Hh [Hs Hl]].
  unfold covers, widen in *. cbn [minH maxH minS maxS minL maxL].
  rewrite E in *. rewrite E'. cbn [h s l] in *.
  destruct (within_widen _ _ _ qh' Hh), (within_widen _ _ _ qs' Hs),
           (within_widen _ _ _ ql' Hl).
  tauto.
Qed.

Lemma first_covers (c : ColorData) :
  finiteHSL c ->
  covers (mkRange (h (hsl c)) (h (hsl c)) (s (hsl c)) (s (hsl c))
                  (l (hsl c)) (l (hsl c))) c.
Proof.
  intros [qh [qs [ql E]]]. unfold covers, within. rewrite E.
  cbn [minH maxH minS maxS minL maxL h s l le].
  repeat split; apply Qle_bool_iff; lra.
Qed.

(** Every range spans some color with finite components. *)
Lemma trackRange_spans (c' : ColorData) (rs : list (string * FamilyRange)) :
  finiteHSL c' ->
  Forall (fun fr => exists c0, finiteHSL c0 /\ covers (snd fr) c0) rs ->
  Forall (fun fr => exists c0, finiteHSL c0 /\ covers (snd fr) c0) (trackRange c' rs).
Proof.
  intros F'. induction rs as [|[f r] rs IH]; intro H; cbn [trackRange].
  - constructor; [|constructor]. exists c'. split; [assumption | now apply first_covers].
  - inversion H as [|? ? [c0 [F0 C0]] Hrs]; subst. cbn [snd] in C0.
    destruct (String.eqb f (family c')).
    + constructor; [|assumption]. exists c0. split; [assumption|].
      now apply (widen_covers r c0 c').
    + constructor; [|now apply IH]. now exists c0.
Qed.

Lemma trackRange_new (c' : ColorData) (rs : list (string * FamilyRange)) :
  finiteHSL c' ->
  Forall (fun fr => exists c0, finiteHSL c0 /\ covers (snd fr) c0) rs ->
  exists r, find (fun fr => String.eqb (fst fr) (family c')) (trackRange c' rs)
            = Some (family c', r) /\ covers r c'.
Proof.
  intros F'. induction rs as [|[f r] rs IH]; intro H; cbn [trackRange].
  - cbn [find fst]. rewrite String.eqb_refl. eexists. split; [reflexivity|].
    now apply first_covers.
  - inversion H as [|? ? [c0 [F0 C0]] Hrs]; subst. cbn [snd] in C0.
    destruct (String.eqb_spec f (family c')) as [E|E].
    + cbn [find fst]. rewrite E, String.eqb_refl. eexists. split; [reflexivity|].
      now apply (widen_covers r c0 c').
    + cbn [find fst]. destruct (String.eqb_spec f (family c')); [contradiction|].
      now apply IH.
Qed.

Lemma trackRange_old (c c' : ColorData) (rs : list (string * FamilyRange)) :
  finiteHSL c -> finiteHSL c' ->
  (exists r, find (fun fr => String.eqb (fst fr) (family c)) rs = Some (family c, r)
             /\ covers r c) ->
  exists r, find (fun fr => String.eqb (fst fr) (family c)) (trackRange c' rs)
            = Some (family c, r) /\ covers r c.
Proof.
  intros F F'. induction rs as [|[f r0] rs IH]; intros [r [Hr C]]; [discriminate|].
  cbn [find fst] in Hr. cbn [trackRange].
  destruct (String.eqb_spec f (family c)) as [Ec|Ec].
  - injection Hr as _ <-. subst f.
    destruct (String.eqb (family c) (family c')); cbn [find fst]; rewrite String.eqb_refl.
    + eexists. split; [reflexivity|]. now apply (widen_covers r0 c c').
    + eexists. split; [reflexivity | assumption].
  - destruct (String.eqb f (family c')); cbn [find fst];
      destruct (String.eqb_spec f (family c)); try contradiction.
    + now exists r.
    + apply IH. now exists r.
Qed.

Lemma place_tracks (colors : list ColorData)
    (st : list (number * SpectrumBucket) * list string * list (string * FamilyRange)) :
  snd (fold_left place colors st) = fold_left (fun rs c => trackRange c rs) colors (snd st).
Proof.
  revert st. induction colors as [|c colors IH]; intros [[bs fs] rs]; [reflexivity|].
  cbn [fold_left]. rewrite IH. reflexivity.
Qed.

Lemma tracked_covers (colors : list ColorData) :
  Forall finiteHSL colors ->
  forall (rs : list (string * FamilyRange)) (seen : list ColorData),
    Forall finiteHSL seen ->
    Forall (fun fr => exists c0, finiteHSL c0 /\ covers (snd fr) c0) rs ->
    (forall c, In c seen -> exists r,
       find (fun fr => String.eqb (fst fr) (family c)) rs = Some (family c, r)
       /\ covers r c) ->
    forall c, In c (seen ++ colors) -> exists r,
       find (fun fr => String.eqb (fst fr) (family c))
            (fold_left (fun rs c => trackRange c rs) colors rs) = Some (family c, r)
       /\ covers r c.
Proof.
  induction 1 as [|c' colors F' Fcolors IH]; intros rs seen Fseen Hrs Hseen c Hc.
  - rewrite app_nil_r in Hc. now apply Hseen.
  - cbn [fold_left].
    apply (IH (trackRange c' rs) (seen ++ [c'])).
    + apply Forall_app. split; [assumption | now constructor].
    + now apply trackRange_spans.
    + intros c0 H0. apply in_app_or in H0. destruct H0 as [H0|[<-|[]]].
      * apply trackRange_old; [|assumption|now apply Hseen].
        rewrite Forall_forall in Fseen. now apply Fseen.
      * now apply trackRange_new.
    + now rewrite <- app_assoc.
Qed.

(** X20.  The range [analyzeCoverage] records for a family spans every
    color of the family: when the colors have finite hue, saturation and
    lightness, the range looked up for the family of an input color is
    there, and the color lies between its minimum and maximum in all three
    components. *)
Theorem analyzeCoverage_family_range_covers (colors : list ColorData) (c : ColorData) :
  Forall finiteHSL colors -> In c colors ->
  covers (rangeOf (analyzeCoverage colors) (family c)) c.
Proof.
  intros F Hc. unfold rangeOf, analyzeCoverage.
  pose proof (place_tracks colors (emptyBuckets, [], [])) as T.
  destruct (fold_left place colors (emptyBuckets, [], [])) as [[bs fs] rs].
  cbn [snd] in T. cbn [familyRanges]. subst rs.
  destruct (tracked_covers colors F [] [] (Forall_nil _) (Forall_nil _)
              (fun c0 H0 => match H0 with end) c Hc) as [r [-> C]].
  exact C.
Qed.

End FamilyRangeMore.

Section FamilyRangeMoreWitness.
Import SpectrumAnalyzer DatasetPruner.

Lemma analyzeCoverage_family_range_covers_witness :
  covers (rangeOf (analyzeCoverage [unnamedRed; namedGreen]) (family namedGreen)) namedGreen.
Proof.
  apply (analyzeCoverage_family_range_covers [unnamedRed; namedGreen] namedGreen).
  - repeat constructor; unfold finiteHSL; cbn; eauto.
  - simpl. auto.
Defined.

End FamilyRangeMoreWitness.

(** ** StringMetrics: the distance to the empty string *)

Section EmptyStringDistance.
Import StringMetrics.

Lemma nth_list_set {B : Type} (xs : list B) (i j : nat) (v d : B) :
  nth j (list_set xs i v) d
  = if Nat.eqb i j && Nat.ltb i (List.length xs) then v else nth j xs d.
Proof.
  revert i j. induction xs as [|x xs IH]; intros i j.
  - cbn [list_set List.length]. destruct i; cbn; now rewrite andb_false_r.
  - destruct i as [|i], j as [|j]; cbn [list_set nth List.length]; try reflexivity.
    rewrite IH. reflexivity.
Qed.

Lemma list_set_length {B : Type} (xs : list B) (i : nat) (v : B) :
  List.length (list_set xs i v) = List.length xs.
Proof.
  revert i. induction xs as [|x xs IH]; intros [|i]; cbn [list_set List.length];
    try reflexivity. now rewrite IH.
Qed.

Lemma mset_length (H : matrix) (i j : nat) (v : Z) :
  List.length (mset H i j v) = List.length H.
Proof. apply list_set_length. Qed.

Lemma mset_row_length (H : matrix) (i j i' : nat) (v : Z) :
  List.length (nth i' (mset H i j v) []) = List.length (nth i' H []).
Proof.
  unfold mset. rewrite nth_list_set.
  destruct (Nat.eqb_spec i i') as [->|_]; cbn [andb]; [|reflexivity].
  destruct (Nat.ltb i' (List.length H)); [apply list_set_length | reflexivity].
Qed.

Lemma mget_mset_eq (H : matrix) (i j : nat) (v : Z) :
  (i < List.length H)%nat -> (j < List.length (nth i H []))%nat ->
  mget (mset H i j v) i j = v.
Proof.
  intros Hi Hj. unfold mget, mset. apply Nat.ltb_lt in Hi, Hj.
  rewrite nth_list_set, Nat.eqb_refl, Hi. cbn [andb].
  rewrite nth_list_set, Nat.eqb_refl, Hj. reflexivity.
Qed.

Lemma mget_mset_other_row (H : matrix) (i j i' j' : nat) (v : Z) :
  i <> i' -> mget (mset H i j v) i' j' = mget H i' j'.
Proof.
  intro Hne. unfold mget, mset. rewrite nth_list_set.
  destruct (Nat.eqb_spec i i'); [contradiction | reflexivity].
Qed.

(** The two loops that fill the border keep the size of the table. *)
Lemma border_rows_size (maxDist : Z) (idxs : list nat) (H : matrix) (r : nat) :
  List.length (fold_left
    (fun H i => mset (mset H (i + 1) 0 maxDist) (i + 1) 1 (Z.of_nat i)) idxs H)
  = List.length H /\
  List.length (nth r (fold_left
    (fun H i => mset (mset H (i + 1) 0 maxDist) (i + 1) 1 (Z.of_nat i)) idxs H) [])
  = List.length (nth r H []).
Proof.
  revert H. induction idxs as [|i idxs IH]; intro H; cbn [fold_left]; [now split|].
  destruct (IH (mset (mset H (i + 1) 0 maxDist) (i + 1) 1 (Z.of_nat i))) as [E1 E2].
  rewrite E1, E2, !mset_length, !mset_row_length. now split.
Qed.

Lemma border_cols_size (maxDist : Z) (js : list nat) (H : matrix) (r : nat) :
  List.length (fold_left
    (fun H j => mset (mset H 0 (j + 1) maxDist) 1 (j + 1) (Z.of_nat j)) js H)
  = List.length H /\
  List.length (nth r (fold_left
    (fun H j => mset (mset H 0 (j + 1) maxDist) 1 (j + 1) (Z.of_nat j)) js H) [])
  = List.length (nth r H []).
Proof.
  revert H. induction js as [|j js IH]; intro H; cbn [fold_left]; [now split|].
  destruct (IH (mset (mset H 0 (j + 1) maxDist) 1 (j + 1) (Z.of_nat j))) as [E1 E2].
  rewrite E1, E2, !mset_length, !mset_row_length. now split.
Qed.

Lemma repeat_row_length (v : Z) (c r i : nat) :
  (i < r)%nat -> List.length (nth i (repeat (repeat v c) r) []) = c.
Proof.
  revert i. induction r as [|r IH]; intros i Hi; [lia|].
  destruct i as [|i]; cbn [repeat nth]; [apply repeat_length | apply IH; lia].
Qed.

(** With an empty second string the main loop changes nothing. *)
Lemma rows_empty (a : string) (idxs : list nat) (H : matrix) (da : charmap) :
  fst (fold_left (row a "") idxs (H, da)) = H.
Proof.
  revert da. induction idxs as [|i idxs IH]; intro da; [reflexivity|].
  cbn [fold_left]. unfold row at 2. cbn [String.length seq fold_left]. apply IH.
Qed.

(** X21.  The distance between a string and the empty string is the length
    of the string, whichever of the two is empty. *)
Theorem damerauLevenshtein_empty (a : string) :
  damerauLevenshtein a "" = Z.of_nat (String.length a) /\
  damerauLevenshtein "" a = Z.of_nat (String.length a).
Proof.
  split.
  - unfold damerauLevenshtein. cbn [String.length].
    set (n := String.length a). set (maxDist := Z.of_nat (n + 0)).
    set (H0 := repeat (repeat maxDist (0 + 2)) (n + 2)).
    set (f1 := fun H i => mset (mset H (i + 1) 0 maxDist) (i + 1) 1 (Z.of_nat i)).
    replace (n + 1)%nat with (S n) by lia. rewrite seq_S, fold_left_app.
    cbn [fold_left seq Nat.add].
    set (H' := fold_left f1 (seq 0 n) H0).
    pose proof (rows_empty a (seq 1 n)
      (mset (mset (f1 H' n) 0 (0 + 1) maxDist) 1 (0 + 1) (Z.of_nat 0)) []) as R.
    destruct (fold_left (row a "") (seq 1 n) _) as [H2 da]. cbn [fst] in R. subst H2.
    assert (L : List.length H' = (n + 2)%nat).
    { unfold H', f1. rewrite (proj1 (border_rows_size maxDist (seq 0 n) H0 0)).
      apply repeat_length. }
    assert (C : forall r, (r < n + 2)%nat -> List.length (nth r H' []) = 2%nat).
    { intros r Hr. unfold H', f1.
      rewrite (proj2 (border_rows_size maxDist (seq 0 n) H0 r)).
      now apply repeat_row_length. }
    assert (V : mget (f1 H' n) (S n) 1 = Z.of_nat n).
    { unfold f1. replace (n + 1)%nat with (S n) by lia.
      apply mget_mset_eq.
      - rewrite mset_length. lia.
      - rewrite mset_row_length, C; lia. }
    destruct n as [|n'] eqn:En.
    + cbn [Nat.add]. apply mget_mset_eq.
      * rewrite mset_length. unfold f1. rewrite !mset_length. lia.
      * rewrite mset_row_length. unfold f1. rewrite !mset_row_length, C; lia.
    + replace (S n' + 1)%nat with (S (S n')) by lia. cbn [Nat.add].
      rewrite !mget_mset_other_row by lia. exact V.
  - unfold damerauLevenshtein. cbn [String.length seq fold_left Nat.add].
    set (m := String.length a). set (maxDist := Z.of_nat m).
    set (H1 := mset (mset (repeat (repeat maxDist (m + 2)) 2) 1 0 maxDist) 1 1 (Z.of_nat 0)).
    set (f2 := fun H j => mset (mset H 0 (j + 1) maxDist) 1 (j + 1) (Z.of_nat j)).
    replace (m + 1)%nat with (S m) by lia. rewrite seq_S, fold_left_app.
    cbn [fold_left Nat.add].
    set (H' := fold_left f2 (seq 0 m) H1).
    assert (L : List.length H' = 2%nat).
    { unfold H', f2. rewrite (proj1 (border_cols_size maxDist (seq 0 m) H1 0)).
      unfold H1. rewrite !mset_length. apply repeat_length. }
    assert (C : List.length (nth 1 H' []) = (m + 2)%nat).
    { unfold H', f2. rewrite (proj2 (border_cols_size maxDist (seq 0 m) H1 1)).
      unfold H1. rewrite !mset_row_length. apply repeat_row_length. lia. }
    unfold f2 at 1. replace (m + 1)%nat with (S m) by lia.
    apply mget_mset_eq.
    + rewrite mset_length. lia.
    + rewrite mset_row_length, C. lia.
Qed.

End EmptyStringDistance.

(** ** ColorMetrics: hue, saturation and lightness of a hex colour *)

Section HslMetricsFacts.
Import ColorMetrics.

Ltac q_bools :=
  repeat match goal with
         | H : Qle_bool _ _ = true |- _ => apply Qle_bool_iff in H
         | H : Qle_bool _ _ = false |- _ => apply Qle_bool_false in H
         end.

Lemma unitInterval_Q (q : Q) : unitInterval (Fin q) -> (0 <= q <= 1)%Q.
Proof. intros [H0 H1]. cbn [le] in H0, H1. q_bools. now split. Qed.

Lemma max3 (a b c : Q) :
  exists M, Math_max_list [Fin a; Fin b; Fin c] = Fin M /\
            (a <= M /\ b <= M /\ c <= M)%Q /\ (M = a \/ M = b \/ M = c).
Proof.
  unfold Math_max_list. cbn [fold_left]. cbn [Math_max lt].
  destruct (Qle_bool b a) eqn:E1; cbn [negb Math_max lt];
    match goal with |- context [Qle_bool ?u ?v] => destruct (Qle_bool u v) eqn:E2 end;
    cbn [negb]; q_bools; eexists; (split; [reflexivity|]); (split; [lra | auto]).
Qed.

Lemma min3 (a b c : Q) :
  exists m, Math_min_list [Fin a; Fin b; Fin c] = Fin m /\
            (m <= a /\ m <= b /\ m <= c)%Q /\ (m = a \/ m = b \/ m = c).
Proof.
  unfold Math_min_list. cbn [fold_left]. cbn [Math_min lt].
  destruct (Qle_bool a b) eqn:E1; cbn [negb Math_min lt];
    match goal with |- context [Qle_bool ?u ?v] => destruct (Qle_bool u v) eqn:E2 end;
    cbn [negb]; q_bools; eexists; (split; [reflexivity|]); (split; [lra | auto]).
Qed.

(** Rounding a number of [[0, n]] gives an integer of [[0, n]]. *)
Lemma round_range (x : Q) (n : Z) :
  (0 <= x <= inject_Z n)%Q ->
  exists z, Math_round (Fin x) = ofZ z /\ (0 <= z <= n)%Z.
Proof.
  intros [H0 H1]. exists (Qfloor (x + (1 # 2))). split; [reflexivity|]. split.
  - change 0%Z with (Qfloor 0). apply Qfloor_resp_le. lra.
  - assert (E : Qfloor (inject_Z n + (1 # 2)) = n).
    { apply Qfloor_unique; [|rewrite inject_Z_succ]; lra. }
    rewrite <- E. apply Qfloor_resp_le. lra.
Qed.

Lemma percent_range (q : Q) :
  (0 <= q <= 1)%Q ->
  exists z, Math_round (mul (Fin q) (Fin 100)) = ofZ z /\ (0 <= z <= 100)%Z.
Proof.
  intro H. destruct (mul_Fin q 100) as (v & -> & Hv).
  apply round_range. rewrite Hv. change (inject_Z 100) with 100%Q. lra.
Qed.

(** One term of the hue: a difference of two channels over [max - min],
    times 60. *)
Lemma hue_term (x y d : Q) :
  (0 < d)%Q -> (- d <= x - y <= d)%Q ->
  exists v, mul (div (sub (Fin x) (Fin y)) (Fin d)) (Fin 60) = Fin v /\
            (- 60 <= v <= 60)%Q /\ (y <= x -> 0 <= v)%Q /\ (x < y -> v <= 0)%Q.
Proof.
  intros Hd Hxy.
  destruct (sub_Fin x y) as (n & -> & Hn).
  destruct (div_Fin n d) as (t & -> & Ht); [lra|].
  destruct (mul_Fin t 60) as (v & -> & Hv).
  exists v. split; [reflexivity|].
  assert (E : (n == t * d)%Q) by (rewrite Ht; field; lra).
  rewrite Hv. repeat split; intros; nra.
Qed.

Lemma hexToHslMetrics_whole (hex : string) :
  exists zh zs zl : Z,
    m_h (hexToHslMetrics hex) = ofZ zh /\
    m_s (hexToHslMetrics hex) = ofZ zs /\
    m_l (hexToHslMetrics hex) = ofZ zl /\
    (0 <= zh <= 360)%Z /\ (0 <= zs <= 100)%Z /\ (0 <= zl <= 100)%Z.
Proof.
  destruct (hexToRgb_unit hex) as (r & g & b & a & E & Ur & Ug & Ub & _).
  destruct (unitInterval_finite r Ur) as [qr ->].
  destruct (unitInterval_finite g Ug) as [qg ->].
  destruct (unitInterval_finite b Ub) as [qb ->].
  apply unitInterval_Q in Ur, Ug, Ub.
  unfold hexToHslMetrics. rewrite E. cbn [nth]. cbv zeta.
  destruct (max3 qr qg qb) as (M & -> & BM & CM).
  destruct (min3 qr qg qb) as (m & -> & Bm & Cm).
  assert (M01 : (0 <= M <= 1)%Q) by (destruct CM as [e|[e|e]]; rewrite e; lra).
  assert (m01 : (0 <= m <= 1)%Q) by (destruct Cm as [e|[e|e]]; rewrite e; lra).
  clear CM Cm.
  cbn [m_h m_s m_l].
  destruct (add_Fin M m) as (sm & -> & Hsm).
  destruct (div_Fin sm 2) as (ql & -> & Hql); [lra|].
  destruct (sub_Fin M m) as (d & -> & Hd).
  assert (Hl : (0 <= ql <= 1)%Q) by (rewrite Hql, Hsm; split; [apply Qle_shift_div_l | apply Qle_shift_div_r]; lra).
  destruct (percent_range ql Hl) as (zl & -> & Bl).
  cbn [JS.eq]. destruct (Qeq_bool M m) eqn:Eq.
  - cbn [fst snd]. exists 0%Z, 0%Z, zl. repeat split; try reflexivity; lia.
  - apply Qeq_bool_neq in Eq. cbn [fst snd].
    assert (Hdpos : (0 < d)%Q) by (rewrite Hd; lra).
    (* the saturation *)
    assert (S : exists zs,
      Math_round (mul (if gt (Fin ql) (Fin 0.5)
                       then div (Fin d) (sub (sub (Fin 2) (Fin M)) (Fin m))
                       else div (Fin d) (Fin sm)) (Fin 100)) = ofZ zs
      /\ (0 <= zs <= 100)%Z).
    { destruct (gt (Fin ql) (Fin 0.5)) eqn:G.
      - apply lt_Fin in G.
        destruct (sub_Fin 2 M) as (u & -> & Hu).
        destruct (sub_Fin u m) as (w & -> & Hw).
        assert (Hwpos : (0 < w)%Q) by (rewrite Hw, Hu; lra).
        destruct (div_Fin d w) as (qs & -> & Hqs); [lra|].
        apply percent_range. rewrite Hqs. apply Qdiv_unit; lra.
      - assert (Hsmpos : (0 < sm)%Q) by (rewrite Hsm; lra).
        destruct (div_Fin d sm) as (qs & -> & Hqs); [lra|].
        apply percent_range. rewrite Hqs. apply Qdiv_unit; lra. }
    destruct S as (zs & -> & Bs).
    (* the hue *)
    assert (Hh : exists zh,
      Math_round
        (if Qeq_bool M qr
         then if lt (Fin qg) (Fin qb)
              then add (mul (div (sub (Fin qg) (Fin qb)) (Fin d)) (Fin 60)) (Fin 360)
              else mul (div (sub (Fin qg) (Fin qb)) (Fin d)) (Fin 60)
         else if Qeq_bool M qg
              then add (mul (div (sub (Fin qb) (Fin qr)) (Fin d)) (Fin 60)) (Fin 120)
              else if Qeq_bool M qb
                   then add (mul (div (sub (Fin qr) (Fin qg)) (Fin d)) (Fin 60)) (Fin 240)
                   else Fin 0) = ofZ zh
      /\ (0 <= zh <= 360)%Z).
    { destruct (hue_term qg qb d Hdpos) as (v1 & -> & R1 & P1 & N1); [lra|].
      destruct (hue_term qb qr d Hdpos) as (v2 & -> & R2 & _); [lra|].
      destruct (hue_term qr qg d Hdpos) as (v3 & -> & R3 & _); [lra|].
      destruct (Qeq_bool M qr).
      - destruct (lt (Fin qg) (Fin qb)) eqn:L.
        + apply lt_Fin in L. destruct (add_Fin v1 360) as (w & -> & Hw).
          apply round_range. rewrite Hw. change (inject_Z 360) with 360%Q.
          specialize (N1 L). lra.
        + apply lt_Fin_false in L. apply round_range.
          change (inject_Z 360) with 360%Q. specialize (P1 L). lra.
      - destruct (Qeq_bool M qg).
        + destruct (add_Fin v2 120) as (w & -> & Hw).
          apply round_range. rewrite Hw. change (inject_Z 360) with 360%Q. lra.
        + destruct (Qeq_bool M qb).
          * destruct (add_Fin v3 240) as (w & -> & Hw).
            apply round_range. rewrite Hw. change (inject_Z 360) with 360%Q. lra.
          * exists 0%Z. split; [reflexivity | lia]. }
    destruct Hh as (zh & -> & Bh).
    exists zh, zs, zl. repeat split; try reflexivity; lia.
Qed.

(** X22.  For every string, [hexToHslMetrics] returns whole numbers in
    range: a hue of 0..360 degrees, and a saturation and a lightness of
    0..100 percent. *)
Theorem hexToHslMetrics_ranges (hex : string) :
  exists zh zs zl : Z,
    m_h (hexToHslMetrics hex) = ofZ zh /\
    m_s (hexToHslMetrics hex) = ofZ zs /\
    m_l (hexToHslMetrics hex) = ofZ zl /\
    (0 <= zh <= 360)%Z /\ (0 <= zs <= 100)%Z /\ (0 <= zl <= 100)%Z.
Proof. apply hexToHslMetrics_whole. Qed.

End HslMetricsFacts.

(** ** ColorMetrics: the temperature of a negative hue *)

Section TemperatureFacts.
Import ColorMetrics.

Lemma le_fin_negative (c r : Q) : (0 <= c)%Q -> (r < 0)%Q -> le (Fin c) (fin r) = false.
Proof.
  intros Hc Hr. unfold fin. cbn [le]. apply Qle_bool_false. rewrite Qred_correct. lra.
Qed.

(** X23.  [getTemperature] does not bring a negative hue back onto the
    circle: every negative hue that is not a whole number of turns is
    'neutral', also where the same direction counted from 0 is warm or
    cool. *)
Theorem getTemperature_negative_hue (q : Q) (sat light : number) :
  (q < 0)%Q -> ~ (Qmod360 q == 0)%Q ->
  getTemperature (mkHSL (Fin q) sat light) = "neutral".
Proof.
  intros Hq Hm. unfold getTemperature. cbn [h rem].
  change (Qeq_bool 360 0) with false. cbv iota.
  set (y := (q / 360)%Q).
  assert (Hy : (y < 0)%Q).
  { unfold y. apply Qlt_shift_div_r; lra. }
  assert (Q360 : (q == y * 360)%Q) by (unfold y; field).
  assert (T : Qtrunc y = Qceiling y).
  { unfold Qtrunc. destruct (Qle_bool 0 y) eqn:E; [|reflexivity].
    apply Qle_bool_iff in E. lra. }
  rewrite T.
  assert (C : (y < inject_Z (Qceiling y))%Q).
  { destruct (Qle_lt_or_eq _ _ (Qle_ceiling y)) as [L|E]; [exact L|].
    exfalso. apply Hm. unfold Qmod360. fold y.
    assert (F : Qfloor y = Qceiling y).
    { rewrite (Qfloor_comp _ _ E). apply Qfloor_Z. }
    rewrite F. lra. }
  assert (R : (q - 360 * inject_Z (Qceiling y) < 0)%Q) by lra.
  unfold ge. rewrite !(le_fin_negative _ _) by (assumption || lra).
  reflexivity.
Qed.

End TemperatureFacts.

Section TemperatureWitness.
Import ColorMetrics.

Lemma getTemperature_negative_hue_witness :
  getTemperature (mkHSL (Fin (-30)) (Fin 1) (Fin 0.5)) = "neutral".
Proof.
  apply (getTemperature_negative_hue (-30) (Fin 1) (Fin 0.5)).
  - reflexivity.
  - vm_compute. discriminate.
Defined.

End TemperatureWitness.

(** ** RecalcCommand: the family of a record that has none *)

Section RecalcFacts.
Import ColorMetrics RecalcCommand.

Lemma recalculateFromHex_map (data : list Input) :
  snd (recalculateFromHex data) = map recalculate data.
Proof.
  unfold recalculateFromHex.
  generalize (mkRecalcStats (List.length data) 0 0 0 0).
  enough (G : forall acc st,
    snd (fold_left (fun (acc : RecalcStats * list ColorData) color =>
      let '(stats, processed) := acc in
      (mkRecalcStats (total stats)
         (S (recalculatedRgb stats)) (S (recalculatedHsl stats))
         (S (recalculatedHueRange stats)) (errors stats),
       processed ++ [recalculate color])) data (st, acc))
    = acc ++ map recalculate data) by (intro st; apply (G [] st)).
  induction data as [|c data IH]; intros acc st.
  - cbn. now rewrite app_nil_r.
  - cbn [fold_left map]. rewrite IH, <- app_assoc. reflexivity.
Qed.

(** A hue between 0 and 1 lies in the red sector. *)
Lemma small_hue_is_red (t : Q) :
  (0 <= t <= 1)%Q ->
  baseFamilyOf (rem (add (rem (Fin t) (Fin 360)) (Fin 360)) (Fin 360)) = "red".
Proof.
  intro Ht. rewrite normalized_hue. unfold Qmod360.
  assert (F : Qfloor (t / 360) = 0%Z).
  { apply Qfloor_unique.
    - change (inject_Z 0) with 0%Q. apply Qle_shift_div_l; lra.
    - change (inject_Z (0 + 1)) with 1%Q. apply Qlt_shift_div_r; lra. }
  rewrite F. unfold baseFamilyOf, fin.
  assert (L : le (Fin (Qred (t - 360 * inject_Z 0))) (Fin 15) = true).
  { apply le_Fin. rewrite Qred_correct. change (inject_Z 0) with 0%Q. lra. }
  rewrite L, orb_true_r. reflexivity.
Qed.

(** With the hue in the red sector, only these families remain. *)
Lemma red_sector_families (hue : number) (sat light : number) :
  baseFamilyOf (rem (add (rem hue (Fin 360)) (Fin 360)) (Fin 360)) = "red" ->
  In (getColorFamily (mkFamilyArg hue (Some sat) (Some light)))
     ["black"; "white"; "gray"; "pastel"; "neon"; "brown"; "pink"; "jewel"; "food"; "red"].
Proof.
  intro B. unfold getColorFamily. cbn [fa_h fa_s fa_l]. rewrite B.
  repeat match goal with
         | |- context [includes ?xs "red"] =>
             let v := eval vm_compute in (includes xs "red") in
             change (includes xs "red") with v
         | |- context [String.eqb "red" ?x] =>
             let v := eval vm_compute in (String.eqb "red" x) in
             change (String.eqb "red" x) with v
         end.
  cbn [andb orb].
  destruct (lt light (Fin 0.15)); [cbn; tauto|].
  destruct (lt sat (Fin 0.1)); [destruct (gt light (Fin 0.9)); cbn; tauto|].
  destruct (lt sat (Fin 0.3) && gt light (Fin 0.6)); [cbn; tauto|].
  destruct (gt sat (Fin 0.8) && gt light (Fin 0.8)); [cbn; tauto|].
  destruct (lt sat (Fin 0.5)) eqn:S5.
  - rewrite (lt_weaken sat 0.5 0.6 ltac:(lra) S5). cbn [andb].
    destruct (lt light (Fin 0.7)); [cbn; tauto|]. cbn [andb].
    repeat match goal with
           | |- context [if ?c then _ else _] => destruct c
           end; cbn; tauto.
  - cbn [andb].
    repeat match goal with
           | |- context [if ?c then _ else _] => destruct c
           end; cbn; tauto.
Qed.

(** X24.  [recalculateFromHex] keeps the hex of every record and a family
    that is present; a record without a family gets one computed from the
    hue divided by 360, a number of [0,1] that [getColorFamily] reads as
    degrees: whatever the colour, the family is then one of the ten below,
    never a hue family other than 'red' ('blue', 'green', 'orange', ...). *)
Theorem recalculateFromHex_families (data : list Input) :
  Forall2 (fun i c =>
             hex c = in_hex i /\
             match in_family i with
             | Some f => family c = f
             | None =>
                 In (family c)
                    ["black"; "white"; "gray"; "pastel"; "neon"; "brown"; "pink";
                     "jewel"; "food"; "red"]
             end)
          data (snd (recalculateFromHex data)).
Proof.
  rewrite recalculateFromHex_map.
  induction data as [|i data IH]; cbn [map]; constructor; [|exact IH].
  split; [reflexivity|].
  unfold recalculate. cbn [family]. destruct (in_family i) as [f|]; [reflexivity|].
  cbn [h s l].
  destruct (hexToHslMetrics_whole (in_hex i)) as (zh & zs & zl & -> & _ & _ & Bh & _).
  unfold ofZ.
  destruct (div_Fin (inject_Z zh) 360) as (t & -> & Ht); [lra|].
  apply red_sector_families, small_hue_is_red.
  rewrite Ht.
  assert (0 <= inject_Z zh <= 360)%Q.
  { change 0%Q with (inject_Z 0). change 360%Q with (inject_Z 360).
    rewrite <- !Zle_Qle. lia. }
  split; [apply Qle_shift_div_l | apply Qle_shift_div_r]; lra.
Qed.

End RecalcFacts.

(** ** The RGB converter and [hexToRgb] *)

Section ConverterFacts.
Import ColorMetrics Converter.

Lemma byte_digits (z : Z) :
  0 <= z <= 255 ->
  exists c1 c2,
    padStart0 2 (toString16 z) = String c1 (String c2 "") /\
    is_hex_any c1 = true /\ is_hex_any c2 = true /\ hexByte c1 c2 = z.
Proof.
  intro Hz.
  assert (A : forallb (fun n =>
      match padStart0 2 (toString16 (Z.of_nat n)) with
      | String c1 (String c2 EmptyString) =>
          is_hex_any c1 && is_hex_any c2 && Z.eqb (hexByte c1 c2) (Z.of_nat n)
      | _ => false
      end) (seq 0 256) = true) by (vm_compute; reflexivity).
  rewrite forallb_forall in A.
  specialize (A (Z.to_nat z)). rewrite Z2Nat.id in A by lia.
  assert (I : In (Z.to_nat z) (seq 0 256)) by (apply in_seq; lia).
  specialize (A I).
  destruct (padStart0 2 (toString16 z)) as [|c1 [|c2 [|c3 rest]]]; try discriminate.
  apply andb_prop in A. destruct A as [A E]. apply andb_prop in A. destruct A as [H1 H2].
  exists c1, c2. apply Z.eqb_eq in E. now repeat split.
Qed.

(** X25.  Bytes survive the trip through a hex string: for three channels
    of 0..255, [hexToRgb (rgbToHex r g b)] has four components, and the
    first three, scaled by 255 and rounded, are [r], [g] and [b] again. *)
Theorem rgbToHex_round_trip (r g b : Z) :
  0 <= r <= 255 -> 0 <= g <= 255 -> 0 <= b <= 255 ->
  exists r' g' b' a,
    hexToRgb (rgbToHex r g b) = [r'; g'; b'; a] /\
    Math_round (mul r' (Fin 255)) = ofZ r /\
    Math_round (mul g' (Fin 255)) = ofZ g /\
    Math_round (mul b' (Fin 255)) = ofZ b.
Proof.
  intros Hr Hg Hb.
  destruct (byte_digits r Hr) as (c1 & c2 & Er & H1 & H2 & B12).
  destruct (byte_digits g Hg) as (c3 & c4 & Eg & H3 & H4 & B34).
  destruct (byte_digits b Hb) as (c5 & c6 & Eb & H5 & H6 & B56).
  unfold rgbToHex. cbn [map]. rewrite Er, Eg, Eb.
  cbn [String.concat append].
  assert (H : forallb is_hex_any [c1; c2; c3; c4; c5; c6] = true).
  { cbn [forallb]. now rewrite H1, H2, H3, H4, H5, H6. }
  pose proof (hexToRgb_six true c1 c2 c3 c4 c5 c6 H) as E.
  cbn [append string_of_list_ascii] in E. rewrite E.
  destruct (parseInt16_pair c1 c2 H1 H2) as [-> _].
  destruct (parseInt16_pair c3 c4 H3 H4) as [-> _].
  destruct (parseInt16_pair c5 c6 H5 H6) as [-> _].
  rewrite B12, B34, B56.
  cbn [map normalizeRgb].
  do 4 eexists. split; [reflexivity|].
  repeat split; now apply channel_recovers_byte.
Qed.

(** X26.  The alpha of a six-digit hex colour: [hexToRgb] takes the
    default alpha 1 through the same normalisation as the channels, which
    divides a value of 1 or more by 255, so the fourth component is 0.004
    and not 1. *)
Theorem hexToRgb_six_digit_alpha (hash : bool) (c1 c2 c3 c4 c5 c6 : ascii) :
  forallb is_hex_any [c1; c2; c3; c4; c5; c6] = true ->
  nth 3 (hexToRgb ((if hash then "#" else "")
                   ++ string_of_list_ascii [c1; c2; c3; c4; c5; c6])%string) NaN
  = Fin (1 # 250).
Proof.
  intro H. rewrite (hexToRgb_six hash _ _ _ _ _ _ H). reflexivity.
Qed.

End ConverterFacts.

Section ConverterWitnesses.
Import ColorMetrics Converter.

Lemma rgbToHex_round_trip_witness :
  exists r' g' b' a,
    hexToRgb (rgbToHex 255 0 10) = [r'; g'; b'; a] /\
    Math_round (mul r' (Fin 255)) = ofZ 255 /\
    Math_round (mul g' (Fin 255)) = ofZ 0 /\
    Math_round (mul b' (Fin 255)) = ofZ 10.
Proof. apply (rgbToHex_round_trip 255 0 10); lia. Defined.

Lemma hexToRgb_six_digit_alpha_witness :
  nth 3 (hexToRgb "#336699") NaN = Fin (1 # 250).
Proof. exact (hexToRgb_six_digit_alpha true "3" "3" "6" "6" "9" "9" eq_refl). Defined.

End ConverterWitnesses.

(** ** The counts reported with a result *)

Section CountFacts.

Lemma Qred_inject_Z (z : Z) : Qred (inject_Z z) = inject_Z z.
Proof. apply Qcanon.Qred_identity. cbn. apply Z.gcd_1_r. Qed.

Lemma sub_ofNat (a b : nat) : (b <= a)%nat -> sub (ofNat a) (ofNat b) = ofNat (a - b).
Proof.
  intro H. unfold sub, ofNat, ofZ. cbn [neg add]. unfold fin. f_equal.
  rewrite <- (Qred_inject_Z (Z.of_nat (a - b))). apply Qred_complete.
  rewrite Qred_correct, Nat2Z.inj_sub by exact H.
  unfold Z.sub. rewrite inject_Z_plus, inject_Z_opp. reflexivity.
Qed.

End CountFacts.

Section DeduplicateCommandFacts.
Import DeduplicateCommand.

Variable scoreSemanticMatch : ColorData -> number.
Variable toFixed1 : number -> string.

(** X27.  The counts [DeduplicateCommand.deduplicate] reports add up:
    [unique] is the number of records returned, [removed] is a whole
    number that is never negative, and [unique + removed] is the number of
    input records. *)
Theorem deduplicate_stats_add_up (colors : list ColorData) :
  let result := deduplicate scoreSemanticMatch toFixed1 colors in
  exists k : nat,
    original (stats result) = ofNat (List.length colors) /\
    unique (stats result) = ofNat (List.length (data result)) /\
    removed (stats result) = ofNat k /\
    (List.length (data result) + k = List.length colors)%nat.
Proof.
  intro result. unfold result, deduplicate. cbn [stats data original unique removed].
  pose proof (deduplicate_cnt scoreSemanticMatch colors [] (fun _ => true)) as H.
  unfold cnt in H. rewrite !forallb_filter_id in H by (apply forallb_forall; reflexivity).
  exists (List.length colors
          - List.length (SemanticDeduplicator.colors
                           (SemanticDeduplicator.deduplicate scoreSemanticMatch colors [])))%nat.
  repeat split; [now apply sub_ofNat | lia].
Qed.

End DeduplicateCommandFacts.

Section PruneStatsFacts.
Import DatasetPruner.

Variable sqrtQ : Q -> Q.

(** X28.  The counts in the statistics of [prune] add up: [keptCount] is
    the number of records returned, [removedCount] is a whole number that
    is never negative, and the two together are the number of input
    records. *)
Theorem prune_stats_add_up (colors : list ColorData) (targetCount : nat)
    (options : PruningOptions) :
  let result := prune sqrtQ colors targetCount options in
  exists k : nat,
    keptCount (stats result) = ofNat (List.length (data result)) /\
    removedCount (stats result) = ofNat k /\
    (List.length (data result) + k = List.length colors)%nat.
Proof.
  intro result. unfold result, prune. cbn [stats data keptCount removedCount].
  rewrite length_map.
  set (selected := selectOptimalColors _ _).
  assert (H : (List.length selected <= List.length colors)%nat).
  { unfold selected.
    eapply Nat.le_trans; [apply selectOptimalColors_length|].
    rewrite scoreAllColors_length. apply Nat.le_min_r. }
  exists (List.length colors - List.length selected)%nat.
  repeat split; [now apply sub_ofNat | lia].
Qed.

End PruneStatsFacts.

(** ** QualityScorer: the range of the scores *)

Section ScoreRange.
Import QualityScorer.

Variable sqrtQ : Q -> Q.
Hypothesis sqrt_nonneg : forall q : Q, (0 <= q)%Q -> (0 <= sqrtQ q)%Q.

(** A weighted sum of three squares is a non-negative number. *)
Lemma weighted_squares (a b c w1 w2 w3 : Q) :
  (0 <= w1)%Q -> (0 <= w2)%Q -> (0 <= w3)%Q ->
  exists x,
    add (add (mul (square (Fin a)) (Fin w1)) (mul (square (Fin b)) (Fin w2)))
        (mul (square (Fin c)) (Fin w3)) = Fin x /\ (0 <= x)%Q.
Proof.
  intros H1 H2 H3. unfold square.
  destruct (mul_Fin a a) as (aa & -> & Haa).
  destruct (mul_Fin b b) as (bb & -> & Hbb).
  destruct (mul_Fin c c) as (cc & -> & Hcc).
  destruct (mul_Fin aa w1) as (t1 & -> & Ht1).
  destruct (mul_Fin bb w2) as (t2 & -> & Ht2).
  destruct (mul_Fin cc w3) as (t3 & -> & Ht3).
  destruct (add_Fin t1 t2) as (u & -> & Hu).
  destruct (add_Fin u t3) as (x & -> & Hx).
  exists x. split; [reflexivity|].
  assert (0 <= aa)%Q by (rewrite Haa; nra).
  assert (0 <= bb)%Q by (rewrite Hbb; nra).
  assert (0 <= cc)%Q by (rewrite Hcc; nra).
  rewrite Hx, Hu, Ht1, Ht2, Ht3. nra.
Qed.

Lemma sqrt_of_nonneg (x : Q) :
  (0 <= x)%Q -> exists r, Math_sqrt sqrtQ (Fin x) = Fin r /\ (0 <= r)%Q.
Proof.
  intro H. unfold Math_sqrt. rewrite (proj2 (Qle_bool_iff 0 x) H).
  exists (sqrtQ x). split; [reflexivity | now apply sqrt_nonneg].
Qed.

Lemma colorDistance_nonneg (c1 c2 : ColorData) :
  finiteHSL c1 -> finiteHSL c2 ->
  exists d, colorDistance sqrtQ c1 c2 = Fin d /\ (0 <= d)%Q.
Proof.
  intros (h1 & s1 & l1 & E1) (h2 & s2 & l2 & E2).
  unfold colorDistance. rewrite E1, E2. cbn [h s l].
  destruct (sub_Fin h1 h2) as (dh & -> & _). destruct (abs_Fin dh) as (ah & -> & _).
  destruct (sub_Fin 360 ah) as (bh & -> & _).
  assert (exists m, Math_min (Fin ah) (Fin bh) = Fin m) as (m & ->).
  { unfold Math_min. destruct (lt (Fin bh) (Fin ah)); eauto. }
  destruct (sub_Fin s1 s2) as (ds & -> & _). destruct (abs_Fin ds) as (a_s & -> & _).
  destruct (sub_Fin l1 l2) as (dl & -> & _). destruct (abs_Fin dl) as (al & -> & _).
  destruct (div_Fin m 360) as (x1 & -> & _); [discriminate|].
  destruct (div_Fin a_s 100) as (x2 & -> & _); [discriminate|].
  destruct (div_Fin al 100) as (x3 & -> & _); [discriminate|].
  destruct (weighted_squares x1 x2 x3 0.4 0.3 0.3) as (x & -> & Hx); try lra.
  destruct (sqrt_of_nonneg x Hx) as (r & -> & Hr).
  destruct (mul_Fin r 100) as (d & -> & Hd).
  exists d. split; [reflexivity | rewrite Hd; lra].
Qed.

Lemma min_of_nonneg (a : Q) (xs : list number) :
  (0 <= a)%Q ->
  Forall (fun x => exists d, x = Fin d /\ (0 <= d)%Q) xs ->
  exists d, fold_left Math_min xs (Fin a) = Fin d /\ (0 <= d)%Q.
Proof.
  intros Ha H. revert a Ha. induction H as [|x xs (d & -> & Hd) _ IH]; intros a Ha.
  - now exists a.
  - cbn [fold_left]. unfold Math_min at 2.
    destruct (lt (Fin d) (Fin a)); now apply IH.
Qed.

Lemma calculateUniqueness_unit (c : ColorData) (nearby : list ColorData) :
  finiteHSL c -> Forall finiteHSL nearby ->
  exists u, calculateUniqueness sqrtQ c nearby = Fin u /\ (0 <= u <= 1)%Q.
Proof.
  intros Fc Fn. unfold calculateUniqueness.
  destruct nearby as [|c' nearby]; [exists 1%Q; split; [reflexivity | lra]|].
  cbn [List.length Nat.eqb map]. unfold Math_min_list. cbn [fold_left].
  inversion Fn as [|? ? Fc' Fn']; subst.
  destruct (colorDistance_nonneg c c' Fc Fc') as (d0 & -> & Hd0).
  change (Math_min PInf (Fin d0)) with (Fin d0).
  destruct (min_of_nonneg d0 (map (colorDistance sqrtQ c) nearby) Hd0) as (d & -> & Hd).
  { apply Forall_map. revert Fn'. apply Forall_impl. intros c2 F2.
    now apply colorDistance_nonneg. }
  destruct (div_Fin d 100) as (r & -> & Hr); [discriminate|].
  assert (R0 : (0 <= r)%Q) by (rewrite Hr; apply Qle_shift_div_l; lra).
  unfold Math_min. destruct (lt (Fin r) (Fin 1)) eqn:E.
  - apply lt_Fin in E. exists r. split; [reflexivity | lra].
  - exists 1%Q. split; [reflexivity | lra].
Qed.

Lemma calculateSaturationQuality_unit (x lo hi : Q) :
  (lo < hi)%Q ->
  exists u, calculateSaturationQuality (Fin x) (Fin lo) (Fin hi) = Fin u /\ (0 <= u <= 1)%Q.
Proof.
  intro Hw. unfold calculateSaturationQuality.
  destruct (add_Fin lo hi) as (t & -> & Ht).
  destruct (div_Fin t 2) as (mid & -> & Hmid); [discriminate|].
  assert (Em : (mid == (lo + hi) * (1 # 2))%Q) by (rewrite Hmid, Ht; field).
  destruct (sub_Fin x mid) as (d & -> & Hd).
  destruct (abs_Fin d) as (a & -> & Ha).
  destruct (sub_Fin mid lo) as (d1 & -> & Hd1).
  destruct (sub_Fin hi mid) as (d2 & -> & Hd2).
  assert (P1 : (0 < d1)%Q) by (rewrite Hd1, Em; lra).
  assert (P2 : (0 < d2)%Q) by (rewrite Hd2, Em; lra).
  assert (A0 : (0 <= a)%Q) by (rewrite Ha; apply Qabs_nonneg).
  assert (exists m, Math_max (Fin d1) (Fin d2) = Fin m /\ (0 < m)%Q) as (m & -> & Hm).
  { destruct (max_Fin d1 d2) as [-> | ->]; eauto. }
  destruct (div_Fin a m) as (r & -> & Hr); [lra|].
  assert (R0 : (0 <= r)%Q).
  { rewrite Hr. apply Qle_shift_div_l; [assumption | lra]. }
  unfold Math_min. destruct (lt (Fin r) (Fin 1)) eqn:E.
  - apply lt_Fin in E. exists r. split; [reflexivity | lra].
  - exists 1%Q. split; [reflexivity | lra].
Qed.

Lemma calculateLightnessQuality_unit (x lo hi : number) :
  exists u, calculateLightnessQuality x lo hi = Fin u /\ (0 <= u <= 1)%Q.
Proof.
  unfold calculateLightnessQuality.
  destruct (_ || _); [|destruct (_ || _)]; eexists; (split; [reflexivity | lra]).
Qed.

Lemma sum_finite (f : ColorData -> number) (xs : list ColorData) (a : Q) :
  Forall (fun c => exists q, f c = Fin q) xs ->
  exists t, fold_left (fun sum c => add sum (f c)) xs (Fin a) = Fin t.
Proof.
  intro H. revert a. induction H as [|c xs (q & E) _ IH]; intro a.
  - now exists a.
  - cbn [fold_left]. rewrite E. destruct (add_Fin a q) as (t & -> & _). apply IH.
Qed.

Lemma calculateFamilyRepresentativity_unit (c : ColorData) (fam : list ColorData) :
  finiteHSL c -> Forall finiteHSL fam ->
  exists u, calculateFamilyRepresentativity sqrtQ c fam = Fin u /\ (0 <= u <= 1)%Q.
Proof.
  intros (qh & qs & ql & E) Ff. unfold calculateFamilyRepresentativity.
  destruct (Nat.eqb (List.length fam) 0) eqn:En;
    [exists 1%Q; split; [reflexivity | lra]|].
  apply Nat.eqb_neq in En.
  destruct (sum_finite (fun c => h (hsl c)) fam 0) as (th & ->).
  { revert Ff. apply Forall_impl. intros c' (a & b & d & E'). rewrite E'. now exists a. }
  destruct (sum_finite (fun c => s (hsl c)) fam 0) as (ts & ->).
  { revert Ff. apply Forall_impl. intros c' (a & b & d & E'). rewrite E'. now exists b. }
  destruct (sum_finite (fun c => l (hsl c)) fam 0) as (tl & ->).
  { revert Ff. apply Forall_impl. intros c' (a & b & d & E'). rewrite E'. now exists d. }
  rewrite E. cbn [h s l]. unfold ofNat, ofZ.
  assert (Hn : ~ (inject_Z (Z.of_nat (List.length fam)) == 0)%Q).
  { change 0%Q with (inject_Z 0). rewrite inject_Z_injective. lia. }
  destruct (div_Fin th _ Hn) as (ch & -> & _).
  destruct (div_Fin ts _ Hn) as (cs & -> & _).
  destruct (div_Fin tl _ Hn) as (cl & -> & _).
  destruct (sub_Fin qh ch) as (dh & -> & _).
  destruct (sub_Fin qs cs) as (ds & -> & _).
  destruct (sub_Fin ql cl) as (dl & -> & _).
  destruct (div_Fin dh 360) as (x1 & -> & _); [discriminate|].
  destruct (div_Fin ds 100) as (x2 & -> & _); [discriminate|].
  destruct (div_Fin dl 100) as (x3 & -> & _); [discriminate|].
  destruct (weighted_squares x1 x2 x3 0.3 0.3 0.4) as (x & -> & Hx); try lra.
  destruct (sqrt_of_nonneg x Hx) as (r & -> & Hr).
  destruct (mul_Fin r 2) as (r2 & -> & Hr2).
  destruct (sub_Fin 1 r2) as (v & -> & Hv).
  unfold Math_max. destruct (lt (Fin 0.3) (Fin v)) eqn:L.
  - apply lt_Fin in L. exists v. split; [reflexivity|]. rewrite Hv, Hr2 in *. lra.
  - exists 0.3%Q. split; [reflexivity | lra].
Qed.

Lemma inGamut_finite (c : ColorData) : inGamut c -> finiteHSL c.
Proof. intros (qh & qs & ql & E & _). now exists qh, qs, ql. Qed.

(** X29.  With a square root that is never negative, colors whose hue is
    in 0..360 and whose saturation and lightness are in 0..100, and a
    saturation range of positive width within 0..100, every part of the
    score is a number of [0,1] and the overall score is a whole number of
    0..100. *)
Theorem scoreColor_in_range (c : ColorData) (nearby fam : list ColorData)
    (r : SpectralRanges) (lo hi : Q) :
  inGamut c -> Forall inGamut nearby -> Forall inGamut fam ->
  sMin r = Fin lo -> sMax r = Fin hi ->
  (0 <= lo)%Q -> (lo < hi)%Q -> (hi <= 100)%Q ->
  let m := scoreColor sqrtQ c nearby fam r in
  unitInterval (uniqueness m) /\ unitInterval (saturationQuality m) /\
  unitInterval (lightnessQuality m) /\ unitInterval (familyRepresentativity m) /\
  exists z : Z, overallScore m = ofZ z /\ (0 <= z <= 100)%Z.
Proof.
  intros Gc Gn Gf Elo Ehi _ Hw _ m.
  pose proof (inGamut_finite c Gc) as Fc.
  assert (Fn : Forall finiteHSL nearby)
    by (revert Gn; apply Forall_impl, inGamut_finite).
  assert (Ff : Forall finiteHSL fam)
    by (revert Gf; apply Forall_impl, inGamut_finite).
  clear Gc Gn Gf. unfold m, scoreColor.
  cbn [uniqueness saturationQuality lightnessQuality familyRepresentativity overallScore].
  rewrite Elo, Ehi.
  destruct (calculateUniqueness_unit c nearby Fc Fn) as (u & -> & Hu).
  destruct Fc as (qh & qs & ql & E). rewrite E. cbn [s l].
  destruct (calculateSaturationQuality_unit qs lo hi Hw) as (sq & -> & Hsq).
  destruct (calculateLightnessQuality_unit (Fin ql) (lMin r) (lMax r)) as (lq & -> & Hlq).
  destruct (calculateFamilyRepresentativity_unit c fam
              (ex_intro _ qh (ex_intro _ qs (ex_intro _ ql E))) Ff) as (fr & -> & Hfr).
  repeat (split; [apply unitInterval_Fin; lra|]).
  destruct (mul_Fin u 35) as (t1 & -> & H1).
  destruct (mul_Fin sq 25) as (t2 & -> & H2).
  destruct (mul_Fin lq 25) as (t3 & -> & H3).
  destruct (mul_Fin fr 15) as (t4 & -> & H4).
  destruct (add_Fin t1 t2) as (a1 & -> & A1).
  destruct (add_Fin a1 t3) as (a2 & -> & A2).
  destruct (add_Fin a2 t4) as (a3 & -> & A3).
  apply round_range. rewrite A3, A2, A1, H1, H2, H3, H4.
  change (inject_Z 100) with 100%Q. lra.
Qed.

End ScoreRange.

Section ScoreRangeWitness.
Import QualityScorer.

Lemma scoreColor_in_range_witness :
  let m := scoreColor (fun q => q) namedGreen [unnamedRed] [namedGreen]
             (mkRanges (Fin 0) (Fin 360) (Fin 0) (Fin 100) (Fin 0) (Fin 100)) in
  unitInterval (uniqueness m) /\ unitInterval (saturationQuality m) /\
  unitInterval (lightnessQuality m) /\ unitInterval (familyRepresentativity m) /\
  exists z : Z, overallScore m = ofZ z /\ (0 <= z <= 100)%Z.
Proof.
  apply (scoreColor_in_range (fun q => q) (fun q H => H) namedGreen [unnamedRed] [namedGreen]
           (mkRanges (Fin 0) (Fin 360) (Fin 0) (Fin 100) (Fin 0) (Fin 100)) 0 100).
  - exists 120%Q, 100%Q, 50%Q. repeat split; lra.
  - repeat constructor. exists 0%Q, 100%Q, 50%Q. repeat split; lra.
  - repeat constructor. exists 120%Q, 100%Q, 50%Q. repeat split; lra.
  - reflexivity.
  - reflexivity.
  - lra.
  - lra.
  - lra.
Defined.

End ScoreRangeWitness.
